(** * warranty_check.py: batch warranty lookup with retry, cache and durable store

    A shallow embedding of [QueryResult] and of the query, display and
    persistence methods of [WarrantyCheckerApp], followed by the properties
    of the cache, the retry loop, the service counters and the result file.

    The network, the file system and the thread scheduler are inputs of the
    model: what each attempt receives, what each write does, and the order
    in which workers and the completion loop act.  Exceptions are those
    that [except Exception] catches. *)

From Stdlib Require Import ZArith Lia Ascii String.
From stdpp Require Import base list strings gmap pretty.

#[local] Open Scope string_scope.
#[local] Open Scope list_scope.

(** ** Python values

    The values that [response.json()] and [json.load] produce, and that the
    fields of a [QueryResult] hold at run time.  The dataclass annotations
    are not enforced by Python, so a field may hold any of them.  A [str]
    is kept as the bytes of its UTF-8 encoding.  A [dict] keeps its
    insertion order and is an association list whose keys are pairwise
    distinct. *)

#[local] Set Warnings "-register-all".

(** A Python [float], which a JSON number with a fraction or an exponent
    decodes to: not a number, an infinity, or the finite value
    [m * 2 ^ e] with its sign (the zeros have [m = 0]).  The application
    does no arithmetic on floats; it tests them and converts them. *)
Inductive pyfloat : Type :=
| FNan
| FInf (negative : bool)
| FNum (negative : bool) (m : N) (e : Z).

Inductive json : Type :=
| JNull
| JBool (b : bool)
| JInt (z : Z)
| JFloat (f : pyfloat)
| JStr (s : string)
| JList (items : list json)
| JObj (fields : list (string * json)).

(** [d.get(k)] / [k in d] on a dict, first binding for [k]. *)
Fixpoint dict_get {A : Type} (k : string) (d : list (string * A)) : option A :=
  match d with
  | [] => None
  | (k', v) :: d' => if String.eqb k k' then Some v else dict_get k d'
  end.

(** [d[k] = v]: an existing key keeps its position, a new key goes last. *)
Fixpoint dict_set {A : Type} (k : string) (v : A) (d : list (string * A))
  : list (string * A) :=
  match d with
  | [] => [(k, v)]
  | (k', v') :: d' =>
      if String.eqb k k' then (k, v) :: d' else (k', v') :: dict_set k v d'
  end.

Definition dict_keys {A : Type} (d : list (string * A)) : list string := d.*1.

Definition dict_mem {A : Type} (k : string) (d : list (string * A)) : bool :=
  match dict_get k d with Some _ => true | None => false end.

(** Truth value of a Python object, as [if x:] and [x and y] test it. *)
Definition py_truthy (v : json) : bool :=
  match v with
  | JNull => false
  | JBool b => b
  | JInt z => negb (z =? 0)%Z
  | JFloat f => match f with FNum _ m _ => negb (m =? 0)%N | _ => true end
  | JStr s => negb (String.eqb s "")
  | JList l => match l with [] => false | _ => true end
  | JObj o => match o with [] => false | _ => true end
  end.

(** [v[key]] for a string key: [inr] the value, [inl] the text of the
    exception ([str(e)]; the wording of the TypeErrors is CPython's). *)
Definition py_getitem (v : json) (key : string) : string + json :=
  match v with
  | JObj o =>
      match dict_get key o with
      | Some x => inr x
      | None => inl ("'" +:+ key +:+ "'")
      end
  | JList _ => inl "list indices must be integers or slices, not str"
  | JStr _ => inl "string indices must be integers, not 'str'"
  | JNull => inl "'NoneType' object is not subscriptable"
  | JBool _ => inl "'bool' object is not subscriptable"
  | JInt _ => inl "'int' object is not subscriptable"
  | JFloat _ => inl "'float' object is not subscriptable"
  end.

(** [f == n] for a float and an int: the comparison is exact. *)
Definition float_eq_int (f : pyfloat) (n : Z) : bool :=
  match f with
  | FNum negative m e =>
      let z := if negative then (- Z.of_N m)%Z else Z.of_N m in
      if (0 <=? e)%Z then (z * 2 ^ e =? n)%Z else (z =? n * 2 ^ (- e))%Z
  | _ => false
  end.

(** [v == n] for an int literal [n] other than 0 and 1. *)
Definition py_eq_int (v : json) (n : Z) : bool :=
  match v with
  | JInt z => (z =? n)%Z
  | JFloat f => float_eq_int f n
  | _ => false
  end.

(** [s1 in s2] on strings: substring test. *)
Fixpoint is_prefix (p s : string) : bool :=
  match p, s with
  | EmptyString, _ => true
  | String a p', String b s' => Ascii.eqb a b && is_prefix p' s'
  | String _ _, EmptyString => false
  end.

Fixpoint is_substring (p s : string) : bool :=
  is_prefix p s ||
  match s with
  | EmptyString => false
  | String _ s' => is_substring p s'
  end.

(** [key in v] for a string key; [None] when it raises TypeError. *)
Definition py_contains (key : string) (v : json) : option bool :=
  match v with
  | JObj o => Some (dict_mem key o)
  | JList l =>
      Some (existsb (fun x => match x with
                              | JStr s => String.eqb s key
                              | _ => false
                              end) l)
  | JStr s => Some (is_substring key s)
  | JNull | JBool _ | JInt _ | JFloat _ => None
  end.

Fixpoint chars (s : string) : list json :=
  match s with
  | EmptyString => []
  | String c s' => JStr (String c EmptyString) :: chars s'
  end.

(** [for item in v]: the items visited; [None] when [v] is not iterable.
    A dict yields its keys, a string its characters (bytes here). *)
Definition py_iter (v : json) : option (list json) :=
  match v with
  | JList l => Some l
  | JObj o => Some (JStr <$> dict_keys o)
  | JStr s => Some (chars s)
  | JNull | JBool _ | JInt _ | JFloat _ => None
  end.

(** [v.get(key, dflt)]: only a dict has [.get]. *)
Definition py_get (v : json) (key : string) (dflt : json) : option json :=
  match v with
  | JObj o => Some (default dflt (dict_get key o))
  | _ => None
  end.

(** ** Whitespace and strings

    [is_space] is the whitespace of [str.strip] and of the pattern class
    [\s] among the ASCII characters: TAB to CR, FS to US, and the space. *)

Definition is_space (c : ascii) : bool :=
  let n := Ascii.nat_of_ascii c in
  (Nat.leb 9 n && Nat.leb n 13) || (Nat.leb 28 n && Nat.leb n 32).

Fixpoint lstrip (s : string) : string :=
  match s with
  | String c s' => if is_space c then lstrip s' else s
  | EmptyString => EmptyString
  end.

Fixpoint rstrip (s : string) : string :=
  match s with
  | EmptyString => EmptyString
  | String c s' =>
      match rstrip s' with
      | EmptyString => if is_space c then EmptyString else String c EmptyString
      | r => String c r
      end
  end.

(** ** The builtin [int()]

    [int(x)] for a decoded value; [None] when it raises (TypeError,
    ValueError or OverflowError, all caught by [except Exception]). *)

(** [int(f)] for a float: the value with its fraction dropped (rounding
    toward zero); not a number and the infinities raise. *)
Definition int_of_float (f : pyfloat) : option Z :=
  match f with
  | FNum negative m e =>
      let a := if (0 <=? e)%Z then (Z.of_N m * 2 ^ e)%Z
               else (Z.of_N m / 2 ^ (- e))%Z in
      Some (if negative then (- a)%Z else a)
  | FNan | FInf _ => None
  end.

(** The code points of a string, from its UTF-8 bytes; [None] for bytes
    that are not the encoding of code points (overlong forms, surrogates
    and values above U+10FFFF included).  [int()] raises on a string that
    holds a lone surrogate as well. *)
Definition continuation (c : ascii) : option N :=
  let b := N_of_ascii c in
  if (128 <=? b)%N && (b <? 192)%N then Some (b - 128)%N else None.

Fixpoint utf8_decode (s : string) : option (list N) :=
  match s with
  | EmptyString => Some []
  | String c0 s1 =>
      let b0 := N_of_ascii c0 in
      if (b0 <? 128)%N then cons b0 <$> utf8_decode s1
      else if (b0 <? 194)%N then None
      else if (b0 <? 224)%N then
        match s1 with
        | String c1 s2 =>
            x1 ← continuation c1;
            cons ((b0 - 192) * 64 + x1)%N <$> utf8_decode s2
        | _ => None
        end
      else if (b0 <? 240)%N then
        match s1 with
        | String c1 (String c2 s3) =>
            x1 ← continuation c1;
            x2 ← continuation c2;
            let cp := ((b0 - 224) * 4096 + x1 * 64 + x2)%N in
            if (cp <? 2048)%N || ((55296 <=? cp)%N && (cp <? 57344)%N)
            then None
            else cons cp <$> utf8_decode s3
        | _ => None
        end
      else if (b0 <? 245)%N then
        match s1 with
        | String c1 (String c2 (String c3 s4)) =>
            x1 ← continuation c1;
            x2 ← continuation c2;
            x3 ← continuation c3;
            let cp := ((b0 - 240) * 262144 + x1 * 4096 + x2 * 64 + x3)%N in
            if (cp <? 65536)%N || (1114112 <=? cp)%N then None
            else cons cp <$> utf8_decode s4
        | _ => None
        end
      else None
  end.

(** The decimal digits beyond ASCII (general category Nd of the Unicode
    database of CPython 3.11, version 14.0): the first code point of each
    run and its length; the digit value of a member is its offset in the
    run modulo 10. *)
Definition decimal_runs : list (N * N) :=
  [(1632, 10); (1776, 10); (1984, 10); (2406, 10); (2534, 10); (2662, 10);
   (2790, 10); (2918, 10); (3046, 10); (3174, 10); (3302, 10); (3430, 10);
   (3558, 10); (3664, 10); (3792, 10); (3872, 10); (4160, 10); (4240, 10);
   (6112, 10); (6160, 10); (6470, 10); (6608, 10); (6784, 10); (6800, 10);
   (6992, 10); (7088, 10); (7232, 10); (7248, 10); (42528, 10);
   (43216, 10); (43264, 10); (43472, 10); (43504, 10); (43600, 10);
   (44016, 10); (65296, 10); (66720, 10); (68912, 10); (69734, 10);
   (69872, 10); (69942, 10); (70096, 10); (70384, 10); (70736, 10);
   (70864, 10); (71248, 10); (71360, 10); (71472, 10); (71904, 10);
   (72016, 10); (72784, 10); (73040, 10); (73120, 10); (92768, 10);
   (92864, 10); (93008, 10); (120782, 50); (123200, 10); (123632, 10);
   (125264, 10); (130032, 10)]%N.

Definition unicode_decimal (cp : N) : option N :=
  match List.find (fun run : N * N =>
                     (run.1 <=? cp)%N && (cp <? run.1 + run.2)%N)
                  decimal_runs with
  | Some run => Some ((cp - run.1) mod 10)%N
  | None => None
  end.

(** The whitespace beyond ASCII: NEL, NBSP, U+1680, U+2000 to U+200A,
    U+2028, U+2029, U+202F, U+205F and U+3000. *)
Definition unicode_space (cp : N) : bool :=
  existsb (N.eqb cp) [133; 160; 5760; 8232; 8233; 8239; 8287; 12288]%N ||
  ((8192 <=? cp)%N && (cp <=? 8202)%N).

(** What [int()] makes of a character before it reads the literal: a
    character below DEL is kept, a whitespace beyond it becomes a space
    and a decimal digit its ASCII digit; any other character makes the
    conversion fail. *)
Definition transform_char (cp : N) : option ascii :=
  if (cp <? 127)%N then Some (ascii_of_N cp)
  else if unicode_space cp then Some " "%char
  else (fun d => ascii_of_N (48 + d)) <$> unicode_decimal cp.

Definition transform (s : string) : option string :=
  cps ← utf8_decode s;
  string_of_list_ascii <$> mapM transform_char cps.

(** The whitespace that surrounds the literal: TAB to CR and the space.
    FS to US are not part of it. *)
Definition is_c_space (c : ascii) : bool :=
  let n := Ascii.nat_of_ascii c in
  (Nat.leb 9 n && Nat.leb n 13) || Nat.eqb n 32.

Fixpoint skip_spaces (s : string) : string :=
  match s with
  | String c s' => if is_c_space c then skip_spaces s' else s
  | EmptyString => EmptyString
  end.

Fixpoint drop_final_spaces (s : string) : string :=
  match s with
  | EmptyString => EmptyString
  | String c s' =>
      match drop_final_spaces s' with
      | EmptyString =>
          if is_c_space c then EmptyString else String c EmptyString
      | r => String c r
      end
  end.

Definition digit_of (c : ascii) : option Z :=
  let n := Ascii.nat_of_ascii c in
  if Nat.leb 48 n && Nat.leb n 57 then Some (Z.of_nat (n - 48)) else None.

(** Digits after the sign; [after_digit] tells whether the previous
    character was a digit (an underscore needs one on each side). *)
Fixpoint parse_digits (acc : Z) (after_digit : bool) (s : string) : option Z :=
  match s with
  | EmptyString => if after_digit then Some acc else None
  | String c s' =>
      match digit_of c with
      | Some d => parse_digits (10 * acc + d)%Z true s'
      | None =>
          if Ascii.eqb c "_"%char && after_digit then parse_digits acc false s'
          else None
      end
  end.

(** The longest literal that is converted (the interpreter's default,
    [sys.int_info.default_max_str_digits]): underscores, the sign and the
    surrounding whitespace do not count. *)
Definition max_str_digits : nat := 4300.

Fixpoint count_digits (s : string) : nat :=
  match s with
  | EmptyString => 0
  | String c s' =>
      match digit_of c with
      | Some _ => S (count_digits s')
      | None => count_digits s'
      end
  end.

(** The literal in a text of ASCII characters: an optional sign and
    digits, with single underscores between digits and whitespace around
    them. *)
Definition read_literal (text : string) : option Z :=
  let '(negative, digits) :=
    match drop_final_spaces (skip_spaces text) with
    | String "-"%char s' => (true, s')
    | String "+"%char s' => (false, s')
    | s' => (false, s')
    end in
  if (max_str_digits <? count_digits digits)%nat then None
  else
    z ← parse_digits 0 false digits;
    Some (if negative then (- z)%Z else z).

(** [int(s)] for a string. *)
Definition int_of_string (s : string) : option Z :=
  text ← transform s;
  read_literal text.

Definition py_int (v : json) : option Z :=
  match v with
  | JInt z => Some z
  | JBool b => Some (if b then 1 else 0)%Z
  | JFloat f => int_of_float f
  | JStr s => int_of_string s
  | JNull | JList _ | JObj _ => None
  end.

(** [str(x)] / f-string rendering of a decoded value is the interpreter's;
    the application only splices its result into messages. *)
Class Formatter := py_str : json -> string.

(** ** QueryResult *)

Record QueryResult : Type := mkQueryResult {
  serial : json;
  index : json;
  total : json;
  success : json;
  data : json;
  retry_count : json;
  valid_services : json;
  expired_services : json;
  total_services : json
}.

Definition to_dict (self : QueryResult) : json :=
  JObj [ ("serial", serial self);
         ("index", index self);
         ("total", total self);
         ("success", success self);
         ("data", data self);
         ("retry_count", retry_count self);
         ("valid_services", valid_services self);
         ("expired_services", expired_services self);
         ("total_services", total_services self) ].

Definition field_names : list string :=
  [ "serial"; "index"; "total"; "success"; "data"; "retry_count";
    "valid_services"; "expired_services"; "total_services" ].

(** The constructor applied to the unpacked mapping [data]: it must be a dict whose keys are all field names
    and which binds the five fields without a default; the generated
    [__init__] gives the other four their default 0.  No field is
    type-checked.  [None] is the TypeError. *)
Definition from_dict (d : json) : option QueryResult :=
  match d with
  | JObj o =>
      if forallb (fun k => existsb (String.eqb k) field_names) (dict_keys o)
      then
        match dict_get "serial" o, dict_get "index" o, dict_get "total" o,
              dict_get "success" o, dict_get "data" o with
        | Some s, Some i, Some t, Some ok, Some dat =>
            Some {| serial := s; index := i; total := t; success := ok;
                    data := dat;
                    retry_count := default (JInt 0) (dict_get "retry_count" o);
                    valid_services :=
                      default (JInt 0) (dict_get "valid_services" o);
                    expired_services :=
                      default (JInt 0) (dict_get "expired_services" o);
                    total_services :=
                      default (JInt 0) (dict_get "total_services" o) |}
        | _, _, _, _, _ => None
        end
      else None
  | _ => None
  end.

(** ** Application state

    [QueryResult] objects live in a heap and are shared by reference: the
    cache, the store and the futures hold addresses, so an assignment to a
    field is seen through every alias. *)

Definition loc := nat.

(** What one [session.get] / [raise_for_status] / [response.json()] round
    gives: an exception with its text, or the decoded document. *)
Inductive response : Type :=
| Raises (msg : string)
| Decodes (doc : json).

(** What one attempt to rewrite the result file does: the document is
    written, [open] raises and the file is left as it was, or [json.dump]
    raises after [open] has truncated the file. *)
Inductive write_outcome : Type := Written | OpenFails | DumpFails.

(** The file query_results.json: absent, present but not decodable, or
    holding a document. *)
Inductive file : Type :=
| NoFile
| Unreadable
| Doc (j : json).

(** What the application does to the outside world: a request for a
    serial, the pause before a retry, the header line of a displayed result
    (position, total, serial), a call of [save_results] that reaches
    [open], and the notice that lists the failed serials. *)
Inductive event : Type :=
| EvGet (serial : string)
| EvSleep
| EvShow (index total serial : json)
| EvSave (o : write_outcome)
| EvFailed (serials : list string).

Record app : Type := mkApp {
  heap : list QueryResult;
  query_cache : list (string * loc);
  query_results : list (string * loc);
  max_retries : nat;
  results_file : file;
  trace : list event
}.

Definition set_heap (h : list QueryResult) (st : app) : app :=
  mkApp h (query_cache st) (query_results st) (max_retries st)
        (results_file st) (trace st).

Definition set_cache (c : list (string * loc)) (st : app) : app :=
  mkApp (heap st) c (query_results st) (max_retries st)
        (results_file st) (trace st).

Definition set_results (r : list (string * loc)) (st : app) : app :=
  mkApp (heap st) (query_cache st) r (max_retries st)
        (results_file st) (trace st).

Definition set_file (f : file) (st : app) : app :=
  mkApp (heap st) (query_cache st) (query_results st) (max_retries st)
        f (trace st).

(** The trace lists the newest event first. *)
Definition log (e : event) (st : app) : app :=
  mkApp (heap st) (query_cache st) (query_results st) (max_retries st)
        (results_file st) (e :: trace st).

(** A new object gets the next free address. *)
Definition alloc (r : QueryResult) (st : app) : loc * app :=
  (length (heap st), set_heap (heap st ++ [r]) st).

(** [initialize_system] before [load_previous_results]. *)
Definition initial (f : file) : app :=
  mkApp [] [] [] 2 f [].

(** ** query_with_retry *)

Inductive attempt : Type :=
| Ok200 (data : json)
| BadStatus (status : json)
| Exc (msg : string).

(** The body of the [try] up to the test of the status code. *)
Definition attempt_of (r : response) : attempt :=
  match r with
  | Raises msg => Exc msg
  | Decodes data =>
      match py_getitem data "statusCode" with
      | inl msg => Exc msg
      | inr status => if py_eq_int status 200 then Ok200 data else BadStatus status
      end
  end.

Definition new_result (serial : string) (index total : Z) (success : bool)
    (data : json) (retry_count : nat) : QueryResult :=
  mkQueryResult (JStr serial) (JInt index) (JInt total) (JBool success) data
                (JInt (Z.of_nat retry_count)) (JInt 0) (JInt 0) (JInt 0).

Definition error_data (msg : string) : json := JObj [("error", JStr msg)].

Section Fetcher.
Context `{Formatter}.

(** The [for retry_count in range(...)] loop; [resp n] is what the
    attempt with [retry_count = n] of this call receives.  The result is
    [None] when the loop ends without a [return]. *)
Fixpoint fetch_loop (resp : nat -> response) (serial : string)
    (index total : Z) (range : list nat) (st : app) : option loc * app :=
  match range with
  | [] => (None, st)
  | retry_count :: range' =>
      let st := log (EvGet serial) st in
      match attempt_of (resp retry_count) with
      | Ok200 data =>
          let (result, st) :=
            alloc (new_result serial index total true data retry_count) st in
          (Some result, set_cache (dict_set serial result (query_cache st)) st)
      | BadStatus status =>
          if (retry_count <? max_retries st)%nat
          then fetch_loop resp serial index total range' (log EvSleep st)
          else
            let (result, st) :=
              alloc (new_result serial index total false
                       (error_data ("API返回状态码错误: " +:+ py_str status))
                       retry_count) st in
            (Some result, st)
      | Exc msg =>
          if (retry_count <? max_retries st)%nat
          then fetch_loop resp serial index total range' (log EvSleep st)
          else
            let (result, st) :=
              alloc (new_result serial index total false (error_data msg)
                       retry_count) st in
            (Some result, st)
      end
  end.

Definition query_with_retry (resp : nat -> response) (serial : string)
    (index total : Z) (st : app) : option loc * app :=
  match dict_get serial (query_cache st) with
  | Some result => (Some result, st)
  | None =>
      fetch_loop resp serial index total (seq 0 (max_retries st + 1)) st
  end.
End Fetcher.

(** ** _update_result_display *)

Definition service_types : list string := ["warranty"; "onsite"; "other"].

(** The inner [for item in ...] loop; [None] when an item raises. *)
Fixpoint count_items (items : list json) (valid_services expired_services : Z)
  : option (Z * Z) :=
  match items with
  | [] => Some (valid_services, expired_services)
  | item :: items' =>
      d ← py_get item "DateDifference" (JInt 0);
      remaining_days ← py_int d;
      if (remaining_days >? 0)%Z
      then count_items items' (valid_services + 1)%Z expired_services
      else count_items items' valid_services (expired_services + 1)%Z
  end.

(** The outer [for service_type in service_types] loop. *)
Fixpoint count_services (detail_info : json) (types : list string)
    (valid_services expired_services : Z) : option (Z * Z) :=
  match types with
  | [] => Some (valid_services, expired_services)
  | service_type :: types' =>
      present ← py_contains service_type detail_info;
      if (present : bool) then
        match py_getitem detail_info service_type with
        | inl _ => None
        | inr group =>
            items ← py_iter group;
            '(v, e) ← count_items items valid_services expired_services;
            count_services detail_info types' v e
        end
      else count_services detail_info types' valid_services expired_services
  end.

(** The counters the success branch ends with; [None] when it raises
    before the three assignments. *)
Definition service_counts (data : json) : option (Z * Z) :=
  match py_getitem data "data" with
  | inl _ => None
  | inr d =>
      detail_info ← py_get d "detailinfo" (JObj []);
      count_services detail_info service_types 0 0
  end.

Definition assign_counts (valid_services expired_services : Z)
    (result : QueryResult) : QueryResult :=
  mkQueryResult (serial result) (index result) (total result) (success result)
                (data result) (retry_count result)
                (JInt valid_services) (JInt expired_services)
                (JInt (valid_services + expired_services)).

(** The text inserted into the widget is left out, except the header line,
    kept as [EvShow]; an exception in the body is caught by the
    [except Exception] around it, before the three assignments.  [result]
    is the address of the object displayed. *)
Definition _update_result_display (result : loc) (st : app) : app :=
  match heap st !! result with
  | None => st
  | Some r =>
      let st := log (EvShow (index r) (total r) (serial r)) st in
      if py_truthy (success r) then
        match py_getitem (data r) "statusCode" with
        | inl _ => st
        | inr status =>
            if py_eq_int status 200 then
              match service_counts (data r) with
              | Some (valid_services, expired_services) =>
                  set_heap (<[result := assign_counts valid_services
                                          expired_services r]> (heap st)) st
              | None => st
              end
            else st
        end
      else st
  end.

Definition update_result_text (result : loc) (st : app) : app :=
  _update_result_display result st.

(** ** The result file *)

(** The dict comprehension of [save_results]. *)
Definition serializable_results (st : app) : option (list (string * json)) :=
  mapM (fun '(serial, result) =>
          r ← heap st !! result; Some (serial, to_dict r))
       (query_results st).

(** [o] is what the file system does with this write.  The document is the
    decoded form of the text [json.dump] writes.  The comprehension has
    nothing to raise: the addresses in the store are those of objects. *)
Definition save_results (o : write_outcome) (st : app) : app :=
  match serializable_results st with
  | None => st
  | Some doc =>
      let st := log (EvSave o) st in
      match o with
      | Written => set_file (Doc (JObj doc)) st
      | OpenFails => st
      | DumpFails => set_file Unreadable st
      end
  end.

(** The [for serial, result_dict in saved_results.items()] loop: the first
    entry that [from_dict] rejects raises, which leaves the loop. *)
Fixpoint load_entries (entries : list (string * json)) (st : app) : app :=
  match entries with
  | [] => st
  | (serial, result_dict) :: entries' =>
      match from_dict result_dict with
      | None => st
      | Some r =>
          let (result, st) := alloc r st in
          load_entries entries'
            (set_results (dict_set serial result (query_results st)) st)
      end
  end.

Definition load_previous_results (st : app) : app :=
  let st := set_results [] st in
  match results_file st with
  | NoFile => st
  | Unreadable => st
  | Doc (JObj entries) => load_entries entries st
  | Doc _ => st
  end.

(** [clear_all], once the user has confirmed. *)
Definition clear_all (st : app) : app :=
  set_file NoFile (set_results [] st).

(** ** execute_query

    The pool runs [query_with_retry] for every submitted serial while the
    main thread handles completions.  A worker touches shared state twice:
    when it looks the serial up in the cache ([Begin]) and, after its
    attempts, when it creates the result and records a success in the cache
    ([Finish]).  [Collect i] is one round of the [as_completed] loop, for
    future [i].  A schedule lists these actions in the order they happen;
    an action that cannot happen at its place is skipped. *)

Inductive future : Type :=
| Queued
| Running
| Done (result : option loc)
| Collected.

Inductive action : Type :=
| Begin (i : nat)
| Finish (i : nat)
| Collect (i : nat).

Record batch : Type := mkBatch {
  futures : list future;
  completed : nat;
  failed_serials : gset string;
  bapp : app
}.

Definition max_workers : nat := 96.

Definition is_queued (f : future) : bool :=
  match f with Queued => true | _ => false end.

Definition is_running (f : future) : bool :=
  match f with Running => true | _ => false end.

Definition is_collected (f : future) : bool :=
  match f with Collected => true | _ => false end.

(** The work queue is first in, first out, and at most [max_workers]
    calls run at a time. *)
Definition can_begin (i : nat) (fs : list future) : bool :=
  (i =? length (filter (fun f => is_queued f = false) fs))%nat &&
  (length (filter (fun f => is_running f = true) fs) <? max_workers)%nat.

(** A dict key or set element taken from a [serial] field.  Every result
    that reaches the completion loop was built by [query_with_retry] with
    the [str] it was called on; other values are not followed further. *)
Definition key_of (v : json) : option string :=
  match v with
  | JStr s => Some s
  | _ => None
  end.

(** [result.success and result.data['statusCode'] == 200]; [None] when the
    subscript raises. *)
Definition is_success (r : QueryResult) : option bool :=
  if py_truthy (success r) then
    match py_getitem (data r) "statusCode" with
    | inl _ => None
    | inr status => Some (py_eq_int status 200)
    end
  else Some false.

Section Orchestrator.
Context `{Formatter}.
Variable serials : list string.
(** [net i n]: what attempt [n] of the call for position [i] receives. *)
Variable net : nat -> nat -> response.
(** [io k]: what the checkpoint after [k] completions does. *)
Variable io : nat -> write_outcome.

(** The body of the [as_completed] loop for a future whose call returned
    [result]; an exception raised in it is caught and printed. *)
Definition handle_completion (result : option loc) (b : batch) : batch :=
  let completed := S (completed b) in
  match result with
  | None => mkBatch (futures b) completed (failed_serials b) (bapp b)
  | Some l =>
      let st := update_result_text l (bapp b) in
      match r ← heap st !! l; ok ← is_success r; k ← key_of (serial r);
            Some (ok, k) with
      | None => mkBatch (futures b) completed (failed_serials b) st
      | Some (true, k) =>
          let st := set_results (dict_set k l (query_results st)) st in
          let st :=
            if (completed mod 100 =? 0)%nat
            then save_results (io completed) st else st in
          mkBatch (futures b) completed (failed_serials b) st
      | Some (false, k) =>
          mkBatch (futures b) completed ({[k]} ∪ failed_serials b) st
      end
  end.

Definition set_future (i : nat) (f : future) (b : batch) : batch :=
  mkBatch (<[i := f]> (futures b)) (completed b) (failed_serials b) (bapp b).

Definition set_app (st : app) (b : batch) : batch :=
  mkBatch (futures b) (completed b) (failed_serials b) st.

Definition step (b : batch) (a : action) : batch :=
  match a with
  | Begin i =>
      match futures b !! i, serials !! i with
      | Some Queued, Some serial =>
          if can_begin i (futures b) then
            match dict_get serial (query_cache (bapp b)) with
            | Some result => set_future i (Done (Some result)) b
            | None => set_future i Running b
            end
          else b
      | _, _ => b
      end
  | Finish i =>
      match futures b !! i, serials !! i with
      | Some Running, Some serial =>
          let (result, st) :=
            fetch_loop (net i) serial (Z.of_nat (S i))
              (Z.of_nat (length serials))
              (seq 0 (max_retries (bapp b) + 1)) (bapp b) in
          set_future i (Done result) (set_app st b)
      | _, _ => b
      end
  | Collect i =>
      match futures b !! i with
      | Some (Done result) =>
          set_future i Collected (handle_completion result b)
      | _ => b
      end
  end.

Definition submitted (st : app) : batch :=
  mkBatch (replicate (length serials) Queued) 0 ∅ st.

Definition run (schedule : list action) (st : app) : batch :=
  foldl step (submitted st) schedule.

Definition handle_failed_queries (failed : gset string) (st : app) : app :=
  if decide (failed = ∅) then st else log (EvFailed (elements failed)) st.

(** [io_final] is what the write after the loop does.  The call returns
    once every future has been collected. *)
Definition execute_query (io_final : write_outcome)
    (schedule : list action) (st : app) : option app :=
  let b := run schedule st in
  if forallb is_collected (futures b) then
    Some (handle_failed_queries (failed_serials b)
            (save_results io_final (bapp b)))
  else None.
End Orchestrator.

(** ** Vocabulary of the statements *)

(** Why an attempt does not end the call with a success: the text that a
    failure at the last attempt stores under ['error']; [None] for a
    success. *)
Definition failure_reason `{Formatter} (r : response) : option string :=
  match attempt_of r with
  | Ok200 _ => None
  | BadStatus status => Some ("API返回状态码错误: " +:+ py_str status)
  | Exc msg => Some msg
  end.

(** The events of [m] failed attempts that are each followed by the pause
    before the next one. *)
Definition log_retries (serial : string) (m : nat) (st : app) : app :=
  Nat.iter m (fun st => log EvSleep (log (EvGet serial) st)) st.

Definition gets (t : list event) : nat :=
  length (filter (fun e => match e with EvGet _ => true | _ => false end = true) t).

Definition sleeps (t : list event) : nat :=
  length (filter (fun e => match e with EvSleep => true | _ => false end = true) t).

Definition saves (t : list event) : nat :=
  length (filter (fun e => match e with EvSave _ => true | _ => false end = true) t).

(** A formatter for closed examples: [str()] of the scalars a status code
    is there (None, a bool, an int, a str); of the other values only the
    empty list, the empty dict, the zeros and the non-finite floats are
    rendered, and the rest is shown as one of these. *)
Definition scalar_str (v : json) : string :=
  match v with
  | JNull => "None"
  | JBool true => "True"
  | JBool false => "False"
  | JInt z => pretty z
  | JFloat FNan => "nan"
  | JFloat (FInf false) => "inf"
  | JFloat (FInf true) => "-inf"
  | JFloat (FNum false _ _) => "0.0"
  | JFloat (FNum true _ _) => "-0.0"
  | JStr s => s
  | JList _ => "[]"
  | JObj _ => "{}"
  end.

#[local] Instance scalar_formatter : Formatter := scalar_str.

(** A success document with one warranty entry. *)
Definition entry (days : Z) : json :=
  JObj [("ServiceProductName", JStr "Depot"); ("DateDifference", JInt days)].

Definition payload (groups : list (string * json)) : json :=
  JObj [("statusCode", JInt 200);
        ("data", JObj [("detailinfo", JObj groups)])].

Definition timeout : response := Raises "Read timed out.".
Definition busy : response := Decodes (JObj [("statusCode", JInt 500)]).
Definition found (days : Z) : response :=
  Decodes (payload [("warranty", JList [entry days])]).

(** The service answers at the second attempt. *)
Definition second_try (n : nat) : response :=
  match n with
  | 0 => timeout
  | _ => found 30
  end.

(** The state in which "ABCDEFGH12" was looked up once, at position 3 of
    7, and found at the second attempt. *)
Definition after_second_try : app :=
  (query_with_retry second_try "ABCDEFGH12" 3 7 (initial NoFile)).2.

(** The fetcher as the specification describes it: a call leaves the cache
    and the store as they were. *)
Definition fetcher_pure_claim `{Formatter} (resp : nat -> response)
    (serial : string) (index total : Z) (st : app) : Prop :=
  let st' := (query_with_retry resp serial index total st).2 in
  query_cache st' = query_cache st ∧ query_results st' = query_results st.

(** A hit as the specification describes it: no network call, no pause,
    and a reported retry count of 0. *)
Definition cache_hit_claim `{Formatter} (serial : string) (st : app) : Prop :=
  ∀ l r, dict_get serial (query_cache st) = Some l →
         heap st !! l = Some r → is_success r = Some true →
  ∀ resp index total,
    ∃ l' st' r',
      query_with_retry resp serial index total st = (Some l', st') ∧
      gets (trace st') = gets (trace st) ∧
      sleeps (trace st') = sleeps (trace st) ∧
      heap st' !! l' = Some r' ∧ retry_count r' = JInt 0.

(** The fields that no method assigns after the constructor. *)
Definition same_core (r r' : QueryResult) : Prop :=
  serial r' = serial r ∧ index r' = index r ∧ total r' = total r ∧
  success r' = success r ∧ data r' = data r ∧ retry_count r' = retry_count r.

Definition is_fetch_event (e : event) : Prop :=
  match e with
  | EvGet _ | EvSleep => True
  | _ => False
  end.

(** What a run of the retry loop can do to a state, with its result. *)
Inductive fetch_result (serial : string) (index total : Z) (st : app)
  : option loc → app → Prop :=
| FetchFalls evs :
    Forall is_fetch_event evs →
    fetch_result serial index total st None
      (mkApp (heap st) (query_cache st) (query_results st) (max_retries st)
             (results_file st) (evs ++ trace st))
| FetchFound evs doc n :
    Forall is_fetch_event evs →
    is_success (new_result serial index total true doc n) = Some true →
    fetch_result serial index total st (Some (length (heap st)))
      (mkApp (heap st ++ [new_result serial index total true doc n])
             (dict_set serial (length (heap st)) (query_cache st))
             (query_results st) (max_retries st)
             (results_file st) (evs ++ trace st))
| FetchFailed evs msg n :
    Forall is_fetch_event evs →
    fetch_result serial index total st (Some (length (heap st)))
      (mkApp (heap st ++ [new_result serial index total false
                            (error_data msg) n])
             (query_cache st) (query_results st) (max_retries st)
             (results_file st) (evs ++ trace st)).

(** The service-detail entries of a payload: the groups filed under the
    service-type tags, in that order, each a list of entries, each entry a
    dict whose days-remaining figure (0 when the entry has none) is
    converted by [int()].  [None] for a payload that is not of this form. *)
Definition group_items (groups : list (string * json)) (tag : string)
  : option (list json) :=
  match dict_get tag groups with
  | None => Some []
  | Some (JList items) => Some items
  | Some _ => None
  end.

Definition days_remaining (item : json) : option Z :=
  match item with
  | JObj fields => py_int (default (JInt 0) (dict_get "DateDifference" fields))
  | _ => None
  end.

Definition payload_days (data : json) : option (list Z) :=
  match data with
  | JObj top =>
      match dict_get "data" top with
      | Some (JObj d) =>
          match default (JObj []) (dict_get "detailinfo" d) with
          | JObj groups =>
              items ← mapM (group_items groups) service_types;
              mapM days_remaining (concat items)
          | _ => None
          end
      | _ => None
      end
  | _ => None
  end.

(** An entry with the given days-remaining figure. *)
Definition entry_with (figure : json) : json :=
  JObj [("ServiceProductName", JStr "Depot"); ("DateDifference", figure)].



(** Half a day: the float 0.5. *)
Definition half : pyfloat := FNum false 1 (-1).

Definition count_valid (days : list Z) : Z :=
  Z.of_nat (length (filter (λ d, (0 < d)%Z) days)).

Definition count_expired (days : list Z) : Z :=
  Z.of_nat (length (filter (λ d, (d ≤ 0)%Z) days)).

(** Every address in the store is that of an object. *)
Definition store_live (st : app) : Prop :=
  Forall (λ kl : string * loc, is_Some (heap st !! kl.2)) (query_results st).

Definition readable (e : string * json) : Prop := is_Some (from_dict e.2).

(** Loading as the specification describes it: every readable entry of
    the document ends up in the store. *)
Definition load_skips_claim (entries : list (string * json)) (st : app)
  : Prop :=
  ∀ k e, (k, e) ∈ entries → is_Some (from_dict e) →
    dict_mem k (query_results
                  (load_previous_results (set_file (Doc (JObj entries)) st)))
    = true.

Definition stored (serial : string) : json :=
  to_dict (new_result serial 1 1 true (payload []) 0).

(** A document whose second entry lacks the ['serial'] field. *)
Definition damaged_document : list (string * json) :=
  [ ("AAAAAAAA", stored "AAAAAAAA");
    ("BBBBBBBB", JObj [("index", JInt 2)]);
    ("CCCCCCCC", stored "CCCCCCCC") ].

(** ** The steps of a batch, case by case *)

(** The checkpoint inside the success branch of the completion loop. *)
Definition checkpoint (io : nat → write_outcome) (completed : nat) (st : app)
  : app :=
  if (completed mod 100 =? 0)%nat then save_results (io completed) st else st.

Section Steps.
Context `{Formatter}.
Variable serials : list string.
Variable net : nat → nat → response.
Variable io : nat → write_outcome.

Inductive step_spec (b : batch) : batch → Prop :=
| StepIdle :
    step_spec b b
| StepHit i serial l :
    futures b !! i = Some Queued → serials !! i = Some serial →
    dict_get serial (query_cache (bapp b)) = Some l →
    step_spec b (set_future i (Done (Some l)) b)
| StepMiss i serial :
    futures b !! i = Some Queued → serials !! i = Some serial →
    dict_get serial (query_cache (bapp b)) = None →
    step_spec b (set_future i Running b)
| StepFetch i serial l st' :
    futures b !! i = Some Running → serials !! i = Some serial →
    fetch_result serial (Z.of_nat (S i)) (Z.of_nat (length serials))
      (bapp b) (Some l) st' →
    step_spec b (set_future i (Done (Some l)) (set_app st' b))
| StepCollectNone i :
    futures b !! i = Some (Done None) →
    step_spec b
      (set_future i Collected
         (mkBatch (futures b) (S (completed b)) (failed_serials b) (bapp b)))
| StepCollectRaise i l :
    futures b !! i = Some (Done (Some l)) →
    step_spec b
      (set_future i Collected
         (mkBatch (futures b) (S (completed b)) (failed_serials b)
            (_update_result_display l (bapp b))))
| StepCollectStore i l r k :
    futures b !! i = Some (Done (Some l)) →
    heap (_update_result_display l (bapp b)) !! l = Some r →
    is_success r = Some true → serial r = JStr k →
    step_spec b
      (set_future i Collected
         (mkBatch (futures b) (S (completed b)) (failed_serials b)
            (checkpoint io (S (completed b))
               (set_results
                  (dict_set k l
                     (query_results (_update_result_display l (bapp b))))
                  (_update_result_display l (bapp b))))))
| StepCollectFail i l r k :
    futures b !! i = Some (Done (Some l)) →
    heap (_update_result_display l (bapp b)) !! l = Some r →
    is_success r = Some false → serial r = JStr k →
    step_spec b
      (set_future i Collected
         (mkBatch (futures b) (S (completed b)) ({[k]} ∪ failed_serials b)
            (_update_result_display l (bapp b)))).
End Steps.

(** Every object of [st] is still there in [st'], at its address, with
    the fields of [same_core] as they were. *)
Definition extends (st st' : app) : Prop :=
  ∀ l r, heap st !! l = Some r →
         ∃ r', heap st' !! l = Some r' ∧ same_core r r'.

(** The methods that act on the state. *)
Inductive method : Type :=
| Query (resp : nat → response) (serial : string) (index total : Z)
| Display (result : loc)
| SaveResults (o : write_outcome)
| LoadPrevious
| ClearAll
| Batch (serials : list string) (net : nat → nat → response)
        (io : nat → write_outcome) (io_final : write_outcome)
        (schedule : list action).

(** The state a call leaves; for a batch whose schedule stops early, the
    state reached so far. *)
Definition call `{Formatter} (m : method) (st : app) : app :=
  match m with
  | Query resp serial index total =>
      (query_with_retry resp serial index total st).2
  | Display result => update_result_text result st
  | SaveResults o => save_results o st
  | LoadPrevious => load_previous_results st
  | ClearAll => clear_all st
  | Batch serials net io io_final schedule =>
      default (bapp (run serials net io schedule st))
              (execute_query serials net io io_final schedule st)
  end.

(** Immutability as the specification states it: no call changes an
    existing object. *)
Definition immutable_claim `{Formatter} (m : method) (st : app) : Prop :=
  ∀ l r, heap st !! l = Some r → heap (call m st) !! l = Some r.

(** One lookup in a batch of one. *)
Definition one_serial : list string := ["ABCDEFGH12"].
Definition one_schedule : list action := [Begin 0; Finish 0; Collect 0].

(** The store as the specification describes it: it receives the result
    of every identifier of the batch, failures included. *)
Definition store_keeps_failures_claim `{Formatter} (serials : list string)
    (net : nat → nat → response) (io : nat → write_outcome)
    (io_final : write_outcome) (schedule : list action) (st : app) : Prop :=
  ∀ st', execute_query serials net io io_final schedule st = Some st' →
  ∀ k, k ∈ serials → dict_mem k (query_results st') = true.

Definition collected_count (fs : list future) : nat :=
  length (filter (λ f, is_collected f = true) fs).

(** A batch of 250 serials, answered one after the other; the lookups at
    positions 100 and 200 time out, the others succeed at once. *)
Definition serials_250 : list string :=
  (λ i, "PF" +:+ pretty (100000 + N.of_nat i)%N) <$> seq 0 250.

Definition one_by_one (n : nat) : list action :=
  seq 0 n ≫= λ i, [Begin i; Finish i; Collect i].

Definition net_250 (i n : nat) : response :=
  if (i =? 99)%nat || (i =? 199)%nat then timeout else found 30.

(** Checkpoints as the specification describes them: one write per full
    hundred of completions, whatever their outcome, and one at the end. *)
Definition checkpoint_claim `{Formatter} (serials : list string)
    (net : nat → nat → response) (io : nat → write_outcome)
    (io_final : write_outcome) (schedule : list action) (st : app) : Prop :=
  ∀ st', execute_query serials net io io_final schedule st = Some st' →
  (saves (trace st) + length serials / 100 + 1 ≤ saves (trace st'))%nat.

(** ** Vocabulary for a later batch *)

(** Every cached address holds a result for the serial it is filed under. *)
Definition cache_ok (st : app) : Prop :=
  ∀ k l, dict_get k (query_cache st) = Some l →
         ∃ r, heap st !! l = Some r ∧ serial r = JStr k.

(** There is a future per serial, and a finished call has returned a
    result for its serial. *)
Definition futures_ok (serials : list string) (b : batch) : Prop :=
  length (futures b) = length serials ∧
  cache_ok (bapp b) ∧
  ∀ j k res, serials !! j = Some k → futures b !! j = Some (Done res) →
    ∃ l r, res = Some l ∧ heap (bapp b) !! l = Some r ∧ serial r = JStr k.

(** The result cached for [s] was built at position [i] of this batch. *)
Definition cached_here (serials : list string) (s : string) (i : nat)
    (st : app) : Prop :=
  ∀ l, dict_get s (query_cache st) = Some l →
    ∃ r, heap st !! l = Some r ∧ serial r = JStr s ∧
         index r = JInt (Z.of_nat (S i)) ∧
         total r = JInt (Z.of_nat (length serials)).

(** While a later batch runs, [s] stays cached at [l], whose object shows
    as [x]/[y]; no call for [s] is running, every finished call for [s]
    has returned [l], and each result event for [s] logged since [st1]
    shows [x]/[y], with one logged for every collected future of [s]. *)
Definition requery_inv (serials : list string) (s : string) (l : loc)
    (x y : json) (st1 : app) (b : batch) : Prop :=
  dict_get s (query_cache (bapp b)) = Some l ∧
  (∃ r, heap (bapp b) !! l = Some r ∧ serial r = JStr s ∧
        index r = x ∧ total r = y) ∧
  (∀ j, serials !! j = Some s → futures b !! j ≠ Some Running) ∧
  (∀ j l', serials !! j = Some s → futures b !! j = Some (Done (Some l')) →
           l' = l) ∧
  ∃ new, trace (bapp b) = new ++ trace st1 ∧
    (∀ j, serials !! j = Some s → futures b !! j = Some Collected →
          EvShow x y (JStr s) ∈ new) ∧
    (∀ a c, EvShow a c (JStr s) ∈ new → a = x ∧ c = y).

Definition is_show (e : event) : Prop :=
  match e with
  | EvShow _ _ _ => True
  | _ => False
  end.

(** Two batches: "ABCDEFGH12" is second of two in the first and first of
    three in the second. *)
Definition first_batch : list string := ["AAAAAAAA"; "ABCDEFGH12"].
Definition later_batch : list string := ["ABCDEFGH12"; "BBBBBBBB"; "CCCCCCCC"].

Definition after_first_batch : app :=
  default (initial NoFile)
    (execute_query first_batch (λ _ _, found 30) (λ _, Written) Written
       (one_by_one 2) (initial NoFile)).

Definition after_later_batch : app :=
  default after_first_batch
    (execute_query later_batch (λ _ _, found 30) (λ _, Written) Written
       (one_by_one 3) after_first_batch).

(** ** parse_serial_numbers

    The text of the input box is read as bytes; the whitespace and line
    boundaries below are the ASCII ones of [str.strip], [str.splitlines] and
    the pattern class [\s]. *)

Definition strip (s : string) : string := rstrip (lstrip s).

(** The line boundaries of [str.splitlines]: LF, VT, FF, CR, FS, GS, RS. *)
Definition is_line_break (c : ascii) : bool :=
  let n := Ascii.nat_of_ascii c in
  (Nat.leb 10 n && Nat.leb n 13) || (Nat.leb 28 n && Nat.leb n 30).

(** [s.splitlines()]: a CR LF pair is one boundary, and a boundary at the
    very end opens no further line. *)
Fixpoint splitlines (s : string) : list string :=
  match s with
  | EmptyString => []
  | String c s' =>
      if is_line_break c then
        EmptyString ::
        match c, s' with
        | "013"%char, String "010"%char s'' => splitlines s''
        | _, _ => splitlines s'
        end
      else
        match splitlines s' with
        | line :: lines => String c line :: lines
        | [] => [String c EmptyString]
        end
  end.

(** The separators of the pattern [[,\s]+]. *)
Definition is_sep (c : ascii) : bool := Ascii.eqb c ","%char || is_space c.

(** [re.split(r'[,\s]+', s)]; [in_sep] tells whether the previous
    character belonged to a separator run.  A run at either end leaves an
    empty piece there. *)
Fixpoint re_split_from (in_sep : bool) (s : string) : list string :=
  match s with
  | EmptyString => [EmptyString]
  | String c s' =>
      if is_sep c then
        if in_sep then re_split_from true s'
        else EmptyString :: re_split_from true s'
      else
        match re_split_from false s' with
        | part :: parts => String c part :: parts
        | [] => [String c EmptyString]
        end
  end.

Definition re_split (s : string) : list string := re_split_from false s.

Definition is_alnum (c : ascii) : bool :=
  let n := Ascii.nat_of_ascii c in
  (Nat.leb 48 n && Nat.leb n 57) || (Nat.leb 65 n && Nat.leb n 90) ||
  (Nat.leb 97 n && Nat.leb n 122).

Fixpoint all_chars (p : ascii → bool) (s : string) : bool :=
  match s with
  | EmptyString => true
  | String c s' => p c && all_chars p s'
  end.

Definition alnum_8_20 (s : string) : bool :=
  all_chars is_alnum s &&
  Nat.leb 8 (String.length s) && Nat.leb (String.length s) 20.

Fixpoint without_final_newline (s : string) : option string :=
  match s with
  | EmptyString => None
  | String "010"%char EmptyString => Some EmptyString
  | String c s' => String c <$> without_final_newline s'
  end.

(** [re.match(r'^[A-Za-z0-9]{8,20}$', s)]: [$] also matches just before a
    newline that ends the string. *)
Definition matches_serial (s : string) : bool :=
  alnum_8_20 s ||
  match without_final_newline s with
  | Some s' => alnum_8_20 s'
  | None => false
  end.

Definition upper_char (c : ascii) : ascii :=
  let n := Ascii.nat_of_ascii c in
  if Nat.leb 97 n && Nat.leb n 122 then Ascii.ascii_of_nat (n - 32) else c.

(** [s.upper()] on the strings it is applied to, which match the pattern. *)
Fixpoint upper (s : string) : string :=
  match s with
  | EmptyString => EmptyString
  | String c s' => String (upper_char c) (upper s')
  end.

(** The [for part in parts] loop: [result] and [invalid_serials] grow at
    their end. *)
Fixpoint scan_parts (parts : list string) (acc : list string * list string)
  : list string * list string :=
  match parts with
  | [] => acc
  | part :: parts' =>
      let serial := strip part in
      if String.eqb serial EmptyString then scan_parts parts' acc
      else if matches_serial serial
      then scan_parts parts' (acc.1 ++ [upper serial], acc.2)
      else scan_parts parts' (acc.1, acc.2 ++ [serial])
  end.

(** The [for item in items] loop. *)
Fixpoint scan_items (items : list string) (acc : list string * list string)
  : list string * list string :=
  match items with
  | [] => acc
  | item :: items' => scan_items items' (scan_parts (re_split (strip item)) acc)
  end.

(** The loop over [result] with [seen], [unique_result] and [duplicates];
    [seen] holds what [unique_result] lists. *)
Fixpoint unique_from (result : list string) (acc : list string * list string)
  : list string * list string :=
  match result with
  | [] => acc
  | serial :: result' =>
      if existsb (String.eqb serial) acc.1
      then unique_from result' (acc.1, acc.2 ++ [serial])
      else unique_from result' (acc.1 ++ [serial], acc.2)
  end.

(** What the function computes: [unique_result], and the two lists the
    warning box reports, [invalid_serials] and [duplicates]. *)
Record parsed : Type := mkParsed {
  unique_result : list string;
  invalid_serials : list string;
  duplicates : list string
}.

Definition parse_report (text : string) : parsed :=
  let text := strip text in
  if String.eqb text EmptyString then mkParsed [] [] []
  else
    let scanned := scan_items (splitlines text) ([], []) in
    let uniq := unique_from scanned.1 ([], []) in
    mkParsed uniq.1 scanned.2 uniq.2.

Definition parse_serial_numbers (text : string) : list string :=
  unique_result (parse_report text).

(** The warning box is shown when one of the two lists is not empty. *)
Definition parse_warns (text : string) : bool :=
  match invalid_serials (parse_report text), duplicates (parse_report text) with
  | [], [] => false
  | _, _ => true
  end.

(** ["\n".join(serials)], the text [handle_failed_queries] puts into the
    input box. *)
Fixpoint join_lines (serials : list string) : string :=
  match serials with
  | [] => EmptyString
  | [s] => s
  | s :: serials' => s +:+ String "010"%char (join_lines serials')
  end.

(** A serial in its canonical form: 8 to 20 characters, each an uppercase
    letter or a digit. *)
Definition is_upper_or_digit (c : ascii) : bool :=
  let n := Ascii.nat_of_ascii c in
  (Nat.leb 48 n && Nat.leb n 57) || (Nat.leb 65 n && Nat.leb n 90).

Definition canonical (s : string) : bool :=
  all_chars is_upper_or_digit s &&
  Nat.leb 8 (String.length s) && Nat.leb (String.length s) 20.

Fixpoint ends_with (p : ascii → bool) (s : string) : bool :=
  match s with
  | EmptyString => false
  | String c EmptyString => p c
  | String _ s' => ends_with p s'
  end.

(** What the two loops add: canonical serials to [result], and non-empty
    strings that fail the pattern to [invalid_serials]. *)
Definition sorted_out (acc acc' : list string * list string) : Prop :=
  ∃ good bad,
    acc' = (acc.1 ++ good, acc.2 ++ bad) ∧
    Forall (λ s, canonical s = true) good ∧
    Forall (λ s, s ≠ EmptyString ∧ matches_serial s = false) bad.

(** ** Figures written as decimal text *)

Definition is_digit (c : ascii) : bool :=
  match digit_of c with Some _ => true | None => false end.

(** The number a run of digits denotes, after the digits read so far. *)
Fixpoint value_of (acc : Z) (t : string) : Z :=
  match t with
  | EmptyString => acc
  | String c t' => value_of (10 * acc + default 0 (digit_of c))%Z t'
  end.

(** A character below DEL, which [int()] reads as it is. *)
Definition is_plain (c : ascii) : bool := (N_of_ascii c <? 127)%N.

(** A days-remaining figure [d] as a JSON integer, or as the decimal text
    that [str(d)] writes. *)
Definition written (v : json) (d : Z) : Prop :=
  v = JInt d ∨ v = JStr (pretty d).

(** ** Figures with a fraction *)

Definition is_finite (f : pyfloat) : Prop :=
  match f with FNum _ _ _ => True | _ => False end.

(** A finite float that is 1 or more. *)
Definition at_least_one (f : pyfloat) : bool :=
  match f with
  | FNum false m e =>
      if (0 <=? e)%Z then (0 <? m)%N else (2 ^ (- e) <=? Z.of_N m)%Z
  | _ => false
  end.

(** ** Vocabulary for whole batches *)

Definition shows (t : list event) : nat :=
  length (filter (fun e => match e with EvShow _ _ _ => true | _ => false end = true) t).

(** Events that are neither a request nor a pause. *)
Definition is_quiet (e : event) : Prop :=
  match e with
  | EvGet _ | EvSleep => False
  | _ => True
  end.

(** The object at [l] passes or fails the success test without raising. *)
Definition tagged (st : app) (l : loc) : Prop :=
  ∃ r, heap st !! l = Some r ∧ is_Some (is_success r).

(** Every cached address holds a result for its serial on which the
    success test is defined, as the results of [query_with_retry] are. *)
Definition cache_sound (st : app) : Prop :=
  cache_ok st ∧
  ∀ k l, dict_get k (query_cache st) = Some l → tagged st l.

Definition all_tagged (b : batch) : Prop :=
  (∀ k l, dict_get k (query_cache (bapp b)) = Some l → tagged (bapp b) l) ∧
  (∀ j l, futures b !! j = Some (Done (Some l)) → tagged (bapp b) l).

(** Every collected future has left its serial in the store or in the set
    of failed serials. *)
Definition accounted (serials : list string) (b : batch) : Prop :=
  ∀ j k, serials !! j = Some k → futures b !! j = Some Collected →
    dict_mem k (query_results (bapp b)) = true ∨ k ∈ failed_serials b.

Section FineSteps.
Context `{Formatter}.
Variable serials : list string.
Variable io : nat → write_outcome.

(** The steps of a batch whose results are in order: a worker step, or a
    completion that files the result in the store or among the failed. *)
Inductive step_ok (b : batch) : batch → Prop :=
| OkIdle :
    step_ok b b
| OkWorker b' :
    step_spec serials io b b' →
    query_results (bapp b') = query_results (bapp b) →
    failed_serials b' = failed_serials b →
    (∀ j, futures b' !! j = Some Collected → futures b !! j = Some Collected) →
    step_ok b b'
| OkStore i l r k :
    futures b !! i = Some (Done (Some l)) → serials !! i = Some k →
    heap (_update_result_display l (bapp b)) !! l = Some r →
    is_success r = Some true → serial r = JStr k →
    step_ok b
      (set_future i Collected
         (mkBatch (futures b) (S (completed b)) (failed_serials b)
            (checkpoint io (S (completed b))
               (set_results
                  (dict_set k l
                     (query_results (_update_result_display l (bapp b))))
                  (_update_result_display l (bapp b))))))
| OkFail i l r k :
    futures b !! i = Some (Done (Some l)) → serials !! i = Some k →
    heap (_update_result_display l (bapp b)) !! l = Some r →
    is_success r = Some false → serial r = JStr k →
    step_ok b
      (set_future i Collected
         (mkBatch (futures b) (S (completed b)) ({[k]} ∪ failed_serials b)
            (_update_result_display l (bapp b)))).
End FineSteps.

(** * Properties *)

#[local] Open Scope nat_scope.

Example int_examples :
  py_int (JStr " -5 ") = Some (-5)%Z /\ py_int (JStr "1_000") = Some 1000%Z /\
  py_int (JStr "5_") = None /\ py_int (JStr "") = None /\
  py_int (JStr "+07") = Some 7%Z /\ py_int (JStr "- 5") = None /\
  py_int JNull = None /\
  py_int (JStr (String "031" "5")) = None /\
  py_int (JStr (String "012" "5")) = Some 5%Z /\
  py_int (JStr "１２") = Some 12%Z /\
  py_int (JStr "　-٣") = Some (-3)%Z /\
  py_int (JStr "½") = None /\
  py_int (JFloat half) = Some 0%Z /\
  py_int (JFloat (FNum true 3 (-1))) = Some (-1)%Z /\
  py_int (JFloat (FNum false 5 2)) = Some 20%Z /\
  py_int (JFloat FNan) = None /\ py_int (JFloat (FInf false)) = None.
Proof. vm_compute. repeat split. Qed.

(** ** Dicts *)

Section Dict.
Context {A : Type}.
Implicit Types (d : list (string * A)) (k : string) (v : A).

Lemma dict_get_set_eq k v d : dict_get k (dict_set k v d) = Some v.
Proof.
  induction d as [|[k' v'] d IH]; simpl.
  - by rewrite String.eqb_refl.
  - destruct (String.eqb k k') eqn:E; simpl; rewrite ?String.eqb_refl, ?E; done.
Qed.

Lemma dict_get_set_ne k k' v d :
  k ≠ k' → dict_get k' (dict_set k v d) = dict_get k' d.
Proof.
  intros Hne. induction d as [|[k0 v0] d IH]; simpl.
  - destruct (String.eqb k' k) eqn:E; [|done].
    apply String.eqb_eq in E. congruence.
  - destruct (String.eqb k k0) eqn:E; simpl.
    + apply String.eqb_eq in E. subst k0.
      destruct (String.eqb k' k) eqn:E'; [|done].
      apply String.eqb_eq in E'. congruence.
    + by rewrite IH.
Qed.

Lemma dict_get_None k d : dict_get k d = None ↔ k ∉ dict_keys d.
Proof.
  unfold dict_keys. induction d as [|[k' v'] d IH]; csimpl.
  - split; [intros _; apply not_elem_of_nil | done].
  - rewrite not_elem_of_cons. destruct (String.eqb k k') eqn:E.
    + apply String.eqb_eq in E. split; [done | intros [? _]; done].
    + apply String.eqb_neq in E. rewrite IH. tauto.
Qed.

Lemma dict_get_elem k v d : dict_get k d = Some v → (k, v) ∈ d.
Proof.
  induction d as [|[k' v'] d IH]; simpl; [done|].
  destruct (String.eqb k k') eqn:E.
  - apply String.eqb_eq in E. intros [= ->]. subst. left.
  - intros ?. right. auto.
Qed.

Lemma dict_set_elem k v k' v' d :
  (k', v') ∈ dict_set k v d → (k', v') = (k, v) ∨ (k', v') ∈ d.
Proof.
  induction d as [|[k0 v0] d IH]; simpl.
  - intros ?%list_elem_of_singleton. by left.
  - destruct (String.eqb k k0).
    + intros [->|?]%elem_of_cons; [by left | right; by right].
    + intros [->|?]%elem_of_cons; [right; left|].
      destruct (IH H) as [?|?]; [by left | right; by right].
Qed.

Lemma dict_keys_set k v d :
  dict_keys (dict_set k v d) =
  if dict_mem k d then dict_keys d else dict_keys d ++ [k].
Proof.
  unfold dict_keys, dict_mem. induction d as [|[k' v'] d IH]; csimpl; [done|].
  destruct (String.eqb k k') eqn:E; csimpl.
  - apply String.eqb_eq in E. by subst.
  - rewrite IH. by destruct (dict_get k d).
Qed.

Lemma dict_set_fresh k v d :
  dict_get k d = None → dict_set k v d = d ++ [(k, v)].
Proof.
  induction d as [|[k' v'] d IH]; simpl; [done|].
  destruct (String.eqb k k'); [done|]. intros ?. by rewrite IH.
Qed.

Lemma dict_set_NoDup k v d :
  NoDup (dict_keys d) → NoDup (dict_keys (dict_set k v d)).
Proof.
  intros Hd. rewrite dict_keys_set. unfold dict_mem.
  destruct (dict_get k d) eqn:E; [done|].
  apply dict_get_None in E. apply NoDup_app. split_and!; [done| |].
  - intros x Hx ->%list_elem_of_singleton. done.
  - apply NoDup_singleton.
Qed.
End Dict.

(** ** The retry loop *)

Section FetcherFacts.
Context `{Formatter}.
Variables (resp : nat → response) (serial : string) (index total : Z).

Lemma log_retries_trace m st :
  trace (log_retries serial m st) =
  concat (replicate m [EvSleep; EvGet serial]) ++ trace st.
Proof.
  unfold log_retries. induction m as [|m IH]; simpl; [done|].
  by rewrite IH.
Qed.

Lemma log_retries_frame m st :
  heap (log_retries serial m st) = heap st ∧
  query_cache (log_retries serial m st) = query_cache st ∧
  query_results (log_retries serial m st) = query_results st ∧
  max_retries (log_retries serial m st) = max_retries st ∧
  results_file (log_retries serial m st) = results_file st.
Proof.
  unfold log_retries. induction m as [|m IH]; simpl; [done|]. apply IH.
Qed.

(** Attempts that fail below the limit only pause and go on. *)
Lemma fetch_loop_skip m : ∀ a extra st,
  (∀ n, a ≤ n < a + m → failure_reason (resp n) ≠ None) →
  a + m ≤ max_retries st →
  fetch_loop resp serial index total (seq a (m + extra)) st =
  fetch_loop resp serial index total (seq (a + m) extra)
    (log_retries serial m st).
Proof.
  induction m as [|m IH]; intros a extra st Hfail Hle.
  - by rewrite Nat.add_0_r.
  - cbn [Nat.add seq fetch_loop].
    assert (Ha : failure_reason (resp a) ≠ None) by (apply Hfail; lia).
    unfold failure_reason in Ha.
    assert (Hlt : (a <? max_retries (log (EvGet serial) st))%nat = true)
      by (apply Nat.ltb_lt; simpl; lia).
    destruct (attempt_of (resp a)); [done| |]; rewrite Hlt.
    all: rewrite IH by (first [intros; apply Hfail; lia | simpl; lia]).
    all: unfold log_retries; rewrite Nat.iter_succ_r.
    all: by replace (S a + m) with (a + S m) by lia.
Qed.

Lemma fetch_loop_last a msg st :
  a = max_retries st → failure_reason (resp a) = Some msg →
  fetch_loop resp serial index total [a] st =
  (Some (length (heap st)),
   mkApp (heap st ++ [new_result serial index total false (error_data msg) a])
         (query_cache st) (query_results st) (max_retries st)
         (results_file st) (EvGet serial :: trace st)).
Proof.
  intros -> Hmsg. unfold failure_reason in Hmsg. cbn [fetch_loop].
  assert (Hlt : (max_retries st <? max_retries (log (EvGet serial) st))%nat
                = false) by (apply Nat.ltb_ge; simpl; lia).
  destruct (attempt_of (resp (max_retries st))); [done| |]; rewrite Hlt.
  all: by injection Hmsg as <-.
Qed.

Lemma fetch_loop_ok a range doc st :
  attempt_of (resp a) = Ok200 doc →
  fetch_loop resp serial index total (a :: range) st =
  (Some (length (heap st)),
   mkApp (heap st ++ [new_result serial index total true doc a])
         (dict_set serial (length (heap st)) (query_cache st))
         (query_results st) (max_retries st)
         (results_file st) (EvGet serial :: trace st)).
Proof. intros Hok. cbn [fetch_loop]. by rewrite Hok. Qed.

(** The loop always leaves through a [return]. *)
Lemma fetch_loop_returns range : ∀ st,
  range ≠ [] → last range = Some (max_retries st) →
  is_Some (fetch_loop resp serial index total range st).1.
Proof.
  induction range as [|a range IH]; intros st Hne Hlast; [done|].
  cbn [fetch_loop].
  destruct range as [|b range].
  - injection Hlast as ->.
    assert (Hlt : (max_retries st <? max_retries (log (EvGet serial) st))%nat
                  = false) by (apply Nat.ltb_ge; simpl; lia).
    destruct (attempt_of _); rewrite ?Hlt; by eexists.
  - destruct (attempt_of _); [by eexists| |];
      (destruct (_ <? _)%nat; [apply IH; done | by eexists]).
Qed.
End FetcherFacts.

(** C7. When the serial is not cached and every one of the
    [max_retries + 1] attempts fails (an exception, or a decoded status
    other than 200), [query_with_retry] returns a new failure result: its
    ['error'] is the reason of the last attempt, its [retry_count] is
    [max_retries], and the cache, the store and the file are unchanged. *)
Theorem query_with_retry_exhausted `{Formatter} (resp : nat → response)
    (serial : string) (index total : Z) (st : app) :
  dict_get serial (query_cache st) = None →
  (∀ n, n ≤ max_retries st → failure_reason (resp n) ≠ None) →
  ∃ msg,
    failure_reason (resp (max_retries st)) = Some msg ∧
    query_with_retry resp serial index total st =
    (Some (length (heap st)),
     mkApp (heap st ++ [mkQueryResult (JStr serial) (JInt index) (JInt total)
                          (JBool false) (error_data msg)
                          (JInt (Z.of_nat (max_retries st)))
                          (JInt 0) (JInt 0) (JInt 0)])
           (query_cache st) (query_results st) (max_retries st)
           (results_file st)
           (EvGet serial ::
            concat (replicate (max_retries st) [EvSleep; EvGet serial]) ++
            trace st)).
Proof.
  intros Hmiss Hfail. unfold query_with_retry. rewrite Hmiss.
  destruct (failure_reason (resp (max_retries st))) as [msg|] eqn:Hmsg;
    [|by destruct (Hfail (max_retries st))].
  exists msg. split; [done|].
  rewrite (fetch_loop_skip resp serial index total (max_retries st) 0 1 st)
    by (first [intros; apply Hfail; lia | lia]).
  pose proof (log_retries_frame serial (max_retries st) st)
    as (Hh & Hc & Hr & Hm & Hf).
  cbn [Nat.add seq].
  rewrite (fetch_loop_last resp serial index total _ msg) by (by rewrite ?Hm).
  by rewrite Hh, Hc, Hr, Hm, Hf, log_retries_trace.
Qed.

Lemma query_with_retry_exhausted_witness :
  ∃ msg,
    failure_reason (timeout) = Some msg ∧
    query_with_retry (λ _, timeout) "ABCDEFGH12" 1 1 (initial NoFile) =
    (Some 0,
     mkApp [mkQueryResult (JStr "ABCDEFGH12") (JInt 1) (JInt 1) (JBool false)
              (error_data msg) (JInt 2) (JInt 0) (JInt 0) (JInt 0)]
           [] [] 2 NoFile
           [EvGet "ABCDEFGH12"; EvSleep; EvGet "ABCDEFGH12"; EvSleep;
            EvGet "ABCDEFGH12"]).
Proof.
  apply (query_with_retry_exhausted (λ _, timeout) "ABCDEFGH12" 1 1
           (initial NoFile)).
  - reflexivity.
  - intros n _. discriminate.
Defined.

(** Three answers with status 500: the failure carries the last status. *)
Example exhausted_by_status :
  (λ out, (out.1, heap out.2 !! 0))
    (query_with_retry (λ _, busy) "ABCDEFGH12" 1 1 (initial NoFile)) =
  (Some 0,
   Some (mkQueryResult (JStr "ABCDEFGH12") (JInt 1) (JInt 1) (JBool false)
           (error_data "API返回状态码错误: 500") (JInt 2)
           (JInt 0) (JInt 0) (JInt 0))).
Proof. vm_compute. reflexivity. Qed.

(** C2 as the specification words it fails: a result that needed one retry
    is cached with [retry_count = 1], and that is what a hit reports. *)
Lemma cache_hit_claim_fails : ¬ cache_hit_claim "ABCDEFGH12" after_second_try.
Proof.
  intros Hclaim.
  destruct (Hclaim 0
              (mkQueryResult (JStr "ABCDEFGH12") (JInt 3) (JInt 7) (JBool true)
                 (payload [("warranty", JList [entry 30])])
                 (JInt 1) (JInt 0) (JInt 0) (JInt 0))
              eq_refl eq_refl eq_refl (λ _, timeout) 1%Z 1%Z)
    as (l' & st' & r' & Hq & _ & _ & Hr & Hcount).
  vm_compute in Hq. injection Hq as <- <-.
  vm_compute in Hr. injection Hr as <-. discriminate Hcount.
Qed.

(** C2, amended. A call that finds the serial at attempt [k] caches a
    result with [retry_count = k]; every later call for that serial, in
    any state where the cache still binds it, returns that same object and
    leaves the state, hence the trace, as it is: no network call and no
    pause. *)
Theorem cache_hit_returns_cached `{Formatter} (resp resp' : nat → response)
    (serial : string) (index total index' total' : Z) (k : nat) (doc : json)
    (st : app) :
  dict_get serial (query_cache st) = None →
  (∀ n, n < k → failure_reason (resp n) ≠ None) →
  attempt_of (resp k) = Ok200 doc →
  k ≤ max_retries st →
  ∃ l st1 r,
    query_with_retry resp serial index total st = (Some l, st1) ∧
    dict_get serial (query_cache st1) = Some l ∧
    heap st1 !! l = Some r ∧
    success r = JBool true ∧ data r = doc ∧
    retry_count r = JInt (Z.of_nat k) ∧
    ∀ st2, dict_get serial (query_cache st2) = Some l →
           query_with_retry resp' serial index' total' st2 = (Some l, st2).
Proof.
  intros Hmiss Hfail Hok Hk.
  pose proof (log_retries_frame serial k st) as (Hh & Hc & Hr & Hm & Hf).
  eexists _, _, _. split.
  { unfold query_with_retry. rewrite Hmiss.
    replace (max_retries st + 1) with (k + S (max_retries st - k)) by lia.
    rewrite (fetch_loop_skip resp serial index total k 0) by
      (first [intros; apply Hfail; lia | lia]).
    cbn [Nat.add seq]. by rewrite (fetch_loop_ok resp serial index total k _ doc). }
  cbn [query_cache heap]. split; [apply dict_get_set_eq|].
  split; [apply list_lookup_middle; done|].
  split_and!; try done.
  intros st2 Hhit. unfold query_with_retry. by rewrite Hhit.
Qed.

Lemma cache_hit_returns_cached_witness :
  ∃ l st1 r,
    query_with_retry second_try "ABCDEFGH12" 3 7 (initial NoFile)
      = (Some l, st1) ∧
    dict_get "ABCDEFGH12" (query_cache st1) = Some l ∧
    heap st1 !! l = Some r ∧
    success r = JBool true ∧
    data r = payload [("warranty", JList [entry 30])] ∧
    retry_count r = JInt 1 ∧
    ∀ st2, dict_get "ABCDEFGH12" (query_cache st2) = Some l →
           query_with_retry (λ _, timeout) "ABCDEFGH12" 1 1 st2 = (Some l, st2).
Proof.
  apply (cache_hit_returns_cached second_try (λ _, timeout) "ABCDEFGH12"
           3 7 1 1 1 (payload [("warranty", JList [entry 30])])
           (initial NoFile)).
  - reflexivity.
  - intros n Hn. assert (n = 0) as -> by lia. discriminate.
  - reflexivity.
  - simpl. lia.
Defined.


(** ** Frames of the methods *)

Lemma attempt_ok_success (r : response) (doc : json) serial index total n :
  attempt_of r = Ok200 doc →
  is_success (new_result serial index total true doc n) = Some true.
Proof.
  unfold attempt_of, is_success. destruct r as [msg|d]; [done|]. simpl.
  destruct (py_getitem d "statusCode") as [|status] eqn:E; [done|].
  destruct (py_eq_int status 200) eqn:E'; [|done].
  intros [= <-]. by rewrite E, E'.
Qed.

Section FetcherFrame.
Context `{Formatter}.
Variables (resp : nat → response) (serial : string) (index total : Z).

Lemma fetch_loop_spec range : ∀ st,
  fetch_result serial index total st
    (fetch_loop resp serial index total range st).1
    (fetch_loop resp serial index total range st).2.
Proof.
  assert (Hgo : ∀ st evs res st',
    Forall is_fetch_event evs →
    fetch_result serial index total
      (mkApp (heap st) (query_cache st) (query_results st) (max_retries st)
             (results_file st) (evs ++ trace st)) res st' →
    fetch_result serial index total st res st').
  { intros st evs res st' Hevs Hres. inversion Hres as [e He|e d n He Hd|e m n He];
      simpl in *; subst; rewrite app_assoc;
      constructor; try done; by apply Forall_app. }
  induction range as [|a range IH]; intros st.
  - destruct st as [h c s m f t].
    apply (FetchFalls _ _ _ (mkApp h c s m f t) []). constructor.
  - cbn [fetch_loop].
    destruct (attempt_of (resp a)) as [doc|status|msg] eqn:Hatt.
    + apply (FetchFound _ _ _ st [EvGet serial] doc a); [by repeat constructor|].
      by eapply attempt_ok_success.
    + destruct (_ <? _).
      * apply (Hgo st [EvSleep; EvGet serial]); [by repeat constructor|apply IH].
      * apply (FetchFailed _ _ _ st [EvGet serial]). by repeat constructor.
    + destruct (_ <? _).
      * apply (Hgo st [EvSleep; EvGet serial]); [by repeat constructor|apply IH].
      * apply (FetchFailed _ _ _ st [EvGet serial]). by repeat constructor.
Qed.

(** The loop does not look at the store or the file. *)
Lemma fetch_loop_store_blind store f range : ∀ st,
  fetch_loop resp serial index total range (set_file f (set_results store st))
  = ((fetch_loop resp serial index total range st).1,
     set_file f (set_results store
                   (fetch_loop resp serial index total range st).2)).
Proof.
  induction range as [|a range IH]; intros st; [done|].
  cbn [fetch_loop]. destruct (attempt_of (resp a)); [done| |].
  all: change (max_retries (log (EvGet serial)
                              (set_file f (set_results store st))))
         with (max_retries (log (EvGet serial) st)).
  all: destruct (_ <? _); [|done].
  all: apply (IH (log EvSleep (log (EvGet serial) st))).
Qed.
End FetcherFrame.

Lemma display_frame (l : loc) (st : app) :
  query_cache (_update_result_display l st) = query_cache st ∧
  query_results (_update_result_display l st) = query_results st ∧
  max_retries (_update_result_display l st) = max_retries st ∧
  results_file (_update_result_display l st) = results_file st ∧
  length (heap (_update_result_display l st)) = length (heap st).
Proof.
  unfold _update_result_display.
  repeat case_match; simpl; rewrite ?length_insert; done.
Qed.

(** The display assigns the three counters of the displayed object and
    nothing else in the heap. *)
Lemma display_heap (l l' : loc) (r : QueryResult) (st : app) :
  heap st !! l' = Some r →
  ∃ r', heap (_update_result_display l st) !! l' = Some r' ∧
        same_core r r' ∧ (l' ≠ l → r' = r).
Proof.
  intros Hl'. unfold _update_result_display.
  destruct (heap st !! l) as [r0|] eqn:Hl; [|by exists r].
  repeat case_match; simpl; try by exists r.
  destruct (decide (l' = l)) as [->|Hne].
  - rewrite list_lookup_insert_eq by (by eapply lookup_lt_Some).
    eexists. split; [done|]. split; [|done].
    assert (r0 = r) as -> by congruence. done.
  - rewrite list_lookup_insert_ne by done. by exists r.
Qed.

Lemma save_results_frame (o : write_outcome) (st : app) :
  heap (save_results o st) = heap st ∧
  query_cache (save_results o st) = query_cache st ∧
  query_results (save_results o st) = query_results st ∧
  max_retries (save_results o st) = max_retries st.
Proof. unfold save_results. repeat case_match; done. Qed.

Lemma handle_completion_cache (io : nat → write_outcome) (res : option loc)
    (b : batch) :
  query_cache (bapp (handle_completion io res b)) = query_cache (bapp b).
Proof.
  unfold handle_completion, update_result_text.
  destruct res as [l|]; [|done].
  pose proof (display_frame l (bapp b)) as (Hc & _).
  destruct (_ ≫= _) as [[[] k]|]; simpl; try done.
  case_match; simpl; [|done].
  by destruct (save_results_frame (io (S (completed b)))
                 (set_results (dict_set k l
                    (query_results (_update_result_display l (bapp b))))
                    (_update_result_display l (bapp b)))) as (_ & -> & _).
Qed.

(** Workers leave the store and the file alone; the completion loop
    leaves the cache alone. *)
Lemma step_frame `{Formatter} (serials : list string)
    (net : nat → nat → response) (io : nat → write_outcome)
    (b : batch) (a : action) :
  match a with
  | Collect _ =>
      query_cache (bapp (step serials net io b a)) = query_cache (bapp b)
  | _ =>
      query_results (bapp (step serials net io b a)) = query_results (bapp b) ∧
      results_file (bapp (step serials net io b a)) = results_file (bapp b)
  end.
Proof.
  destruct a as [i|i|i]; simpl.
  - destruct (futures b !! i) as [[| |?|]|]; try done.
    destruct (serials !! i); [|done]. destruct (can_begin _ _); [|done].
    by destruct (dict_get _ _).
  - destruct (futures b !! i) as [[| |?|]|]; try done.
    destruct (serials !! i) as [serial|]; [|done].
    pose proof (fetch_loop_spec (net i) serial (Z.of_nat (S i))
                  (Z.of_nat (length serials))
                  (seq 0 (max_retries (bapp b) + 1)) (bapp b)) as Hf.
    destruct (fetch_loop _ _ _ _ _ _) as [res st']. simpl in *.
    by inversion Hf.
  - destruct (futures b !! i) as [[| |?|]|]; try done.
    simpl. apply handle_completion_cache.
Qed.

(** C1 as the specification words it fails: a successful call writes the
    new result into the cache. *)
Lemma fetcher_pure_claim_fails :
  ¬ fetcher_pure_claim (λ _, found 30) "ABCDEFGH12" 1 1 (initial NoFile).
Proof. intros [Hcache _]. vm_compute in Hcache. discriminate Hcache. Qed.

(** C1, amended. [query_with_retry] never reads or writes the store or the
    result file and leaves every existing object as it is; it does consult
    the cache, and a successful lookup binds the serial in it.  In a batch
    the store and the file change only in the completion loop, which in
    turn never writes the cache. *)
Theorem fetcher_frame `{Formatter} (resp : nat → response) (serial : string)
    (index total : Z) (st : app)
    (serials : list string) (net : nat → nat → response)
    (io : nat → write_outcome) (b : batch) (a : action) :
  let out := query_with_retry resp serial index total st in
  query_results out.2 = query_results st ∧
  results_file out.2 = results_file st ∧
  (∃ new, heap out.2 = heap st ++ new) ∧
  (query_cache out.2 = query_cache st ∨
   ∃ l, out.1 = Some l ∧ l = length (heap st) ∧
        query_cache out.2 = dict_set serial l (query_cache st)) ∧
  (∀ store f,
     query_with_retry resp serial index total (set_file f (set_results store st))
     = (out.1, set_file f (set_results store out.2))) ∧
  match a with
  | Collect _ =>
      query_cache (bapp (step serials net io b a)) = query_cache (bapp b)
  | _ =>
      query_results (bapp (step serials net io b a)) = query_results (bapp b) ∧
      results_file (bapp (step serials net io b a)) = results_file (bapp b)
  end.
Proof.
  intros out. subst out.
  assert (Hfetch := fetch_loop_spec resp serial index total
                      (seq 0 (max_retries st + 1)) st).
  assert (Hblind := λ store f, fetch_loop_store_blind resp serial index total
                      store f (seq 0 (max_retries st + 1)) st).
  unfold query_with_retry.
  change (query_cache (set_file ?f (set_results ?s st))) with (query_cache st).
  change (max_retries (set_file ?f (set_results ?s st))) with (max_retries st).
  destruct (dict_get serial (query_cache st)) as [l|] eqn:Hget.
  - simpl. split_and!; try done.
    + exists []. by rewrite app_nil_r.
    + by left.
    + apply step_frame.
  - split_and!.
    + inversion Hfetch; done.
    + inversion Hfetch; done.
    + inversion Hfetch; simpl; [exists []; by rewrite app_nil_r|by eexists..].
    + inversion Hfetch; simpl; [by left|right; by eexists|by left].
    + intros store f. apply Hblind.
    + apply step_frame.
Qed.

(** ** The service counters *)

Lemma count_valid_app (d1 d2 : list Z) :
  count_valid (d1 ++ d2) = (count_valid d1 + count_valid d2)%Z.
Proof. unfold count_valid. rewrite filter_app, length_app. lia. Qed.

Lemma count_expired_app (d1 d2 : list Z) :
  count_expired (d1 ++ d2) = (count_expired d1 + count_expired d2)%Z.
Proof. unfold count_expired. rewrite filter_app, length_app. lia. Qed.

Lemma count_items_spec (items : list json) : ∀ (days : list Z) (v e : Z),
  mapM days_remaining items = Some days →
  count_items items v e = Some (v + count_valid days, e + count_expired days)%Z.
Proof.
  induction items as [|item items IH]; intros days v e Hdays.
  - injection Hdays as <-. simpl. do 2 f_equal; unfold count_valid, count_expired;
      simpl; lia.
  - apply mapM_Some in Hdays.
    apply Forall2_cons_inv_l in Hdays as (d & days' & Hd & Hrest & ->).
    apply mapM_Some in Hrest.
    destruct item as [| | | | | |fields]; try done.
    simpl in Hd. cbn [count_items py_get]. simpl. rewrite Hd. simpl.
    change (d :: days') with ([d] ++ days').
    rewrite count_valid_app, count_expired_app.
    rewrite Z.gtb_ltb.
    destruct (Z.ltb_spec 0 d); rewrite (IH days') by done; do 2 f_equal.
    all: unfold count_valid, count_expired.
    all: rewrite filter_cons, filter_nil; case_decide; simpl; lia.
Qed.

Lemma count_services_spec (groups : list (string * json)) (types : list string) :
  ∀ (itemss : list (list json)) (days : list Z) (v e : Z),
  mapM (group_items groups) types = Some itemss →
  mapM days_remaining (concat itemss) = Some days →
  count_services (JObj groups) types v e
  = Some (v + count_valid days, e + count_expired days)%Z.
Proof.
  induction types as [|tag types IH]; intros itemss days v e Hgroups Hdays.
  - injection Hgroups as <-. injection Hdays as <-. simpl.
    do 2 f_equal; unfold count_valid, count_expired; simpl; lia.
  - apply mapM_Some in Hgroups.
    apply Forall2_cons_inv_l in Hgroups as (items & itemss' & Hg & Hrest & ->).
    apply mapM_Some in Hrest. simpl in Hdays.
    apply mapM_Some in Hdays.
    apply Forall2_app_inv_l in Hdays as (d1 & d2 & H1 & H2 & ->).
    apply mapM_Some in H1, H2.
    rewrite count_valid_app, count_expired_app.
    cbn [count_services py_contains]. unfold dict_mem, group_items in *.
    simpl. destruct (dict_get tag groups) as [g|] eqn:Hget; simpl.
    + destruct g; try done. injection Hg as ->. simpl.
      rewrite (count_items_spec items d1) by done. simpl.
      rewrite (IH itemss' d2) by done. do 2 f_equal; lia.
    + injection Hg as <-. injection H1 as <-.
      rewrite (IH itemss' d2) by done.
      do 2 f_equal; unfold count_valid, count_expired; simpl; lia.
Qed.

Lemma service_counts_spec (data : json) (days : list Z) :
  payload_days data = Some days →
  service_counts data = Some (count_valid days, count_expired days).
Proof.
  unfold payload_days, service_counts. generalize service_types as types.
  intros types.
  destruct data as [| | | | | |top]; try done. simpl.
  destruct (dict_get "data" top) as [[| | | | | |d]|]; try done. simpl.
  destruct (dict_get "detailinfo" d) as [[| | | | | |groups]|]; try done; simpl.
  - destruct (mapM (group_items groups) types) as [itemss|] eqn:Hg;
      simpl; [|done].
    intros Hdays.
    by rewrite (count_services_spec groups types itemss days).
  - destruct (mapM (group_items []) types) as [itemss|] eqn:Hg;
      simpl; [|done].
    intros Hdays.
    by rewrite (count_services_spec [] types itemss days).
Qed.




(** ** The result file *)

Lemma from_dict_to_dict (r : QueryResult) : from_dict (to_dict r) = Some r.
Proof. by destruct r. Qed.

Lemma dict_elem_get {A : Type} (k : string) (v : A) (d : list (string * A)) :
  NoDup (dict_keys d) → (k, v) ∈ d → dict_get k d = Some v.
Proof.
  unfold dict_keys. induction d as [|[k' v'] d IH]; csimpl; [by intros _ ?%elem_of_nil|].
  intros [Hk' Hd]%NoDup_cons [[= -> ->]|Hin]%elem_of_cons.
  - by rewrite String.eqb_refl.
  - destruct (String.eqb k k') eqn:E; [|by apply IH].
    apply String.eqb_eq in E. subst k'. destruct Hk'.
    apply list_elem_of_fmap. by exists (k, v).
Qed.

Lemma load_entries_frame (entries : list (string * json)) : ∀ st,
  query_cache (load_entries entries st) = query_cache st ∧
  max_retries (load_entries entries st) = max_retries st ∧
  results_file (load_entries entries st) = results_file st ∧
  trace (load_entries entries st) = trace st.
Proof.
  induction entries as [|[k e] entries IH]; intros st; [done|]. simpl.
  destruct (from_dict e); [|done].
  match goal with |- context [load_entries entries ?s] => apply (IH s) end.
Qed.

(** Loading readable entries under fresh keys appends one object and one
    binding per entry. *)
Lemma load_entries_spec (entries : list (string * json)) :
  ∀ (rs : list QueryResult) (st : app),
  Forall2 (λ e r, from_dict e.2 = Some r) entries rs →
  NoDup (dict_keys (query_results st) ++ entries.*1) →
  heap (load_entries entries st) = heap st ++ rs ∧
  query_results (load_entries entries st) =
    query_results st ++ zip (entries.*1) (seq (length (heap st)) (length entries)).
Proof.
  induction entries as [|[k e] entries IH]; intros rs st Hrs Hnd.
  - apply Forall2_nil_inv_l in Hrs as ->. simpl. by rewrite !app_nil_r.
  - apply Forall2_cons_inv_l in Hrs as (r & rs' & Hr & Hrs & ->).
    simpl in Hr. cbn [load_entries]. rewrite Hr. cbn [alloc].
    assert (Hfresh : dict_get k (query_results st) = None).
    { apply dict_get_None. intros Hin. csimpl in Hnd.
      apply NoDup_app in Hnd as (_ & Hdis & _). apply (Hdis k Hin). left. }
    match goal with |- context [load_entries entries ?s] => set (st1 := s) end.
    assert (Hnd1 : NoDup (dict_keys (query_results st1) ++ entries.*1)).
    { subst st1. cbn [query_results set_results set_heap].
      rewrite dict_set_fresh by done.
      unfold dict_keys in *. rewrite fmap_app, <-app_assoc. done. }
    destruct (IH rs' st1 Hrs Hnd1) as [Hh Hs]. rewrite Hh, Hs. subst st1.
    cbn [query_results heap set_results set_heap].
    rewrite dict_set_fresh by done. rewrite length_app. csimpl.
    rewrite <-!app_assoc. split; [done|].
    by rewrite Nat.add_1_r.
Qed.

(** The first entry that cannot be turned into a result ends the loop. *)
Lemma load_entries_stop (pre post : list (string * json)) (k : string)
    (bad : json) : ∀ st,
  from_dict bad = None →
  load_entries (pre ++ (k, bad) :: post) st = load_entries pre st.
Proof.
  intros st Hbad. revert st.
  induction pre as [|[k' e] pre IH]; intros st; simpl.
  - by rewrite Hbad.
  - destruct (from_dict e); [|done]. apply IH.
Qed.

Lemma load_entries_keys (entries : list (string * json)) : ∀ st k,
  Forall readable entries →
  dict_mem k (query_results (load_entries entries st)) = true ↔
  dict_mem k (query_results st) = true ∨ k ∈ entries.*1.
Proof.
  induction entries as [|[k' e] entries IH]; intros st k Hok; csimpl.
  - rewrite elem_of_nil. tauto.
  - apply Forall_cons in Hok as [[r Hr] Hok]. simpl in Hr. rewrite Hr.
    cbn [alloc]. rewrite (IH _ k Hok). cbn [query_results set_results set_heap].
    rewrite elem_of_cons. unfold dict_mem.
    destruct (decide (k = k')) as [->|Hne].
    + rewrite dict_get_set_eq. tauto.
    + rewrite dict_get_set_ne by done. tauto.
Qed.

Lemma serializable_live (st : app) :
  store_live st →
  ∃ rs, Forall2 (λ (kl : string * loc) r, heap st !! kl.2 = Some r)
          (query_results st) rs ∧
        serializable_results st =
        Some (zip_with (λ (kl : string * loc) r, (kl.1, to_dict r))
                (query_results st) rs).
Proof.
  unfold store_live, serializable_results.
  induction (query_results st) as [|[k l] store IH]; intros Hlive.
  - by exists [].
  - apply Forall_cons in Hlive as [[r Hr] Hlive].
    destruct (IH Hlive) as (rs & HF & Heq). exists (r :: rs). split.
    + by constructor.
    + simpl in *. rewrite Hr. simpl. by rewrite Heq.
Qed.

Lemma document_shape (h : list QueryResult) (store : list (string * loc))
    (rs : list QueryResult) :
  Forall2 (λ (kl : string * loc) r, h !! kl.2 = Some r) store rs →
  let doc := zip_with (λ (kl : string * loc) r, (kl.1, to_dict r)) store rs in
  doc.*1 = store.*1 ∧
  Forall2 (λ (e : string * json) r, from_dict e.2 = Some r) doc rs.
Proof.
  induction 1 as [|[k l] r store rs Hr HF [IH1 IH2]]; csimpl; [done|].
  split; [by f_equal|]. constructor; [apply from_dict_to_dict | done].
Qed.

(** C9. A state whose file is the one that [save_results] wrote from the
    store of [st] (the same run later on, or a new run of the program,
    whatever its store holds) gets from [load_previous_results] a store with
    the identifiers of [st]'s store in the same order, each bound to an
    object that the load creates and whose nine fields are those of the
    object that was saved. *)
Theorem save_load_roundtrip (st st2 : app) :
  NoDup (dict_keys (query_results st)) →
  store_live st →
  results_file st2 = results_file (save_results Written st) →
  let st' := load_previous_results st2 in
  dict_keys (query_results st') = dict_keys (query_results st) ∧
  ∀ k l r, dict_get k (query_results st) = Some l → heap st !! l = Some r →
    ∃ l', dict_get k (query_results st') = Some l' ∧
          length (heap st2) ≤ l' ∧ heap st' !! l' = Some r.
Proof.
  intros Hnd Hlive Hfile.
  destruct (serializable_live st Hlive) as (rs & HF & Hser).
  destruct (document_shape _ _ _ HF) as [Hkeys Hread].
  unfold save_results in Hfile. rewrite Hser in Hfile.
  set (doc := zip_with _ _ _) in *.
  cbn [results_file set_file log] in Hfile.
  unfold load_previous_results. cbn [results_file set_results]. rewrite Hfile.
  destruct (load_entries_spec doc rs (set_results [] st2) Hread) as [Hh Hs].
  { cbn [query_results set_results]. unfold dict_keys in *. csimpl.
    by rewrite Hkeys. }
  cbn [query_results heap set_results] in Hh, Hs. csimpl in Hs.
  assert (Hlen : length doc = length (query_results st)).
  { by rewrite <-(length_fmap fst doc), Hkeys, length_fmap. }
  cbv zeta. rewrite Hh, Hs, Hkeys, Hlen. unfold dict_keys in *.
  split.
  { apply fst_zip. by rewrite length_seq, length_fmap. }
  intros k l r Hget Hl.
  apply dict_get_elem in Hget.
  apply list_elem_of_lookup in Hget as [i Hi].
  destruct (Forall2_lookup_l _ _ _ _ _ HF Hi) as (r' & Hri & Hr').
  simpl in Hr'. assert (r' = r) as -> by congruence.
  exists (length (heap st2) + i). split_and!.
  - apply dict_elem_get.
    + unfold dict_keys. rewrite fst_zip; [done|].
      by rewrite length_seq, length_fmap.
    + apply list_elem_of_lookup. exists i.
      apply lookup_zip_with_Some. exists k, (length (heap st2) + i).
      split_and!; [done| |].
      * by rewrite list_lookup_fmap, Hi.
      * apply lookup_seq. split; [done|]. by eapply lookup_lt_Some.
  - lia.
  - rewrite lookup_app_r by lia.
    by replace (length (heap st2) + i - length (heap st2)) with i by lia.
Qed.

Lemma save_load_roundtrip_witness :
  let st := set_results [("ABCDEFGH12", 0)] after_second_try in
  let st' := load_previous_results
               (initial (results_file (save_results Written st))) in
  dict_keys (query_results st') = ["ABCDEFGH12"] ∧
  ∀ k l r, dict_get k [("ABCDEFGH12", 0)] = Some l → heap st !! l = Some r →
    ∃ l', dict_get k (query_results st') = Some l' ∧
          0 ≤ l' ∧ heap st' !! l' = Some r.
Proof.
  apply (save_load_roundtrip (set_results [("ABCDEFGH12", 0)] after_second_try)
           (initial (results_file
                       (save_results Written
                          (set_results [("ABCDEFGH12", 0)] after_second_try))))).
  - apply NoDup_singleton.
  - repeat constructor. by eexists.
  - reflexivity.
Defined.

Lemma load_entries_file_blind (entries : list (string * json)) (f : file) :
  ∀ st, load_entries entries (set_file f st) = set_file f (load_entries entries st).
Proof.
  induction entries as [|[k e] entries IH]; intros st; [done|]. simpl.
  destruct (from_dict e); [|done].
  match goal with |- _ = set_file f (load_entries entries ?s) =>
    apply (IH s) end.
Qed.

(** C5 as the specification words it fails: the entry after the damaged
    one is readable and is not loaded. *)
Lemma load_skips_claim_fails :
  ¬ load_skips_claim damaged_document (initial NoFile).
Proof.
  intros Hclaim.
  specialize (Hclaim "CCCCCCCC" (stored "CCCCCCCC")).
  assert (Hin : ("CCCCCCCC", stored "CCCCCCCC") ∈ damaged_document)
    by (unfold damaged_document; set_solver).
  specialize (Hclaim Hin (ex_intro _ _ eq_refl)).
  vm_compute in Hclaim. discriminate Hclaim.
Qed.

(** C5, amended. [load_previous_results] is total.  With no file, or a
    file that cannot be decoded, the store is empty.  With a document whose
    entries before [(k, bad)] are readable and whose entry [bad] is not, the
    store and the heap are those obtained from the entries before it alone:
    these are loaded, [bad] and every entry after it are not. *)
Theorem load_stops_at_unreadable (st : app)
    (pre post : list (string * json)) (k : string) (bad : json) :
  Forall readable pre →
  from_dict bad = None →
  query_results (load_previous_results (set_file NoFile st)) = [] ∧
  query_results (load_previous_results (set_file Unreadable st)) = [] ∧
  let st' := load_previous_results
               (set_file (Doc (JObj (pre ++ (k, bad) :: post))) st) in
  let st_pre := load_previous_results (set_file (Doc (JObj pre)) st) in
  query_results st' = query_results st_pre ∧
  heap st' = heap st_pre ∧
  ∀ k', dict_mem k' (query_results st') = true ↔ k' ∈ pre.*1.
Proof.
  intros Hpre Hbad. split; [done|]. split; [done|].
  unfold load_previous_results. cbn [results_file set_results set_file].
  rewrite (load_entries_stop pre post k bad) by done.
  change (set_results [] (set_file ?f st)) with (set_file f (set_results [] st)).
  rewrite !load_entries_file_blind.
  split; [done|]. split; [done|].
  intros k'. cbn [query_results set_file].
  rewrite (load_entries_keys pre (set_results [] st) k' Hpre).
  cbn [query_results set_results]. unfold dict_mem. simpl.
  split; [by intros [?|?] | by right].
Qed.

Lemma load_stops_at_unreadable_witness :
  let st' := load_previous_results
               (set_file (Doc (JObj damaged_document)) (initial NoFile)) in
  query_results (load_previous_results (set_file NoFile (initial NoFile))) = [] ∧
  query_results (load_previous_results (set_file Unreadable (initial NoFile)))
    = [] ∧
  query_results st' = [("AAAAAAAA", 0)] ∧
  heap st' = [new_result "AAAAAAAA" 1 1 true (payload []) 0] ∧
  ∀ k', dict_mem k' (query_results st') = true ↔ k' ∈ ["AAAAAAAA"].
Proof.
  apply (load_stops_at_unreadable (initial NoFile)
           [("AAAAAAAA", stored "AAAAAAAA")]
           [("CCCCCCCC", stored "CCCCCCCC")]
           "BBBBBBBB" (JObj [("index", JInt 2)])).
  - repeat constructor. by eexists.
  - reflexivity.
Defined.

(** ** Steps of a batch *)

Section StepFacts.
Context `{Formatter}.
Variable serials : list string.
Variable net : nat → nat → response.
Variable io : nat → write_outcome.

Lemma step_cases (b : batch) (a : action) :
  step_spec serials io b (step serials net io b a).
Proof.
  destruct a as [i|i|i]; simpl.
  - destruct (futures b !! i) as [[| |?|]|] eqn:Hf; try apply StepIdle.
    destruct (serials !! i) as [serial|] eqn:Hs; [|apply StepIdle].
    destruct (can_begin _ _); [|apply StepIdle].
    destruct (dict_get _ _) eqn:Hc.
    + by eapply StepHit.
    + by eapply StepMiss.
  - destruct (futures b !! i) as [[| |?|]|] eqn:Hf; try apply StepIdle.
    destruct (serials !! i) as [serial|] eqn:Hs; [|apply StepIdle].
    pose proof (fetch_loop_spec (net i) serial (Z.of_nat (S i))
                  (Z.of_nat (length serials))
                  (seq 0 (max_retries (bapp b) + 1)) (bapp b)) as Hspec.
    destruct (fetch_loop_returns (net i) serial (Z.of_nat (S i))
                (Z.of_nat (length serials))
                (seq 0 (max_retries (bapp b) + 1)) (bapp b)) as [l Hl].
    { by rewrite Nat.add_1_r. }
    { rewrite Nat.add_1_r, seq_S. apply last_snoc. }
    destruct (fetch_loop _ _ _ _ _ _) as [res st']. simpl in Hl. subst res.
    by eapply StepFetch.
  - destruct (futures b !! i) as [[| |[l|]|]|] eqn:Hf; try apply StepIdle.
    + unfold handle_completion, update_result_text.
      destruct (heap (_update_result_display l (bapp b)) !! l) as [r|] eqn:Hr;
        simpl; [|by apply StepCollectRaise].
      destruct (is_success r) as [ok|] eqn:Hok;
        simpl; [|by apply StepCollectRaise].
      destruct (serial r) as [| | | |k| |] eqn:Hk;
        simpl; try by apply StepCollectRaise.
      destruct ok.
      * by eapply StepCollectStore.
      * by eapply StepCollectFail.
    + by apply StepCollectNone.
Qed.

(** A property of the submitted batch that every step keeps holds after
    any schedule. *)
Lemma run_invariant (P : batch → Prop) (st : app) :
  P (submitted serials st) →
  (∀ b b', P b → step_spec serials io b b' → P b') →
  ∀ schedule, P (run serials net io schedule st).
Proof.
  intros Hinit Hstep schedule. unfold run.
  generalize dependent (submitted serials st).
  induction schedule as [|a schedule IH]; intros b Hb; [done|].
  simpl. apply IH. eapply Hstep; [done|]. apply step_cases.
Qed.
End StepFacts.

(** ** Objects are kept *)

Lemma same_core_refl (r : QueryResult) : same_core r r.
Proof. by repeat split. Qed.

Lemma same_core_trans (r1 r2 r3 : QueryResult) :
  same_core r1 r2 → same_core r2 r3 → same_core r1 r3.
Proof.
  unfold same_core. intros (?&?&?&?&?&?) (?&?&?&?&?&?).
  split_and!; etrans; done.
Qed.

Lemma same_core_success (r r' : QueryResult) :
  same_core r r' → is_success r' = is_success r.
Proof.
  unfold same_core, is_success. intros (_ & _ & _ & Hs & Hd & _).
  by rewrite Hs, Hd.
Qed.

Lemma extends_refl (st : app) : extends st st.
Proof. intros l r Hl. exists r. split; [done|apply same_core_refl]. Qed.

Lemma extends_trans (st1 st2 st3 : app) :
  extends st1 st2 → extends st2 st3 → extends st1 st3.
Proof.
  intros H12 H23 l r Hl. destruct (H12 l r Hl) as (r2 & Hl2 & Hc2).
  destruct (H23 l r2 Hl2) as (r3 & Hl3 & Hc3). exists r3.
  split; [done|]. by eapply same_core_trans.
Qed.

(** A state with the same heap, or with objects appended to it. *)
Lemma extends_app (st st' : app) (new : list QueryResult) :
  heap st' = heap st ++ new → extends st st'.
Proof.
  intros Hh l r Hl. exists r. rewrite Hh.
  split; [by apply lookup_app_l_Some | apply same_core_refl].
Qed.

Lemma extends_same (st st' : app) : heap st' = heap st → extends st st'.
Proof. intros Hh. apply (extends_app st st' []). by rewrite app_nil_r. Qed.

Lemma extends_display (l : loc) (st : app) :
  extends st (_update_result_display l st).
Proof.
  intros l' r Hl'. destruct (display_heap l l' r st Hl') as (r' & ? & ? & _).
  by exists r'.
Qed.

Lemma checkpoint_frame (io : nat → write_outcome) (n : nat) (st : app) :
  heap (checkpoint io n st) = heap st ∧
  query_cache (checkpoint io n st) = query_cache st ∧
  query_results (checkpoint io n st) = query_results st ∧
  max_retries (checkpoint io n st) = max_retries st.
Proof.
  unfold checkpoint. destruct (_ =? _); [apply save_results_frame | done].
Qed.

Lemma fetch_result_extends serial index total st res st' :
  fetch_result serial index total st res st' → extends st st'.
Proof.
  destruct 1; [by apply extends_same | by eapply extends_app..].
Qed.

Lemma step_extends `{Formatter} serials io (b b' : batch) :
  step_spec serials io b b' → extends (bapp b) (bapp b').
Proof.
  destruct 1; simpl; try apply extends_refl.
  - by eapply fetch_result_extends.
  - apply extends_display.
  - eapply extends_trans; [apply extends_display|].
    apply extends_same. by destruct (checkpoint_frame io (S (completed b))
      (set_results (dict_set k l
         (query_results (_update_result_display l (bapp b))))
         (_update_result_display l (bapp b)))) as [-> _].
  - apply extends_display.
Qed.

Lemma load_entries_heap (entries : list (string * json)) : ∀ st,
  ∃ new, heap (load_entries entries st) = heap st ++ new.
Proof.
  induction entries as [|[k e] entries IH]; intros st; simpl.
  - exists []. by rewrite app_nil_r.
  - destruct (from_dict e) as [r|]; [|exists []; by rewrite app_nil_r].
    match goal with |- context [load_entries entries ?s] =>
      destruct (IH s) as [new Hnew] end.
    exists (r :: new). rewrite Hnew. simpl. by rewrite <-app_assoc.
Qed.

Lemma handle_failed_frame (failed : gset string) (st : app) :
  heap (handle_failed_queries failed st) = heap st ∧
  query_cache (handle_failed_queries failed st) = query_cache st ∧
  query_results (handle_failed_queries failed st) = query_results st ∧
  results_file (handle_failed_queries failed st) = results_file st.
Proof. unfold handle_failed_queries. by case_decide. Qed.

Lemma run_extends `{Formatter} serials net io schedule (st : app) :
  extends st (bapp (run serials net io schedule st)).
Proof.
  apply (run_invariant serials net io (λ b, extends st (bapp b))).
  - apply extends_refl.
  - intros b b' Hb Hstep. eapply extends_trans; [done|].
    by eapply step_extends.
Qed.

Lemma query_with_retry_heap `{Formatter} resp serial index total (st : app) :
  ∃ new, heap (query_with_retry resp serial index total st).2 = heap st ++ new.
Proof.
  unfold query_with_retry.
  destruct (dict_get serial (query_cache st)); simpl.
  - exists []. by rewrite app_nil_r.
  - pose proof (fetch_loop_spec resp serial index total
                  (seq 0 (max_retries st + 1)) st) as Hf.
    inversion Hf; simpl; [exists []; by rewrite app_nil_r | by eexists..].
Qed.

(** C4 as the specification words it fails: displaying a result assigns
    its counters in place. *)
Lemma immutable_claim_fails : ¬ immutable_claim (Display 0) after_second_try.
Proof.
  intros Hclaim.
  specialize (Hclaim 0
    (mkQueryResult (JStr "ABCDEFGH12") (JInt 3) (JInt 7) (JBool true)
       (payload [("warranty", JList [entry 30])])
       (JInt 1) (JInt 0) (JInt 0) (JInt 0)) eq_refl).
  vm_compute in Hclaim. discriminate Hclaim.
Qed.

(** C4, amended. No call removes an object or assigns its [serial],
    [index], [total], [success], [data] or [retry_count].  The three
    counters are assigned in place, on the object itself, and only by the
    display of a result, alone or inside a batch; the other calls leave
    every existing object as it is. *)
Theorem core_fields_immutable `{Formatter} (m : method) (st : app) (l : loc)
    (r : QueryResult) :
  heap st !! l = Some r →
  ∃ r', heap (call m st) !! l = Some r' ∧ same_core r r' ∧
        match m with
        | Display _ | Batch _ _ _ _ _ => True
        | _ => r' = r
        end.
Proof.
  intros Hl.
  assert (Happ : ∀ st', (∃ new, heap st' = heap st ++ new) →
            ∃ r', heap st' !! l = Some r' ∧ same_core r r' ∧ r' = r).
  { intros st' [new Hnew]. exists r. rewrite Hnew.
    split; [by apply lookup_app_l_Some|]. split; [apply same_core_refl|done]. }
  assert (Hext : ∀ st', extends st st' →
            ∃ r', heap st' !! l = Some r' ∧ same_core r r' ∧ True).
  { intros st' He. destruct (He l r Hl) as (r' & ? & ?). by exists r'. }
  destruct m as [resp serial index total|l0|o| | |serials net io io_final schedule];
    simpl.
  - apply Happ, query_with_retry_heap.
  - apply Hext, extends_display.
  - apply Happ. exists []. rewrite app_nil_r. apply save_results_frame.
  - apply Happ. unfold load_previous_results.
    cbn [results_file set_results].
    destruct (results_file st) as [| |[| | | | | |entries]];
      try (exists []; by rewrite app_nil_r).
    apply (load_entries_heap entries (set_results [] st)).
  - apply Happ. exists []. by rewrite app_nil_r.
  - apply Hext. unfold execute_query.
    destruct (forallb _ _); simpl; [|apply run_extends].
    eapply extends_trans; [apply run_extends|]. apply extends_same.
    destruct (handle_failed_frame
                (failed_serials (run serials net io schedule st))
                (save_results io_final (bapp (run serials net io schedule st))))
      as [-> _].
    apply save_results_frame.
Qed.

Lemma core_fields_immutable_witness :
  ∃ r', heap (call (Display 0) after_second_try) !! 0 = Some r' ∧
        same_core
          (mkQueryResult (JStr "ABCDEFGH12") (JInt 3) (JInt 7) (JBool true)
             (payload [("warranty", JList [entry 30])])
             (JInt 1) (JInt 0) (JInt 0) (JInt 0)) r' ∧ True.
Proof.
  apply (core_fields_immutable (Display 0) after_second_try 0).
  reflexivity.
Defined.

(** ** The store *)

Lemma step_store `{Formatter} serials io (b b' : batch) :
  step_spec serials io b b' →
  query_results (bapp b') = query_results (bapp b) ∨
  ∃ k l r, query_results (bapp b') = dict_set k l (query_results (bapp b)) ∧
           heap (bapp b') !! l = Some r ∧
           is_success r = Some true ∧ serial r = JStr k.
Proof.
  destruct 1 as [| | |i serial res st' _ _ Hf| | |i l r k _ Hr Hok Hk|]; simpl;
    try (by left).
  - left. by destruct Hf.
  - left. apply display_frame.
  - right. exists k, l, r.
    destruct (checkpoint_frame io (S (completed b))
      (set_results (dict_set k l
         (query_results (_update_result_display l (bapp b))))
         (_update_result_display l (bapp b)))) as (-> & _ & -> & _).
    simpl. split_and!; try done.
    by destruct (display_frame l (bapp b)) as (_ & -> & _).
  - left. apply display_frame.
Qed.

(** Only successes are written: an entry is one the batch found in the
    store, or binds an identifier to a successful result for it. *)
Lemma run_store `{Formatter} serials net io schedule (st : app) :
  NoDup (dict_keys (query_results st)) →
  let st' := bapp (run serials net io schedule st) in
  NoDup (dict_keys (query_results st')) ∧
  ∀ k l, dict_get k (query_results st') = Some l →
    dict_get k (query_results st) = Some l ∨
    ∃ r, heap st' !! l = Some r ∧ serial r = JStr k ∧ is_success r = Some true.
Proof.
  intros Hnd.
  apply (run_invariant serials net io (λ b,
    NoDup (dict_keys (query_results (bapp b))) ∧
    ∀ k l, dict_get k (query_results (bapp b)) = Some l →
      dict_get k (query_results st) = Some l ∨
      ∃ r, heap (bapp b) !! l = Some r ∧ serial r = JStr k ∧
           is_success r = Some true)).
  - split; [done|]. intros k l Hget. by left.
  - intros b b' [Hnd' Hold] Hstep.
    pose proof (step_extends _ _ _ _ Hstep) as Hext.
    assert (Hkeep : ∀ k l,
      (dict_get k (query_results st) = Some l ∨
       ∃ r, heap (bapp b) !! l = Some r ∧ serial r = JStr k ∧
            is_success r = Some true) →
      (dict_get k (query_results st) = Some l ∨
       ∃ r, heap (bapp b') !! l = Some r ∧ serial r = JStr k ∧
            is_success r = Some true)).
    { intros k l [?|(r & Hr & Hk & Hok)]; [by left|right].
      destruct (Hext l r Hr) as (r' & Hr' & Hcore). exists r'.
      split; [done|]. rewrite (same_core_success r r' Hcore).
      destruct Hcore as (-> & _). done. }
    destruct (step_store _ _ _ _ Hstep) as [->|(k0 & l0 & r0 & -> & Hr0 & Hok0 & Hk0)].
    + split; [done|]. intros k l Hget. by apply Hkeep, Hold.
    + split; [by apply dict_set_NoDup|]. intros k l Hget.
      destruct (decide (k0 = k)) as [->|Hne].
      * rewrite dict_get_set_eq in Hget. injection Hget as <-.
        right. by exists r0.
      * rewrite dict_get_set_ne in Hget by done. by apply Hkeep, Hold.
Qed.

(** C6 as the specification words it fails: a failed lookup leaves no
    entry in the store. *)
Lemma store_keeps_failures_claim_fails :
  ¬ store_keeps_failures_claim one_serial (λ _ _, timeout) (λ _, Written)
      Written one_schedule (initial NoFile).
Proof.
  intros Hclaim.
  specialize (Hclaim _ eq_refl "ABCDEFGH12").
  assert (Hin : "ABCDEFGH12" ∈ one_serial) by (unfold one_serial; set_solver).
  specialize (Hclaim Hin). vm_compute in Hclaim. discriminate Hclaim.
Qed.

(** C6, amended. The store has at most one entry per identifier, and a
    batch writes only successes into it: after the batch every entry is
    one that was there before or binds an identifier to a successful
    result for that identifier.  The completion loop files a success under
    its identifier, over whatever entry was there, and a failure only in
    the set of failed identifiers. *)
Theorem store_holds_successes `{Formatter} (serials : list string)
    (net : nat → nat → response) (io : nat → write_outcome)
    (io_final : write_outcome) (schedule : list action) (st st' : app) :
  NoDup (dict_keys (query_results st)) →
  execute_query serials net io io_final schedule st = Some st' →
  NoDup (dict_keys (query_results st')) ∧
  (∀ k l, dict_get k (query_results st') = Some l →
     dict_get k (query_results st) = Some l ∨
     ∃ r, heap st' !! l = Some r ∧ serial r = JStr k ∧
          is_success r = Some true) ∧
  (∀ (b : batch) l r k (ok : bool),
     heap (update_result_text l (bapp b)) !! l = Some r →
     serial r = JStr k → is_success r = Some ok →
     let b' := handle_completion io (Some l) b in
     if ok
     then dict_get k (query_results (bapp b')) = Some l ∧
          failed_serials b' = failed_serials b
     else query_results (bapp b') = query_results (bapp b) ∧
          failed_serials b' = {[k]} ∪ failed_serials b).
Proof.
  intros Hnd Hrun. unfold execute_query in Hrun.
  destruct (forallb _ _); [|done]. injection Hrun as <-.
  destruct (run_store serials net io schedule st Hnd) as [Hnd' Hold].
  set (b := run serials net io schedule st) in *.
  destruct (handle_failed_frame (failed_serials b)
              (save_results io_final (bapp b))) as (Hh & _ & Hs & _).
  destruct (save_results_frame io_final (bapp b)) as (Hh' & _ & Hs' & _).
  rewrite Hs, Hs', Hh, Hh'. split; [done|]. split; [done|].
  clear. intros b l r k ok Hr Hk Hok. unfold handle_completion.
  rewrite Hr. simpl. rewrite Hok. simpl. rewrite Hk. simpl.
  destruct ok; simpl.
  - split; [|done].
    destruct (_ =? _); [rewrite (proj1 (proj2 (proj2 (save_results_frame _ _))))|];
      simpl; apply dict_get_set_eq.
  - split; [|done]. apply display_frame.
Qed.

Lemma store_holds_successes_witness :
  let st := initial NoFile in
  let st' := default st (execute_query one_serial (λ _, second_try)
                           (λ _, Written) Written one_schedule st) in
  NoDup (dict_keys (query_results st')) ∧
  (∀ k l, dict_get k (query_results st') = Some l →
     dict_get k (query_results st) = Some l ∨
     ∃ r, heap st' !! l = Some r ∧ serial r = JStr k ∧
          is_success r = Some true) ∧
  (∀ (b : batch) l r k (ok : bool),
     heap (update_result_text l (bapp b)) !! l = Some r →
     serial r = JStr k → is_success r = Some ok →
     let b' := handle_completion (λ _, Written) (Some l) b in
     if ok
     then dict_get k (query_results (bapp b')) = Some l ∧
          failed_serials b' = failed_serials b
     else query_results (bapp b') = query_results (bapp b) ∧
          failed_serials b' = {[k]} ∪ failed_serials b).
Proof.
  apply (store_holds_successes one_serial (λ _, second_try) (λ _, Written)
           Written one_schedule (initial NoFile)).
  - apply NoDup_nil_2.
  - vm_compute. reflexivity.
Defined.

(** ** Checkpoints *)

Lemma saves_cons (e : event) (t : list event) :
  saves (e :: t) = (match e with EvSave _ => 1 | _ => 0 end) + saves t.
Proof.
  unfold saves. rewrite filter_cons. destruct e; by case_decide.
Qed.

Lemma saves_fetch (evs t : list event) :
  Forall is_fetch_event evs → saves (evs ++ t) = saves t.
Proof.
  induction 1 as [|e evs He _ IH]; [done|]. simpl. rewrite saves_cons, IH.
  by destruct e.
Qed.

Lemma display_saves (l : loc) (st : app) :
  saves (trace (_update_result_display l st)) = saves (trace st).
Proof.
  unfold _update_result_display. repeat case_match; simpl; by rewrite ?saves_cons.
Qed.

Lemma save_results_saves (o : write_outcome) (st : app) :
  store_live st →
  saves (trace (save_results o st)) = saves (trace st) + 1.
Proof.
  intros (rs & _ & Hser)%serializable_live. unfold save_results.
  rewrite Hser. destruct o; simpl; rewrite saves_cons; lia.
Qed.

Lemma store_live_extends (st st' : app) :
  extends st st' → query_results st' = query_results st →
  store_live st → store_live st'.
Proof.
  unfold store_live. intros Hext -> Hlive. eapply Forall_impl; [done|].
  intros [k l] [r Hr]. destruct (Hext l r Hr) as (r' & Hr' & _). by eexists.
Qed.

Lemma step_store_live `{Formatter} serials io (b b' : batch) :
  step_spec serials io b b' → store_live (bapp b) → store_live (bapp b').
Proof.
  intros Hstep Hlive.
  pose proof (step_extends _ _ _ _ Hstep) as Hext.
  destruct (step_store _ _ _ _ Hstep) as [Hsame|(k & l & r & Hset & Hr & _)].
  - by eapply store_live_extends.
  - unfold store_live in *. rewrite Hset. apply Forall_forall.
    intros [k' l'] [[= -> ->]|Hin]%dict_set_elem; simpl; [by eexists|].
    rewrite Forall_forall in Hlive. destruct (Hlive _ Hin) as [r' Hr'].
    destruct (Hext _ _ Hr') as (r'' & ? & _). by eexists.
Qed.

Lemma collected_count_insert (fs : list future) (i : nat) (f f' : future) :
  fs !! i = Some f → is_collected f = false →
  collected_count (<[i := f']> fs) =
  (if is_collected f' then 1 else 0) + collected_count fs.
Proof.
  intros Hi Hf. unfold collected_count.
  rewrite insert_take_drop by (by eapply lookup_lt_Some).
  rewrite <-(take_drop_middle fs i f Hi) at 3.
  rewrite !filter_app, !filter_cons, !length_app.
  repeat case_decide; simpl; try lia; destruct f, f'; done.
Qed.

Lemma collected_count_all (fs : list future) :
  forallb is_collected fs = true → collected_count fs = length fs.
Proof.
  unfold collected_count. induction fs as [|f fs IH]; [done|]. simpl.
  intros [Hf Hfs]%andb_true_iff. rewrite filter_cons.
  case_decide; [|done]. simpl. by rewrite IH.
Qed.

Lemma div_100_succ (c : nat) : c / 100 ≤ S c / 100.
Proof. apply Nat.Div0.div_le_mono. lia. Qed.

Lemma div_100_full (c : nat) : S c mod 100 = 0 → S c / 100 = c / 100 + 1.
Proof.
  intros Hmod. pose proof (Nat.div_mod_eq (S c) 100).
  pose proof (Nat.div_mod_eq c 100). pose proof (Nat.mod_upper_bound c 100).
  lia.
Qed.

Lemma checkpoint_saves (io : nat → write_outcome) (c : nat) (st : app) :
  store_live st →
  saves (trace (checkpoint io (S c) st)) =
  saves (trace st) + (if S c mod 100 =? 0 then 1 else 0).
Proof.
  intros Hlive. unfold checkpoint. destruct (_ =? _); [|lia].
  by apply save_results_saves.
Qed.

Lemma store_live_stored (l : loc) (r : QueryResult) (k : string) (st : app) :
  store_live st →
  heap (_update_result_display l st) !! l = Some r →
  store_live (set_results
                (dict_set k l (query_results (_update_result_display l st)))
                (_update_result_display l st)).
Proof.
  intros Hl Hr. unfold store_live. simpl. apply Forall_forall.
  intros [k' l'] [[= -> ->]|Hin]%dict_set_elem; simpl; [by eexists|].
  destruct (display_frame l st) as (_ & Hs & _). rewrite Hs in Hin.
  unfold store_live in Hl. rewrite Forall_forall in Hl.
  destruct (Hl _ Hin) as [r' Hr'].
  destruct (extends_display l st _ _ Hr') as (? & ? & _).
  by eexists.
Qed.

(** While a batch runs, the store stays live, [completed] counts the
    collected futures, and there is at most one checkpoint per full hundred
    of completions. *)
Lemma run_checkpoints `{Formatter} serials net io schedule (st : app) :
  store_live st →
  let b := run serials net io schedule st in
  store_live (bapp b) ∧
  length (futures b) = length serials ∧
  completed b = collected_count (futures b) ∧
  saves (trace st) ≤ saves (trace (bapp b)) ≤ saves (trace st) + completed b / 100.
Proof.
  intros Hlive.
  apply (run_invariant serials net io (λ b,
    store_live (bapp b) ∧
    length (futures b) = length serials ∧
    completed b = collected_count (futures b) ∧
    saves (trace st) ≤ saves (trace (bapp b))
      ≤ saves (trace st) + completed b / 100)).
  - split; [done|]. simpl. rewrite length_replicate. split; [done|].
    split; [|lia]. unfold collected_count.
    induction (length serials) as [|n IH]; [done|]. simpl.
    rewrite filter_cons. by case_decide.
  - intros b b' (Hl & Hlen & Hcount & Hsaves) Hstep.
    split; [by eapply step_store_live|].
    destruct Hstep as [|i s l Hi _ _|i s Hi _ _|i s res st' Hi _ Hf|i Hi|i l Hi
                       |i l r k Hi Hr Hok Hk|i l r k Hi Hr Hok Hk];
      cbn [futures completed bapp set_future set_app];
      rewrite ?length_insert;
      try rewrite (collected_count_insert _ _ _ _ Hi) by done;
      cbn [is_collected]; rewrite ?display_saves.
    + done.
    + done.
    + done.
    + split; [done|]. split; [done|].
      destruct Hf; simpl; by rewrite saves_fetch.
    + pose proof (div_100_succ (completed b)). split; [done|]. split; lia.
    + pose proof (div_100_succ (completed b)). split; [done|]. split; lia.
    + split; [done|]. split; [lia|].
      rewrite checkpoint_saves by (by eapply store_live_stored).
      cbn [trace set_results]. rewrite display_saves.
      pose proof (div_100_succ (completed b)).
      destruct (Nat.eqb_spec (S (completed b) mod 100) 0) as [Hz|_]; [|lia].
      rewrite (div_100_full _ Hz). lia.
    + pose proof (div_100_succ (completed b)). split; [done|]. split; lia.
Qed.

(** C3 as the specification words it fails: when the 100th and the 200th
    completion are failures, a batch of 250 writes the file once, at the
    end. *)
Lemma checkpoint_claim_fails :
  ¬ checkpoint_claim serials_250 net_250 (λ _, Written) Written
      (one_by_one 250) (initial NoFile).
Proof.
  intros Hclaim.
  assert (Hsaves : saves ∘ trace <$>
            execute_query serials_250 net_250 (λ _, Written) Written
              (one_by_one 250) (initial NoFile) = Some 1)
    by (vm_compute; reflexivity).
  unfold checkpoint_claim in Hclaim.
  destruct (execute_query _ _ _ _ _ _) as [st'|]; [|discriminate Hsaves].
  injection Hsaves as Hsaves. specialize (Hclaim st' eq_refl).
  unfold compose in Hsaves. rewrite Hsaves in Hclaim.
  vm_compute in Hclaim. lia.
Qed.

(** C3, amended. The completion loop writes the file after a completion
    exactly when that completion is a success and the count of completions
    has reached a multiple of 100; a failure at such a count writes
    nothing.  One more write follows the loop.  A batch of [n] serials
    therefore makes at least one write and at most [1 + n / 100]: between
    1 and 3 for 250 serials. *)
Theorem checkpoints_bounded `{Formatter} (serials : list string)
    (net : nat → nat → response) (io : nat → write_outcome)
    (io_final : write_outcome) (schedule : list action) (st st' : app) :
  store_live st →
  execute_query serials net io io_final schedule st = Some st' →
  saves (trace st) + 1 ≤ saves (trace st')
    ≤ saves (trace st) + 1 + length serials / 100 ∧
  ∀ (b : batch) l r k (ok : bool),
    store_live (bapp b) →
    heap (update_result_text l (bapp b)) !! l = Some r →
    serial r = JStr k → is_success r = Some ok →
    saves (trace (bapp (handle_completion io (Some l) b))) =
    saves (trace (bapp b)) +
    (if ok && (S (completed b) mod 100 =? 0) then 1 else 0).
Proof.
  intros Hlive Hrun. unfold execute_query in Hrun.
  destruct (forallb _ _) eqn:Hall; [|done]. injection Hrun as <-.
  destruct (run_checkpoints serials net io schedule st Hlive)
    as (Hl & Hlen & Hcount & Hsaves).
  set (b := run serials net io schedule st) in *.
  split.
  - assert (Hdone : completed b = length serials)
      by (by rewrite Hcount, collected_count_all, Hlen).
    assert (saves (trace (handle_failed_queries (failed_serials b)
                            (save_results io_final (bapp b)))) =
            saves (trace (bapp b)) + 1) as ->; [|rewrite <-Hdone; lia].
    rewrite <-(save_results_saves io_final (bapp b) Hl).
    unfold handle_failed_queries. case_decide; [done|]. simpl.
    by rewrite saves_cons.
  - clear. intros b l r k ok Hl Hr Hk Hok.
    unfold handle_completion, update_result_text in *.
    rewrite Hr. simpl. rewrite Hok. simpl. rewrite Hk. simpl.
    destruct ok; simpl; [|rewrite display_saves; lia].
    change (saves (trace (checkpoint io (S (completed b))
              (set_results
                 (dict_set k l
                    (query_results (_update_result_display l (bapp b))))
                 (_update_result_display l (bapp b))))) = 
            saves (trace (bapp b)) +
            (if S (completed b) mod 100 =? 0 then 1 else 0)).
    rewrite checkpoint_saves by (by eapply store_live_stored).
    cbn [trace set_results]. by rewrite display_saves.
Qed.

Lemma checkpoints_bounded_witness :
  let st := initial NoFile in
  let st' := default st (execute_query one_serial (λ _, second_try)
                           (λ _, Written) Written one_schedule st) in
  saves (trace st) + 1 ≤ saves (trace st')
    ≤ saves (trace st) + 1 + length one_serial / 100 ∧
  ∀ (b : batch) l r k (ok : bool),
    store_live (bapp b) →
    heap (update_result_text l (bapp b)) !! l = Some r →
    serial r = JStr k → is_success r = Some ok →
    saves (trace (bapp (handle_completion (λ _, Written) (Some l) b))) =
    saves (trace (bapp b)) +
    (if ok && (S (completed b) mod 100 =? 0) then 1 else 0).
Proof.
  apply (checkpoints_bounded one_serial (λ _, second_try) (λ _, Written)
           Written one_schedule (initial NoFile)).
  - apply Forall_nil_2.
  - vm_compute. reflexivity.
Defined.

(** ** Cache hits in a later batch *)

Lemma obj_extends (st st' : app) (l : loc) (r : QueryResult) :
  extends st st' → heap st !! l = Some r →
  ∃ r', heap st' !! l = Some r' ∧ serial r' = serial r ∧
        index r' = index r ∧ total r' = total r.
Proof.
  intros Hext Hl. destruct (Hext l r Hl) as (r' & Hr' & Hs & Hi & Ht & _).
  by exists r'.
Qed.

Lemma display_trace (l : loc) (r : QueryResult) (st : app) :
  heap st !! l = Some r →
  trace (_update_result_display l st) =
  EvShow (index r) (total r) (serial r) :: trace st.
Proof.
  intros Hl. unfold _update_result_display. rewrite Hl.
  repeat case_match; done.
Qed.

Lemma checkpoint_trace (io : nat → write_outcome) (n : nat) (st : app) :
  trace (checkpoint io n st) = trace st ∨
  ∃ o, trace (checkpoint io n st) = EvSave o :: trace st.
Proof.
  unfold checkpoint, save_results. repeat case_match; eauto.
Qed.

(** The cache changes only when a running call finds its serial. *)
Lemma step_cache `{Formatter} serials io (b b' : batch) :
  step_spec serials io b b' →
  query_cache (bapp b') = query_cache (bapp b) ∨
  ∃ i k doc n,
    serials !! i = Some k ∧ futures b !! i = Some Running ∧
    query_cache (bapp b') =
      dict_set k (length (heap (bapp b))) (query_cache (bapp b)) ∧
    heap (bapp b') =
      heap (bapp b) ++ [new_result k (Z.of_nat (S i))
                          (Z.of_nat (length serials)) true doc n].
Proof.
  destruct 1 as [| | |i k l st' Hi Hk Hf| | |i l r k _ Hr Hok Hk|]; simpl;
    try (by left); try (left; apply display_frame).
  - inversion Hf; subst; simpl; [|by left]. right. by exists i, k, doc, n.
  - left.
    destruct (checkpoint_frame io (S (completed b))
      (set_results (dict_set k l
         (query_results (_update_result_display l (bapp b))))
         (_update_result_display l (bapp b)))) as (_ & -> & _).
    apply display_frame.
Qed.

Lemma cache_ok_step `{Formatter} serials io (b b' : batch) :
  step_spec serials io b b' → cache_ok (bapp b) → cache_ok (bapp b').
Proof.
  intros Hstep Hok k l Hget.
  pose proof (step_extends _ _ _ _ Hstep) as Hext.
  destruct (step_cache _ _ _ _ Hstep)
    as [Hsame|(i & k0 & doc & n & _ & _ & Hset & Hheap)].
  - rewrite Hsame in Hget. destruct (Hok k l Hget) as (r & Hr & Hs).
    destruct (obj_extends _ _ _ _ Hext Hr) as (r' & ? & ? & _).
    exists r'. split; [done|congruence].
  - rewrite Hset in Hget. destruct (decide (k0 = k)) as [->|Hne].
    + rewrite dict_get_set_eq in Hget. injection Hget as <-.
      eexists. rewrite Hheap. split; [by apply list_lookup_middle|done].
    + rewrite dict_get_set_ne in Hget by done.
      destruct (Hok k l Hget) as (r & Hr & Hs).
      destruct (obj_extends _ _ _ _ Hext Hr) as (r' & ? & ? & _).
      exists r'. split; [done|congruence].
Qed.

Lemma futures_ok_step `{Formatter} serials io (b b' : batch) :
  step_spec serials io b b' → futures_ok serials b → futures_ok serials b'.
Proof.
  intros Hstep (Hlen & Hc & Hf).
  split; [|split; [by eapply cache_ok_step|]].
  { destruct Hstep; simpl; by rewrite ?length_insert. }
  intros j k res Hk Hj.
  pose proof (step_extends _ _ _ _ Hstep) as Hext.
  assert (Hold : ∀ res, futures b !! j = Some (Done res) →
            ∃ l r, res = Some l ∧ heap (bapp b') !! l = Some r ∧
                   serial r = JStr k).
  { intros res' Hj'. destruct (Hf j k res' Hk Hj') as (l & r & -> & Hr & Hs).
    destruct (obj_extends _ _ _ _ Hext Hr) as (r' & ? & ? & _).
    exists l, r'. split_and!; [done..|congruence]. }
  destruct Hstep as [|i s l Hi Hs Hget|i s Hi Hs Hget|i s l st' Hi Hs Hfetch
                     |i Hi|i l Hi|i l r k0 Hi Hr Hok Hk0|i l r k0 Hi Hr Hok Hk0];
    cbn [futures set_future set_app bapp] in *;
    try by apply Hold.
  all: destruct (decide (j = i)) as [->|Hne];
    [rewrite list_lookup_insert_eq in Hj by (by eapply lookup_lt_Some)
    |rewrite list_lookup_insert_ne in Hj by done; by apply Hold].
  all: try done.
  - injection Hj as <-. assert (s = k) as -> by congruence.
    destruct (Hc k l Hget) as (r & Hr & Hsr). by exists l, r.
  - injection Hj as <-. assert (s = k) as -> by congruence.
    inversion Hfetch; subst; simpl.
    + eexists _, _. split; [done|]. split; [by apply list_lookup_middle|done].
    + eexists _, _. split; [done|]. split; [by apply list_lookup_middle|done].
Qed.

Lemma futures_ok_run `{Formatter} serials net io schedule (st : app) :
  cache_ok st → futures_ok serials (run serials net io schedule st).
Proof.
  intros Hc. apply (run_invariant serials net io (futures_ok serials)).
  - split; [apply length_replicate|]. split; [done|].
    intros j k res _ Hj. simpl in Hj.
    apply lookup_replicate in Hj as [? _]. done.
  - intros b b' Hb Hstep. by eapply futures_ok_step.
Qed.

Lemma cached_here_run `{Formatter} serials net io schedule (st : app)
    (s : string) (i : nat) :
  NoDup serials → serials !! i = Some s →
  dict_get s (query_cache st) = None →
  cached_here serials s i (bapp (run serials net io schedule st)).
Proof.
  intros Hnd Hi Hmiss.
  apply (run_invariant serials net io (λ b, cached_here serials s i (bapp b))).
  - intros l Hget. simpl in Hget. congruence.
  - intros b b' Hb Hstep l Hget.
    pose proof (step_extends _ _ _ _ Hstep) as Hext.
    assert (Hold : dict_get s (query_cache (bapp b)) = Some l →
              ∃ r, heap (bapp b') !! l = Some r ∧ serial r = JStr s ∧
                   index r = JInt (Z.of_nat (S i)) ∧
                   total r = JInt (Z.of_nat (length serials))).
    { intros Hget'. destruct (Hb l Hget') as (r & Hr & Hs & Hx & Hy).
      destruct (obj_extends _ _ _ _ Hext Hr) as (r' & ? & ? & ? & ?).
      exists r'. split_and!; congruence. }
    destruct (step_cache _ _ _ _ Hstep)
      as [Hsame|(i0 & k0 & doc & n & Hk0 & _ & Hset & Hheap)].
    + apply Hold. by rewrite <-Hsame.
    + rewrite Hset in Hget. destruct (decide (k0 = s)) as [->|Hne].
      * rewrite dict_get_set_eq in Hget. injection Hget as <-.
        assert (i0 = i) as -> by (by eapply NoDup_lookup).
        eexists. rewrite Hheap. split; [by apply list_lookup_middle|done].
      * rewrite dict_get_set_ne in Hget by done. by apply Hold.
Qed.

(** How a step moves a future. *)
Lemma step_futures `{Formatter} serials io (b b' : batch) (j : nat) :
  step_spec serials io b b' →
  futures b' !! j = futures b !! j ∨
  (futures b !! j = Some Queued ∧
   ∃ k, serials !! j = Some k ∧
     ((futures b' !! j = Some Running ∧
       dict_get k (query_cache (bapp b)) = None) ∨
      (∃ l, futures b' !! j = Some (Done (Some l)) ∧
            dict_get k (query_cache (bapp b)) = Some l))) ∨
  (futures b !! j = Some Running ∧
   ∃ l, futures b' !! j = Some (Done (Some l))) ∨
  (∃ res, futures b !! j = Some (Done res) ∧
          futures b' !! j = Some Collected).
Proof.
  destruct 1 as [|i s l Hi Hs Hget|i s Hi Hs Hget|i s l st' Hi Hs Hfetch
                 |i Hi|i l Hi|i l r k0 Hi Hr Hok Hk0|i l r k0 Hi Hr Hok Hk0];
    cbn [futures set_future set_app]; [by left|..].
  all: destruct (decide (j = i)) as [->|Hne];
    [rewrite list_lookup_insert_eq by (by eapply lookup_lt_Some)
    |rewrite list_lookup_insert_ne by done; by left].
  - right; left. split; [done|]. exists s. split; [done|]. right. by exists l.
  - right; left. split; [done|]. exists s. split; [done|]. by left.
  - right; right; left. split; [done|]. by exists l.
  - right; right; right. by eexists.
  - right; right; right. by eexists.
  - right; right; right. by eexists.
  - right; right; right. by eexists.
Qed.

Lemma fetch_event_not_show (e : event) : is_fetch_event e → ¬ is_show e.
Proof. destruct e; simpl; tauto. Qed.

(** What a step logs: nothing that is a result event, and then no future
    becomes collected; or the result event of the one future it collects. *)
Lemma step_trace `{Formatter} serials io (b b' : batch) :
  step_spec serials io b b' → futures_ok serials b →
  (∃ evs, trace (bapp b') = evs ++ trace (bapp b) ∧
          Forall (λ e, ¬ is_show e) evs ∧
          ∀ j, futures b' !! j = Some Collected →
               futures b !! j = Some Collected) ∨
  (∃ i l k r sv,
     futures b !! i = Some (Done (Some l)) ∧ serials !! i = Some k ∧
     heap (bapp b) !! l = Some r ∧ serial r = JStr k ∧
     futures b' = <[i := Collected]> (futures b) ∧
     trace (bapp b') = sv ++ EvShow (index r) (total r) (JStr k)
                             :: trace (bapp b) ∧
     Forall (λ e, ¬ is_show e) sv).
Proof.
  intros Hstep (Hlen & Hc & Hf).
  assert (Hkeep : ∀ i f, f ≠ Collected → ∀ j,
            <[i := f]> (futures b) !! j = Some Collected →
            futures b !! j = Some Collected).
  { intros i f Hne j. destruct (decide (j = i)) as [->|Hji].
    - destruct (decide (i < length (futures b))).
      + rewrite list_lookup_insert_eq by done. congruence.
      + rewrite list_insert_ge by lia. done.
    - by rewrite list_lookup_insert_ne. }
  assert (Hobj : ∀ i l, futures b !! i = Some (Done (Some l)) →
            ∃ k r, serials !! i = Some k ∧ heap (bapp b) !! l = Some r ∧
                   serial r = JStr k).
  { intros i l Hi.
    destruct (lookup_lt_is_Some_2 serials i) as [k Hk].
    { rewrite <-Hlen. by eapply lookup_lt_Some. }
    destruct (Hf i k _ Hk Hi) as (l' & r & [= <-] & Hr & Hs).
    by exists k, r. }
  destruct Hstep as [|i s l Hi Hs Hget|i s Hi Hs Hget|i s l st' Hi Hs Hfetch
                     |i Hi|i l Hi|i l r k0 Hi Hr Hok Hk0|i l r k0 Hi Hr Hok Hk0];
    cbn [futures set_future set_app bapp].
  - left. exists []. by split_and!.
  - left. exists []. split_and!; [done..|]. by apply Hkeep.
  - left. exists []. split_and!; [done..|]. by apply Hkeep.
  - left. inversion Hfetch as [|evs doc n Hevs|evs msg n Hevs]; subst;
      exists evs; simpl; (split_and!; [done| |by apply Hkeep]);
      (eapply Forall_impl; [done|]); apply fetch_event_not_show.
  - destruct (lookup_lt_is_Some_2 serials i) as [k Hk].
    { rewrite <-Hlen. by eapply lookup_lt_Some. }
    by destruct (Hf i k _ Hk Hi) as (? & ? & ? & _).
  - right. destruct (Hobj i l Hi) as (k & r & Hk & Hr & Hsr).
    exists i, l, k, r, []. split_and!; try done.
    by rewrite (display_trace l r), Hsr.
  - right. destruct (Hobj i l Hi) as (k & r' & Hk & Hr' & Hsr).
    destruct (checkpoint_trace io (S (completed b))
      (set_results (dict_set k0 l
         (query_results (_update_result_display l (bapp b))))
         (_update_result_display l (bapp b)))) as [Ht|[o Ht]];
      rewrite Ht; cbn [trace set_results]; rewrite (display_trace l r'), Hsr by done.
    + exists i, l, k, r', []. by split_and!.
    + exists i, l, k, r', [EvSave o]. split_and!; try done.
      repeat constructor. by intros [].
  - right. destruct (Hobj i l Hi) as (k & r' & Hk & Hr' & Hsr).
    exists i, l, k, r', []. split_and!; try done.
    by rewrite (display_trace l r'), Hsr.
Qed.

Lemma requery_step `{Formatter} serials io (s : string) (l : loc) (x y : json)
    (st1 : app) (b b' : batch) :
  futures_ok serials b → requery_inv serials s l x y st1 b →
  step_spec serials io b b' → requery_inv serials s l x y st1 b'.
Proof.
  intros Hok (Hc & (r & Hr & Hsr & Hx & Hy) & Hrun & Hdone & new & Ht & Hmem & Huniq)
    Hstep.
  pose proof (step_extends _ _ _ _ Hstep) as Hext.
  split_and!.
  - destruct (step_cache _ _ _ _ Hstep)
      as [->|(i0 & k0 & doc & n & Hk0 & Hi0 & -> & _)]; [done|].
    rewrite dict_get_set_ne; [done|]. intros ->. by apply (Hrun i0).
  - destruct (obj_extends _ _ _ _ Hext Hr) as (r' & ? & ? & ? & ?).
    exists r'. split_and!; congruence.
  - intros j Hj Hrunning.
    destruct (step_futures serials io b b' j Hstep)
      as [Heq|[(_ & k & Hk & [[_ Hnone]|(l0 & Hd & _)])
              |[(_ & l0 & Hd)|(res & _ & Hd)]]].
    + rewrite Heq in Hrunning. by apply (Hrun j).
    + congruence.
    + congruence.
    + congruence.
    + congruence.
  - intros j l' Hj Hd'.
    destruct (step_futures serials io b b' j Hstep)
      as [Heq|[(_ & k & Hk & [[Hd _]|(l0 & Hd & Hget)])
              |[(Hrunning & _)|(res & _ & Hd)]]].
    + rewrite Heq in Hd'. by apply (Hdone j).
    + congruence.
    + congruence.
    + by destruct (Hrun j Hj).
    + congruence.
  - destruct (step_trace _ _ _ _ Hstep Hok)
      as [(evs & Ht' & Hevs & Hcol)
         |(i & l0 & k & r0 & sv & Hi & Hk & Hr0 & Hsr0 & Hfs & Ht' & Hsv)].
    + exists (evs ++ new). rewrite Ht', Ht, app_assoc. split_and!; [done| |].
      * intros j Hj Hj'. apply elem_of_app. right. by apply (Hmem j), Hcol.
      * intros a c [Hin|Hin]%elem_of_app; [|by apply Huniq].
        rewrite Forall_forall in Hevs. by destruct (Hevs _ Hin).
    + assert (Hsame : k = s → index r0 = x ∧ total r0 = y).
      { intros ->. assert (l0 = l) as -> by (by apply (Hdone i)).
        assert (r0 = r) as -> by congruence. done. }
      exists (sv ++ EvShow (index r0) (total r0) (JStr k) :: new).
      rewrite Ht', Ht, <-app_assoc. split_and!; [done| |].
      * intros j Hj Hj'. apply elem_of_app. right.
        rewrite Hfs in Hj'. destruct (decide (j = i)) as [->|Hne].
        -- assert (k = s) as -> by congruence.
           destruct (Hsame eq_refl) as [-> ->]. left.
        -- rewrite list_lookup_insert_ne in Hj' by done. right.
           by apply (Hmem j).
      * intros a c [Hin|[Heq|Hin]%elem_of_cons]%elem_of_app.
        -- rewrite Forall_forall in Hsv. by destruct (Hsv _ Hin).
        -- injection Heq as -> -> <-. by apply Hsame.
        -- by apply Huniq.
Qed.

Lemma finish_frame (failed : gset string) (o : write_outcome) (st : app) :
  let st' := handle_failed_queries failed (save_results o st) in
  heap st' = heap st ∧ query_cache st' = query_cache st ∧
  ∃ extra, trace st' = extra ++ trace st ∧ Forall (λ e, ¬ is_show e) extra.
Proof.
  unfold handle_failed_queries, save_results.
  case_decide; repeat case_match; simpl; (split; [done|]); (split; [done|]).
  all: first [ by exists []
             | by (eexists [_]; split; [done|]; repeat constructor; intros [])
             | by (eexists [_; _]; split; [done|]; repeat constructor;
                   intros []) ].
Qed.

Lemma requery_run `{Formatter} serials net io schedule (s : string) (l : loc)
    (r : QueryResult) (st1 : app) :
  cache_ok st1 →
  dict_get s (query_cache st1) = Some l → heap st1 !! l = Some r →
  serial r = JStr s →
  let b := run serials net io schedule st1 in
  futures_ok serials b ∧ requery_inv serials s l (index r) (total r) st1 b.
Proof.
  intros Hc Hget Hr Hs.
  apply (run_invariant serials net io (λ b,
    futures_ok serials b ∧
    requery_inv serials s l (index r) (total r) st1 b)).
  - split.
    + split; [apply length_replicate|]. split; [done|].
      intros j k res _ Hj. simpl in Hj.
      apply lookup_replicate in Hj as [? _]. done.
    + split_and!; [done|by exists r|..].
      * intros j _ Hj. simpl in Hj. apply lookup_replicate in Hj as [? _]. done.
      * intros j l' _ Hj. simpl in Hj. apply lookup_replicate in Hj as [? _]. done.
      * exists []. split_and!; [done| |].
        -- intros j _ Hj. simpl in Hj.
           apply lookup_replicate in Hj as [? _]. done.
        -- by intros a c ?%elem_of_nil.
  - intros b b' [Hok Hinv] Hstep. split.
    + by eapply futures_ok_step.
    + by eapply requery_step.
Qed.

(** C10. Let [s] be looked up for the first time at position [i] of a
    batch of distinct serials, and be cached when that batch is over.  In
    any later batch that contains [s], at whatever position and of
    whatever size, the cache still binds [s] to the same object when the
    batch is over, a result event for [s] is shown, and every result event
    shown for [s] carries the position [i + 1] and the total of the first
    batch. *)
Theorem requery_shows_original `{Formatter}
    (serials1 serials2 : list string) (net1 net2 : nat → nat → response)
    (io1 io2 : nat → write_outcome) (final1 final2 : write_outcome)
    (schedule1 schedule2 : list action) (st0 st1 st2 : app)
    (s : string) (i i' : nat) :
  cache_ok st0 →
  NoDup serials1 →
  serials1 !! i = Some s →
  dict_get s (query_cache st0) = None →
  execute_query serials1 net1 io1 final1 schedule1 st0 = Some st1 →
  dict_mem s (query_cache st1) = true →
  serials2 !! i' = Some s →
  execute_query serials2 net2 io2 final2 schedule2 st1 = Some st2 →
  ∃ l new,
    dict_get s (query_cache st1) = Some l ∧
    dict_get s (query_cache st2) = Some l ∧
    trace st2 = new ++ trace st1 ∧
    EvShow (JInt (Z.of_nat (S i))) (JInt (Z.of_nat (length serials1))) (JStr s)
      ∈ new ∧
    ∀ a c, EvShow a c (JStr s) ∈ new →
           a = JInt (Z.of_nat (S i)) ∧ c = JInt (Z.of_nat (length serials1)).
Proof.
  intros Hc0 Hnd Hi Hmiss Hrun1 Hmem Hi' Hrun2.
  unfold execute_query in Hrun1, Hrun2.
  destruct (forallb _ _); [|done]. injection Hrun1 as <-.
  set (b1 := run serials1 net1 io1 schedule1 st0) in *.
  destruct (finish_frame (failed_serials b1) final1 (bapp b1))
    as (Hh1 & Hq1 & _).
  set (st1 := handle_failed_queries _ _) in *.
  unfold dict_mem in Hmem.
  destruct (dict_get s (query_cache st1)) as [l|] eqn:Hget; [|done].
  pose proof (cached_here_run serials1 net1 io1 schedule1 st0 s i Hnd Hi Hmiss)
    as Hhere.
  fold b1 in Hhere. rewrite Hq1 in Hget.
  destruct (Hhere l Hget) as (r & Hr & Hs & Hx & Hy).
  rewrite <-Hq1 in Hget. rewrite <-Hh1 in Hr.
  assert (Hc1 : cache_ok st1).
  { destruct (futures_ok_run serials1 net1 io1 schedule1 st0 Hc0)
      as (_ & Hc & _). fold b1 in Hc.
    intros k l' Hk. rewrite Hq1 in Hk. rewrite Hh1. by apply Hc. }
  destruct (forallb _ _) eqn:Hall; [|done]. injection Hrun2 as <-.
  destruct (requery_run serials2 net2 io2 schedule2 s l r st1 Hc1 Hget Hr Hs)
    as ((Hlen & _) & Hc2 & _ & _ & _ & new & Ht & Hshown & Huniq).
  set (b2 := run serials2 net2 io2 schedule2 st1) in *.
  destruct (finish_frame (failed_serials b2) final2 (bapp b2))
    as (_ & Hq2 & extra & Hextra & Hno).
  exists l, (extra ++ new). rewrite Hq2, Hextra, Ht, app_assoc, <-Hx, <-Hy.
  split_and!; try done.
  - apply elem_of_app. right. apply (Hshown i' Hi').
    destruct (lookup_lt_is_Some_2 (futures b2) i') as [f Hf].
    { rewrite Hlen. by eapply lookup_lt_Some. }
    rewrite forallb_forall in Hall.
    assert (Hcol : is_collected f = true).
    { apply Hall. apply list_elem_of_In. by eapply list_elem_of_lookup_2. }
    by destruct f.
  - intros a c [Hin|Hin]%elem_of_app; [|by apply Huniq].
    rewrite Forall_forall in Hno. by destruct (Hno _ Hin).
Qed.

Lemma requery_shows_original_witness :
  ∃ l new,
    dict_get "ABCDEFGH12" (query_cache after_first_batch) = Some l ∧
    dict_get "ABCDEFGH12" (query_cache after_later_batch) = Some l ∧
    trace after_later_batch = new ++ trace after_first_batch ∧
    EvShow (JInt 2) (JInt 2) (JStr "ABCDEFGH12") ∈ new ∧
    ∀ a c, EvShow a c (JStr "ABCDEFGH12") ∈ new → a = JInt 2 ∧ c = JInt 2.
Proof.
  apply (requery_shows_original first_batch later_batch
           (λ _ _, found 30) (λ _ _, found 30) (λ _, Written) (λ _, Written)
           Written Written (one_by_one 2) (one_by_one 3)
           (initial NoFile) after_first_batch after_later_batch
           "ABCDEFGH12" 1 0).
  - intros k l Hk. discriminate Hk.
  - apply NoDup_cons_2; [|apply NoDup_singleton].
    intros Hin%list_elem_of_singleton. discriminate Hin.
  - reflexivity.
  - reflexivity.
  - vm_compute. reflexivity.
  - vm_compute. reflexivity.
  - reflexivity.
  - vm_compute. reflexivity.
Defined.

(** ** A batch runs to its end *)

Lemma handle_completion_futures `{Formatter} (io : nat → write_outcome)
    (res : option loc) (b : batch) :
  futures (handle_completion io res b) = futures b.
Proof.
  unfold handle_completion. destruct res as [l|]; [|done].
  by destruct (_ ≫= _) as [[[] k]|].
Qed.

Lemma can_begin_next (k m : nat) :
  can_begin k (replicate k Collected ++ replicate m Queued) = true.
Proof.
  unfold can_begin. apply andb_true_iff. split.
  - apply Nat.eqb_eq. rewrite filter_app, length_app.
    assert (filter (λ f, is_queued f = false) (replicate k Collected)
            = replicate k Collected) as ->.
    { induction k as [|k IH]; [done|]. simpl. rewrite filter_cons.
      case_decide; [by rewrite IH|done]. }
    assert (filter (λ f, is_queued f = false) (replicate m Queued) = []) as ->.
    { induction m as [|m IH]; [done|]. simpl. rewrite filter_cons.
      by case_decide. }
    rewrite length_replicate. simpl. lia.
  - apply Nat.ltb_lt. rewrite filter_app, length_app.
    assert (filter (λ f, is_running f = true) (replicate k Collected) = []) as ->.
    { induction k as [|k IH]; [done|]. simpl. rewrite filter_cons.
      by case_decide. }
    assert (filter (λ f, is_running f = true) (replicate m Queued) = []) as ->.
    { induction m as [|m IH]; [done|]. simpl. rewrite filter_cons.
      by case_decide. }
    unfold max_workers. simpl. lia.
Qed.

(** A call that can begin, then finishes and is collected. *)
Lemma three_steps `{Formatter} serials net io (b : batch) (k : nat)
    (s : string) :
  futures b !! k = Some Queued → serials !! k = Some s →
  can_begin k (futures b) = true →
  futures (step serials net io
             (step serials net io (step serials net io b (Begin k)) (Finish k))
             (Collect k)) = <[k := Collected]> (futures b).
Proof.
  intros Hq Hs Hcan.
  assert (Hlen : k < length (futures b)) by (by eapply lookup_lt_Some).
  unfold step at 3. rewrite Hq, Hs, Hcan.
  destruct (dict_get s (query_cache (bapp b))) as [l|].
  - unfold step at 2. cbn [futures set_future].
    rewrite list_lookup_insert_eq by done.
    unfold step. cbn [futures set_future].
    rewrite list_lookup_insert_eq by done.
    cbn [futures set_future]. rewrite handle_completion_futures.
    cbn [futures]. apply list_insert_insert_eq.
  - unfold step at 2. cbn [futures set_future].
    rewrite list_lookup_insert_eq by done. rewrite Hs.
    destruct (fetch_loop _ _ _ _ _ _) as [res st'].
    unfold step. cbn [futures set_future set_app].
    rewrite list_lookup_insert_eq by (by rewrite length_insert).
    cbn [futures set_future]. rewrite handle_completion_futures.
    cbn [futures set_future set_app]. by rewrite !list_insert_insert_eq.
Qed.

(** Running the calls one after the other collects them one by one. *)
Lemma one_by_one_futures `{Formatter} serials net io (st : app) (k : nat) :
  k ≤ length serials →
  futures (run serials net io (one_by_one k) st) =
  replicate k Collected ++ replicate (length serials - k) Queued.
Proof.
  unfold run, one_by_one. induction k as [|k IH]; intros Hk.
  - simpl. by rewrite Nat.sub_0_r.
  - rewrite seq_S, bind_app, foldl_app.
    change ([0 + k] ≫= _) with [Begin k; Finish k; Collect k].
    cbn [foldl].
    set (b := foldl _ _ _) in *. specialize (IH ltac:(lia)).
    destruct (lookup_lt_is_Some_2 serials k ltac:(lia)) as [s Hs].
    rewrite (three_steps serials net io b k s).
    + rewrite IH.
      replace (length serials - k) with (S (length serials - S k)) by lia.
      rewrite insert_app_r_alt by (rewrite length_replicate; lia).
      rewrite length_replicate, Nat.sub_diag. simpl.
      by rewrite app_comm_cons, replicate_cons_app, <-app_assoc.
    + rewrite IH, lookup_app_r by (rewrite length_replicate; lia).
      rewrite length_replicate, Nat.sub_diag.
      apply lookup_replicate. split; [done|lia].
    + done.
    + rewrite IH. apply can_begin_next.
Qed.

(** Whatever the serials, the service and the file system do, there is a
    schedule with which [execute_query] returns. *)
Lemma execute_query_returns `{Formatter} serials net io io_final (st : app) :
  is_Some (execute_query serials net io io_final
             (one_by_one (length serials)) st).
Proof.
  unfold execute_query.
  rewrite (one_by_one_futures serials net io st (length serials)) by done.
  rewrite Nat.sub_diag, app_nil_r.
  assert (forallb is_collected (replicate (length serials) Collected) = true)
    as ->; [|by eexists].
  induction (length serials) as [|n IH]; [done|]. simpl. apply IH.
Qed.

(** A worker that begins and finishes without interruption has run
    [query_with_retry] on the state it found. *)
Lemma worker_runs_query_with_retry `{Formatter} serials net io (b : batch)
    (i : nat) (s : string) :
  futures b !! i = Some Queued → serials !! i = Some s →
  can_begin i (futures b) = true →
  let b' := step serials net io (step serials net io b (Begin i)) (Finish i) in
  let out := query_with_retry (net i) s (Z.of_nat (S i))
               (Z.of_nat (length serials)) (bapp b) in
  futures b' = <[i := Done out.1]> (futures b) ∧ bapp b' = out.2.
Proof.
  intros Hq Hs Hcan.
  assert (Hlen : i < length (futures b)) by (by eapply lookup_lt_Some).
  cbv zeta. unfold query_with_retry. unfold step at 2 4.
  rewrite Hq, Hs, Hcan.
  destruct (dict_get s (query_cache (bapp b))) as [l|].
  - unfold step. cbn [futures set_future].
    by rewrite list_lookup_insert_eq by done.
  - unfold step. cbn [futures set_future bapp].
    rewrite list_lookup_insert_eq by done. rewrite Hs.
    destruct (fetch_loop _ _ _ _ _ _) as [res st'].
    cbn [futures set_future set_app bapp fst snd].
    by rewrite list_insert_insert_eq.
Qed.

(** With every lookup found at once, a batch of 250 writes the file three
    times: after the 100th and the 200th completion, and at the end. *)
Example checkpoints_all_found :
  saves ∘ trace <$>
    execute_query serials_250 (λ _ _, found 30) (λ _, Written) Written
      (one_by_one 250) (initial NoFile) = Some 3.
Proof. vm_compute. reflexivity. Qed.

(** * Further properties *)

Example parse_examples :
  parse_report "abcdefgh12, ABCDEFGH12
  short  PF1234567890	x-y-z-1234" =
  mkParsed ["ABCDEFGH12"; "PF1234567890"] ["short"; "x-y-z-1234"] ["ABCDEFGH12"]
  ∧ parse_report "  ,, 
 " = mkParsed [] [] []
  ∧ splitlines "a

b
" = ["a"; ""; "b"]
  ∧ re_split ",a,,b," = [""; "a"; "b"; ""].
Proof. vm_compute. repeat split. Qed.

(** ** Characters *)

Ltac each_char c := destruct c as [[] [] [] [] [] [] [] []]; vm_compute; try done.

Lemma alnum_not_sep (c : ascii) : is_alnum c = true → is_sep c = false.
Proof. each_char c. Qed.

Lemma upper_or_digit_alnum (c : ascii) :
  is_upper_or_digit c = true → is_alnum c = true.
Proof. each_char c. Qed.

Lemma upper_char_alnum (c : ascii) :
  is_alnum c = true → is_upper_or_digit (upper_char c) = true.
Proof. each_char c. Qed.

Lemma upper_char_fixed (c : ascii) :
  is_upper_or_digit c = true → upper_char c = c.
Proof. each_char c. Qed.

Lemma line_break_is_space (c : ascii) : is_line_break c = true → is_space c = true.
Proof. each_char c. Qed.

Lemma space_is_sep (c : ascii) : is_space c = true → is_sep c = true.
Proof. unfold is_sep. intros ->. apply orb_true_r. Qed.

Lemma all_chars_impl (p q : ascii → bool) (s : string) :
  (∀ c, p c = true → q c = true) → all_chars p s = true → all_chars q s = true.
Proof.
  intros Hpq. induction s as [|c s IH]; [done|]. simpl.
  intros [Hc Hs]%andb_true_iff. by rewrite (Hpq c Hc), IH.
Qed.

(** ** strip *)

Lemma lstrip_all_chars (p : ascii → bool) (s : string) :
  all_chars p s = true → all_chars p (lstrip s) = true.
Proof.
  induction s as [|c s IH]; [done|]. simpl.
  intros [Hc Hs]%andb_true_iff. destruct (is_space c); [by apply IH|].
  simpl. by rewrite Hc, Hs.
Qed.

Lemma rstrip_all_chars (p : ascii → bool) (s : string) :
  all_chars p s = true → all_chars p (rstrip s) = true.
Proof.
  induction s as [|c s IH]; [done|]. simpl.
  intros [Hc Hs]%andb_true_iff. specialize (IH Hs).
  destruct (rstrip s); [destruct (is_space c); simpl; by rewrite ?Hc|].
  simpl in *. by rewrite Hc, IH.
Qed.

Lemma strip_all_chars (p : ascii → bool) (s : string) :
  all_chars p s = true → all_chars p (strip s) = true.
Proof. intros Hs. by apply rstrip_all_chars, lstrip_all_chars. Qed.

Lemma lstrip_spaces (s : string) :
  all_chars is_space s = true → lstrip s = EmptyString.
Proof.
  induction s as [|c s IH]; [done|]. simpl.
  intros [-> Hs]%andb_true_iff. by apply IH.
Qed.

Lemma rstrip_no_space_end (s : string) :
  ends_with (λ c, negb (is_space c)) s = true → rstrip s = s.
Proof.
  induction s as [|c s IH]; [done|]. destruct s as [|c' s].
  - simpl. by intros ->%negb_true_iff.
  - intros Hend. change (ends_with _ (String c (String c' s)))
      with (ends_with (λ c, negb (is_space c)) (String c' s)) in Hend.
    specialize (IH Hend). cbn [rstrip] in *. by rewrite IH.
Qed.

Lemma strip_fixed (s : string) :
  all_chars (λ c, negb (is_space c)) s = true → strip s = s.
Proof.
  unfold strip. intros Hs.
  assert (lstrip s = s) as ->.
  { destruct s as [|c s]; [done|]. simpl in *.
    apply andb_true_iff in Hs as [->%negb_true_iff _]. done. }
  induction s as [|c s IH]; [done|]. simpl in Hs.
  apply andb_true_iff in Hs as [Hc%negb_true_iff Hs]. specialize (IH Hs).
  cbn [rstrip]. rewrite IH, Hc. by destruct s.
Qed.

(** ** Splitting *)

Lemma re_split_from_parts (s : string) : ∀ b,
  Forall (λ p, all_chars (λ c, negb (is_sep c)) p = true) (re_split_from b s).
Proof.
  induction s as [|c s IH]; intros b; simpl; [by repeat constructor|].
  destruct (is_sep c) eqn:Hc.
  - destruct b; [apply IH|]. constructor; [done|apply IH].
  - specialize (IH false). destruct (re_split_from false s) as [|p ps].
    + repeat constructor. simpl. by rewrite Hc.
    + apply Forall_cons in IH as [Hp Hps]. constructor; [|done].
      simpl. by rewrite Hc, Hp.
Qed.

(** A string without separators is its own only piece. *)
Lemma re_split_whole (s : string) :
  all_chars (λ c, negb (is_sep c)) s = true → re_split s = [s].
Proof.
  unfold re_split. induction s as [|c s IH]; [done|]. simpl.
  intros [Hc%negb_true_iff Hs]%andb_true_iff. by rewrite Hc, IH.
Qed.

(** A string of separators has only empty pieces. *)
Lemma re_split_from_seps (s : string) : ∀ b,
  all_chars is_sep s = true →
  Forall (λ p, p = EmptyString) (re_split_from b s).
Proof.
  induction s as [|c s IH]; intros b; simpl; [by repeat constructor|].
  intros [-> Hs]%andb_true_iff. destruct b; [by apply IH|].
  constructor; [done|by apply IH].
Qed.

Lemma splitlines_all_chars (p : ascii → bool) (s : string) :
  all_chars p s = true → Forall (λ l, all_chars p l = true) (splitlines s).
Proof.
  assert (Hgo : ∀ n s, String.length s ≤ n → all_chars p s = true →
            Forall (λ l, all_chars p l = true) (splitlines s)).
  { clear s. induction n as [|n IH]; intros [|c s] Hn Hs;
      try (by constructor); simpl in Hn; [lia|].
    simpl in Hs. apply andb_true_iff in Hs as [Hc Hs]. cbn [splitlines].
    destruct (is_line_break c).
    - constructor; [done|].
      assert (Hs' : Forall (λ l, all_chars p l = true) (splitlines s))
        by (apply IH; [lia|done]).
      destruct s as [|c' s]; [by destruct c as [[] [] [] [] [] [] [] []]|].
      assert (Hs'' : Forall (λ l, all_chars p l = true) (splitlines s)).
      { apply IH; [simpl in Hn; lia|]. simpl in Hs.
        by apply andb_true_iff in Hs as [_ ?]. }
      destruct c as [[] [] [] [] [] [] [] []]; try done.
      by destruct c' as [[] [] [] [] [] [] [] []].
    - assert (Hs' : Forall (λ l, all_chars p l = true) (splitlines s))
        by (apply IH; [lia|done]).
      destruct (splitlines s) as [|l ls].
      + repeat constructor. simpl. by rewrite Hc.
      + apply Forall_cons in Hs' as [Hl Hls]. constructor; [|done].
        simpl. by rewrite Hc, Hl. }
  by apply (Hgo (String.length s)).
Qed.

(** A string without line boundaries that is followed by a newline is the
    first line. *)
Lemma splitlines_first (s rest : string) :
  all_chars (λ c, negb (is_line_break c)) s = true →
  splitlines (s +:+ String "010" rest) = s :: splitlines rest.
Proof.
  induction s as [|c s IH]; [done|]. simpl.
  intros [Hc%negb_true_iff Hs]%andb_true_iff. by rewrite Hc, IH.
Qed.

Lemma splitlines_single (s : string) :
  s ≠ EmptyString →
  all_chars (λ c, negb (is_line_break c)) s = true → splitlines s = [s].
Proof.
  induction s as [|c s IH]; [done|]. intros _. simpl.
  intros [Hc%negb_true_iff Hs]%andb_true_iff. rewrite Hc.
  destruct s as [|c' s]; [done|]. by rewrite IH.
Qed.

(** ** The classification loops *)

Lemma unique_from_spec (result : list string) : ∀ u d,
  NoDup u →
  let out := unique_from result (u, d) in
  NoDup out.1 ∧
  (∃ u' d', out = (u ++ u', d ++ d') ∧ result ≡ₚ u' ++ d' ∧
            ∀ s, s ∈ d' → s ∈ u ++ u').
Proof.
  induction result as [|s result IH]; intros u d Hu; simpl.
  - split; [done|]. exists [], []. rewrite !app_nil_r. split_and!; [done..|].
    by intros s ?%elem_of_nil.
  - destruct (existsb (String.eqb s) u) eqn:Hs.
    + destruct (IH u (d ++ [s]) Hu) as (Hnd & u' & d' & Heq & Hperm & Hin).
      split; [done|]. exists u', (s :: d'). rewrite Heq, <-app_assoc.
      split_and!; [done| |].
      * rewrite Hperm. by rewrite Permutation_middle.
      * intros x [->|Hx]%elem_of_cons; [|by apply Hin].
        apply elem_of_app. left. apply existsb_exists in Hs as (y & Hy & Hxy).
        apply String.eqb_eq in Hxy as ->. by apply list_elem_of_In.
    + assert (Hfresh : s ∉ u).
      { intros Hin%list_elem_of_In. apply not_true_iff_false in Hs. apply Hs.
        apply existsb_exists. exists s. split; [done|apply String.eqb_refl]. }
      destruct (IH (u ++ [s]) d) as (Hnd & u' & d' & Heq & Hperm & Hin).
      { apply NoDup_app. split_and!; [done| |apply NoDup_singleton].
        by intros x Hx ->%list_elem_of_singleton. }
      split; [done|]. exists (s :: u'), d'. rewrite Heq, <-app_assoc.
      split_and!; [done| |].
      * by rewrite Hperm.
      * intros x Hx. specialize (Hin x Hx). by rewrite <-app_assoc in Hin.
Qed.

Lemma without_final_newline_cons (c c' : ascii) (s : string) :
  without_final_newline (String c (String c' s)) =
  String c <$> without_final_newline (String c' s).
Proof. by destruct c as [[] [] [] [] [] [] [] []]. Qed.

Lemma without_final_newline_sep (s t : string) :
  without_final_newline s = Some t →
  all_chars (λ c, negb (is_sep c)) s = false.
Proof.
  revert t. induction s as [|c s IH]; intros t; [done|].
  destruct s as [|c' s].
  - destruct c as [[] [] [] [] [] [] [] []]; done.
  - rewrite without_final_newline_cons. intros Ht.
    destruct (without_final_newline (String c' s)) as [t'|] eqn:Ht'; [|done].
    change (all_chars ?p (String c ?r)) with (p c && all_chars p r).
    rewrite (IH t' eq_refl). apply andb_false_r.
Qed.

Lemma matches_serial_part (s : string) :
  all_chars (λ c, negb (is_sep c)) s = true →
  matches_serial s = alnum_8_20 s.
Proof.
  intros Hs. unfold matches_serial.
  destruct (without_final_newline s) as [t|] eqn:Ht; [|apply orb_false_r].
  apply without_final_newline_sep in Ht. congruence.
Qed.

Lemma upper_length (s : string) : String.length (upper s) = String.length s.
Proof. induction s as [|c s IH]; [done|]. simpl. by rewrite IH. Qed.

Lemma upper_canonical (s : string) :
  alnum_8_20 s = true → canonical (upper s) = true.
Proof.
  unfold alnum_8_20, canonical. rewrite upper_length.
  intros [[Hs ->]%andb_true_iff ->]%andb_true_iff.
  rewrite !andb_true_r. induction s as [|c s IH]; [done|]. simpl in *.
  apply andb_true_iff in Hs as [Hc Hs]. by rewrite upper_char_alnum, IH.
Qed.

Lemma upper_fixed (s : string) :
  all_chars is_upper_or_digit s = true → upper s = s.
Proof.
  induction s as [|c s IH]; [done|]. simpl.
  intros [Hc Hs]%andb_true_iff. by rewrite upper_char_fixed, IH.
Qed.

Lemma canonical_alnum (s : string) : canonical s = true → alnum_8_20 s = true.
Proof.
  unfold alnum_8_20, canonical.
  intros [[Hs ->]%andb_true_iff ->]%andb_true_iff. rewrite !andb_true_r.
  by apply (all_chars_impl is_upper_or_digit), Hs; apply upper_or_digit_alnum.
Qed.

Lemma alnum_no_sep (s : string) :
  all_chars is_alnum s = true → all_chars (λ c, negb (is_sep c)) s = true.
Proof.
  apply all_chars_impl. intros c Hc. by rewrite (alnum_not_sep c Hc).
Qed.

Lemma no_sep_no_space (s : string) :
  all_chars (λ c, negb (is_sep c)) s = true →
  all_chars (λ c, negb (is_space c)) s = true.
Proof.
  apply all_chars_impl. intros c Hc. destruct (is_space c) eqn:Hsp; [|done].
  by rewrite (space_is_sep c Hsp) in Hc.
Qed.

Lemma sorted_out_refl acc : sorted_out acc acc.
Proof. exists [], []. rewrite !app_nil_r. by destruct acc. Qed.

Lemma sorted_out_trans acc1 acc2 acc3 :
  sorted_out acc1 acc2 → sorted_out acc2 acc3 → sorted_out acc1 acc3.
Proof.
  intros (g1 & b1 & -> & Hg1 & Hb1) (g2 & b2 & -> & Hg2 & Hb2).
  exists (g1 ++ g2), (b1 ++ b2). simpl. rewrite !app_assoc.
  split_and!; [done|by apply Forall_app..].
Qed.

Lemma scan_parts_spec (parts : list string) : ∀ acc,
  Forall (λ p, all_chars (λ c, negb (is_sep c)) p = true) parts →
  sorted_out acc (scan_parts parts acc).
Proof.
  induction parts as [|p parts IH]; intros acc Hparts; [apply sorted_out_refl|].
  apply Forall_cons in Hparts as [Hp Hparts]. cbn [scan_parts].
  rewrite (strip_fixed p) by (by apply no_sep_no_space).
  destruct (String.eqb_spec p EmptyString) as [->|Hne]; [by apply IH|].
  destruct (matches_serial p) eqn:Hm; (eapply sorted_out_trans; [|by apply IH]).
  - exists [upper p], []. rewrite app_nil_r. split_and!; [done| |done].
    repeat constructor. apply upper_canonical.
    by rewrite <-matches_serial_part.
  - exists [], [p]. rewrite app_nil_r. split_and!; [done..|].
    by repeat constructor.
Qed.

Lemma scan_items_spec (items : list string) : ∀ acc,
  sorted_out acc (scan_items items acc).
Proof.
  induction items as [|item items IH]; intros acc; [apply sorted_out_refl|].
  cbn [scan_items]. eapply sorted_out_trans; [|apply IH].
  apply scan_parts_spec, re_split_from_parts.
Qed.

(** ** parse_serial_numbers *)

(** X1. Every serial that [parse_serial_numbers] returns has 8 to 20
    characters, each an uppercase letter or a digit; every string listed
    as invalid is non-empty and fails the pattern. *)
Theorem parse_serials_classified (text : string) :
  Forall (λ s, canonical s = true) (parse_serial_numbers text) ∧
  Forall (λ s, s ≠ EmptyString ∧ matches_serial s = false)
    (invalid_serials (parse_report text)).
Proof.
  unfold parse_serial_numbers, parse_report.
  destruct (String.eqb (strip text) EmptyString); [by split|].
  cbn [unique_result invalid_serials].
  destruct (scan_items_spec (splitlines (strip text)) ([], []))
    as (good & bad & Heq & Hgood & Hbad).
  rewrite Heq. cbn [fst snd] in *. simpl. split; [|done].
  destruct (unique_from_spec good [] [] (NoDup_nil_2))
    as (_ & u & d & -> & Hperm & _).
  simpl. rewrite Hperm in Hgood. by apply Forall_app in Hgood as [? _].
Qed.

(** X2. The returned list has no repetition; the valid tokens of the
    text are the returned serials together with the reported duplicates,
    and each reported duplicate is one of the returned serials. *)
Theorem parse_serials_distinct (text : string) :
  let report := parse_report text in
  NoDup (unique_result report) ∧
  (scan_items (splitlines (strip text)) ([], [])).1
    ≡ₚ unique_result report ++ duplicates report ∧
  Forall (λ s, s ∈ unique_result report) (duplicates report).
Proof.
  unfold parse_report.
  destruct (String.eqb_spec (strip text) EmptyString) as [->|_].
  { simpl. split_and!; [constructor|done|constructor]. }
  cbn [unique_result duplicates].
  destruct (unique_from_spec
              (scan_items (splitlines (strip text)) ([], [])).1 [] []
              (NoDup_nil_2)) as (Hnd & u & d & Heq & Hperm & Hin).
  rewrite Heq in *. simpl in *. split_and!; [done..|].
  by apply Forall_forall.
Qed.

Lemma canonical_facts (s : string) :
  canonical s = true →
  s ≠ EmptyString ∧
  all_chars is_upper_or_digit s = true ∧
  all_chars (λ c, negb (is_sep c)) s = true ∧
  alnum_8_20 s = true.
Proof.
  intros Hs. pose proof (canonical_alnum s Hs) as Ha. pose proof Ha as Ha'.
  unfold canonical in Hs. unfold alnum_8_20 in Ha.
  apply andb_true_iff in Hs as [[Hu Hlen%Nat.leb_le]%andb_true_iff _].
  apply andb_true_iff in Ha as [[Hal _]%andb_true_iff _].
  split_and!; [|done|by apply alnum_no_sep|done].
  intros ->. simpl in Hlen. lia.
Qed.

Lemma ends_with_app (p : ascii → bool) (a b : string) :
  b ≠ EmptyString → ends_with p (a +:+ b) = ends_with p b.
Proof.
  intros Hb. induction a as [|c a IH]; [done|].
  change (String c a +:+ b) with (String c (a +:+ b)).
  destruct (a +:+ b) as [|c' r] eqn:Hab.
  - destruct a; [by subst|done].
  - by rewrite <-IH.
Qed.

Lemma ends_with_all (p : ascii → bool) (s : string) :
  s ≠ EmptyString → all_chars p s = true → ends_with p s = true.
Proof.
  induction s as [|c s IH]; [done|]. intros _. simpl.
  intros [Hc Hs]%andb_true_iff. destruct s as [|c' s]; [done|]. by apply IH.
Qed.

Lemma join_lines_cons (s s' : string) (l : list string) :
  join_lines (s :: s' :: l) = s +:+ String "010" (join_lines (s' :: l)).
Proof. done. Qed.

Lemma join_lines_strip (l : list string) :
  Forall (λ s, canonical s = true) l → strip (join_lines l) = join_lines l.
Proof.
  intros Hl. destruct l as [|s l]; [done|].
  apply Forall_cons in Hl as [Hs Hl].
  destruct (canonical_facts s Hs) as (Hne & _ & Hsep & _).
  unfold strip.
  assert (lstrip (join_lines (s :: l)) = join_lines (s :: l)) as ->.
  { destruct s as [|c s]; [done|]. simpl in Hsep.
    apply andb_true_iff in Hsep as [Hc _].
    assert (Hsp : is_space c = false).
    { destruct (is_space c) eqn:E; [|done]. by rewrite (space_is_sep c E) in Hc. }
    destruct l as [|s' l]; simpl; by rewrite Hsp. }
  apply rstrip_no_space_end.
  revert s Hs Hne Hsep. induction l as [|s' l IH]; intros s Hs Hne Hsep.
  - simpl. apply ends_with_all; [done|by apply no_sep_no_space].
  - apply Forall_cons in Hl as [Hs' Hl].
    destruct (canonical_facts s' Hs') as (Hne' & _ & Hsep' & _).
    rewrite join_lines_cons.
    rewrite ends_with_app by done.
    change (ends_with ?p (String "010" ?r)) with
      (match r with EmptyString => p "010"%char | _ => ends_with p r end).
    specialize (IH Hl s' Hs' Hne' Hsep').
    by destruct (join_lines (s' :: l)).
Qed.

Lemma join_lines_split (l : list string) :
  Forall (λ s, canonical s = true) l → splitlines (join_lines l) = l.
Proof.
  intros Hl. induction l as [|s l IH]; [done|].
  apply Forall_cons in Hl as [Hs Hl].
  destruct (canonical_facts s Hs) as (Hne & _ & Hsep & _).
  assert (Hbr : all_chars (λ c, negb (is_line_break c)) s = true).
  { apply (all_chars_impl (λ c, negb (is_sep c))); [|done]. intros c Hc.
    destruct (is_line_break c) eqn:E; [|done].
    by rewrite (space_is_sep c (line_break_is_space c E)) in Hc. }
  destruct l as [|s' l]; [by apply splitlines_single|].
  by rewrite join_lines_cons, splitlines_first, IH.
Qed.

Lemma scan_items_canonical (l : list string) : ∀ acc,
  Forall (λ s, canonical s = true) l →
  scan_items l acc = (acc.1 ++ l, acc.2).
Proof.
  induction l as [|s l IH]; intros acc Hl.
  - simpl. rewrite app_nil_r. by destruct acc.
  - apply Forall_cons in Hl as [Hs Hl].
    destruct (canonical_facts s Hs) as (Hne & Hup & Hsep & Hal).
    cbn [scan_items].
    rewrite (strip_fixed s) by (by apply no_sep_no_space).
    rewrite re_split_whole by done. cbn [scan_parts].
    rewrite (strip_fixed s) by (by apply no_sep_no_space).
    destruct (String.eqb_spec s EmptyString) as [?|_]; [done|].
    rewrite matches_serial_part, Hal, upper_fixed by done.
    rewrite IH by done. simpl. by rewrite <-app_assoc.
Qed.

Lemma unique_from_distinct (l : list string) : ∀ u d,
  NoDup (u ++ l) → unique_from l (u, d) = (u ++ l, d).
Proof.
  induction l as [|s l IH]; intros u d Hnd.
  - simpl. by rewrite app_nil_r.
  - cbn [unique_from fst snd].
    assert (Hs : existsb (String.eqb s) u = false).
    { apply not_true_iff_false. intros (y & Hy & ->%String.eqb_eq)%existsb_exists.
      apply NoDup_app in Hnd as (_ & Hdis & _).
      apply (Hdis y); [by apply list_elem_of_In|left]. }
    rewrite Hs, IH; [by rewrite <-app_assoc|].
    by rewrite <-app_assoc.
Qed.

Lemma parse_report_joined (l : list string) :
  Forall (λ s, canonical s = true) l →
  NoDup l →
  parse_report (join_lines l) = mkParsed l [] [].
Proof.
  intros Hl Hnd. unfold parse_report.
  rewrite join_lines_strip by done.
  destruct (String.eqb_spec (join_lines l) EmptyString) as [Hempty|_].
  - destruct l as [|s l]; [done|]. exfalso.
    apply Forall_cons in Hl as [Hs _].
    destruct (canonical_facts s Hs) as (Hne & _).
    destruct l; destruct s; done.
  - rewrite join_lines_split, scan_items_canonical by done.
    cbn [fst snd]. by rewrite unique_from_distinct.
Qed.

(** X3. Serials in canonical form, pairwise distinct and joined by
    newlines are parsed back as that same list, with nothing invalid and
    no duplicate: parsing is the identity on what it returns. *)
Theorem parse_joined_serials (l : list string) :
  Forall (λ s, canonical s = true) l →
  NoDup l →
  parse_report (join_lines l) = mkParsed l [] [].
Proof. apply parse_report_joined. Qed.

Lemma parse_joined_serials_witness :
  parse_report (join_lines ["ABCDEFGH12"; "PF100001"]) =
  mkParsed ["ABCDEFGH12"; "PF100001"] [] [].
Proof.
  apply (parse_joined_serials ["ABCDEFGH12"; "PF100001"]).
  - repeat constructor.
  - apply NoDup_cons_2; [|apply NoDup_singleton].
    intros Hin%list_elem_of_singleton. discriminate Hin.
Defined.

(** X4. A text made only of commas and whitespace, the empty text
    included, gives no serial and nothing to warn about. *)
Theorem parse_blank (text : string) :
  all_chars is_sep text = true →
  parse_report text = mkParsed [] [] [].
Proof.
  intros Htext. unfold parse_report.
  destruct (String.eqb (strip text) EmptyString); [done|].
  assert (Hlines : Forall (λ l, all_chars is_sep l = true)
                     (splitlines (strip text)))
    by (by apply splitlines_all_chars, strip_all_chars).
  assert (Hscan : scan_items (splitlines (strip text)) ([], []) = ([], [])).
  { generalize ([] : list string, [] : list string).
    induction Hlines as [|item items Hitem _ IH]; intros acc; [done|].
    cbn [scan_items]. rewrite <-IH. f_equal.
    pose proof (re_split_from_seps (strip item) false
                  (strip_all_chars _ _ Hitem)) as Hparts.
    unfold re_split. induction Hparts as [|p ps -> _ IHp]; [done|].
    by cbn [scan_parts]. }
  by rewrite Hscan.
Qed.

Lemma parse_blank_witness :
  parse_report " ,	,
 , " = mkParsed [] [] [].
Proof. apply parse_blank. reflexivity. Defined.

(** ** query_with_retry, further *)

Lemma concat_replicate_end {A : Type} (n : nat) (x : list A) :
  concat (replicate n x) ++ x = x ++ concat (replicate n x).
Proof.
  induction n as [|n IH]; simpl; [by rewrite app_nil_r|].
  by rewrite <-app_assoc, IH.
Qed.

(** X5. When the serial is not cached and attempt [k] is the first to get
    a document with status 200, [query_with_retry] makes [k + 1] requests
    with a pause after each of the first [k], asks for nothing more, and
    returns a new success result that holds the document as received, has
    [retry_count = k], and is from then on the cache entry of the serial. *)
Theorem query_with_retry_found `{Formatter} (resp : nat → response)
    (serial : string) (index total : Z) (k : nat) (doc : json) (st : app) :
  dict_get serial (query_cache st) = None →
  (∀ n, n < k → failure_reason (resp n) ≠ None) →
  attempt_of (resp k) = Ok200 doc →
  k ≤ max_retries st →
  query_with_retry resp serial index total st =
  (Some (length (heap st)),
   mkApp (heap st ++ [mkQueryResult (JStr serial) (JInt index) (JInt total)
                        (JBool true) doc (JInt (Z.of_nat k))
                        (JInt 0) (JInt 0) (JInt 0)])
         (dict_set serial (length (heap st)) (query_cache st))
         (query_results st) (max_retries st) (results_file st)
         (EvGet serial :: concat (replicate k [EvSleep; EvGet serial]) ++
          trace st)).
Proof.
  intros Hmiss Hfail Hok Hk. unfold query_with_retry. rewrite Hmiss.
  pose proof (log_retries_frame serial k st) as (Hh & Hc & Hr & Hm & Hf).
  replace (max_retries st + 1) with (k + S (max_retries st - k)) by lia.
  rewrite (fetch_loop_skip resp serial index total k 0) by
    (first [intros; apply Hfail; lia | lia]).
  cbn [Nat.add seq].
  rewrite (fetch_loop_ok resp serial index total k _ doc) by done.
  by rewrite Hh, Hc, Hr, Hm, Hf, log_retries_trace.
Qed.

Lemma query_with_retry_found_witness :
  query_with_retry second_try "ABCDEFGH12" 3 7 (initial NoFile) =
  (Some 0,
   mkApp [mkQueryResult (JStr "ABCDEFGH12") (JInt 3) (JInt 7) (JBool true)
            (payload [("warranty", JList [entry 30])]) (JInt 1)
            (JInt 0) (JInt 0) (JInt 0)]
         [("ABCDEFGH12", 0)] [] 2 NoFile
         [EvGet "ABCDEFGH12"; EvSleep; EvGet "ABCDEFGH12"]).
Proof.
  apply (query_with_retry_found second_try "ABCDEFGH12" 3 7 1
           (payload [("warranty", JList [entry 30])]) (initial NoFile)).
  - reflexivity.
  - intros n Hn. assert (n = 0) as -> by lia. discriminate.
  - reflexivity.
  - simpl. lia.
Defined.

(** The loop from attempt [a] on, with [n] attempts left after it. *)
Lemma fetch_loop_bounded `{Formatter} (resp : nat → response)
    (serial : string) (index total : Z) (n : nat) : ∀ a st,
  a + n = max_retries st →
  ∃ k r,
    k ≤ n ∧ retry_count r = JInt (Z.of_nat (a + k)) ∧
    (fetch_loop resp serial index total (seq a (S n)) st).1
      = Some (length (heap st)) ∧
    heap (fetch_loop resp serial index total (seq a (S n)) st).2
      = heap st ++ [r] ∧
    trace (fetch_loop resp serial index total (seq a (S n)) st).2
      = EvGet serial :: concat (replicate k [EvSleep; EvGet serial]) ++ trace st.
Proof.
  induction n as [|n IH]; intros a st Ha.
  - cbn [seq fetch_loop].
    assert (Hlt : (a <? max_retries (log (EvGet serial) st))%nat = false)
      by (apply Nat.ltb_ge; simpl; lia).
    rewrite Hlt. exists 0. rewrite Nat.add_0_r.
    destruct (attempt_of (resp a)); simpl; eexists;
      (split_and!; [lia| |reflexivity..]); reflexivity.
  - change (seq a (S (S n))) with (a :: seq (S a) (S n)). cbn [fetch_loop].
    assert (Hlt : (a <? max_retries (log (EvGet serial) st))%nat = true)
      by (apply Nat.ltb_lt; simpl; lia).
    rewrite Hlt.
    destruct (IH (S a) (log EvSleep (log (EvGet serial) st)))
      as (k & r & Hk & Hr & Hres & Hheap & Htrace); [simpl; lia|].
    destruct (attempt_of (resp a)).
    + exists 0. rewrite Nat.add_0_r. simpl. eexists.
      (split_and!; [lia| |reflexivity..]); reflexivity.
    + exists (S k), r. rewrite Hres, Hheap, Htrace.
      split_and!; [lia| |done..|].
      * rewrite Hr. do 2 f_equal. lia.
      * cbn [trace log]. change (EvSleep :: EvGet serial :: trace st)
          with ([EvSleep; EvGet serial] ++ trace st).
        by rewrite app_assoc, concat_replicate_end.
    + exists (S k), r. rewrite Hres, Hheap, Htrace.
      split_and!; [lia| |done..|].
      * rewrite Hr. do 2 f_equal. lia.
      * cbn [trace log]. change (EvSleep :: EvGet serial :: trace st)
          with ([EvSleep; EvGet serial] ++ trace st).
        by rewrite app_assoc, concat_replicate_end.
Qed.

(** X6. Whatever the service answers, a call for a serial that is not
    cached returns a result: it makes between 1 and [max_retries + 1]
    requests, pauses exactly between consecutive requests, and creates one
    object, whose [retry_count] is the number of pauses. *)
Theorem query_with_retry_bounded `{Formatter} (resp : nat → response)
    (serial : string) (index total : Z) (st : app) :
  dict_get serial (query_cache st) = None →
  ∃ k r,
    k ≤ max_retries st ∧ retry_count r = JInt (Z.of_nat k) ∧
    (query_with_retry resp serial index total st).1
      = Some (length (heap st)) ∧
    heap (query_with_retry resp serial index total st).2 = heap st ++ [r] ∧
    trace (query_with_retry resp serial index total st).2
      = EvGet serial :: concat (replicate k [EvSleep; EvGet serial]) ++ trace st.
Proof.
  intros Hmiss. unfold query_with_retry. rewrite Hmiss, Nat.add_1_r.
  by apply (fetch_loop_bounded resp serial index total (max_retries st) 0 st).
Qed.

Lemma query_with_retry_bounded_witness :
  ∃ k r,
    k ≤ 2 ∧ retry_count r = JInt (Z.of_nat k) ∧
    (query_with_retry (λ _, busy) "ABCDEFGH12" 1 1 (initial NoFile)).1
      = Some 0 ∧
    heap (query_with_retry (λ _, busy) "ABCDEFGH12" 1 1 (initial NoFile)).2
      = [] ++ [r] ∧
    trace (query_with_retry (λ _, busy) "ABCDEFGH12" 1 1 (initial NoFile)).2
      = EvGet "ABCDEFGH12" ::
        concat (replicate k [EvSleep; EvGet "ABCDEFGH12"]) ++ [].
Proof.
  apply (query_with_retry_bounded (λ _, busy) "ABCDEFGH12" 1 1 (initial NoFile)).
  reflexivity.
Defined.

(** ** _update_result_display, further *)

(** X7. Displaying a result a second time leaves every object as the
    first display left it: the counters are recomputed to the same
    values. *)
Theorem display_twice (l : loc) (st : app) :
  heap (_update_result_display l (_update_result_display l st)) =
  heap (_update_result_display l st).
Proof.
  unfold _update_result_display at 2 3.
  destruct (heap st !! l) as [r|] eqn:Hl.
  2: { unfold _update_result_display. by rewrite Hl. }
  destruct (py_truthy (success r)) eqn:Hok.
  2: { unfold _update_result_display. cbn [heap log]. by rewrite Hl, Hok. }
  destruct (py_getitem (data r) "statusCode") as [msg|status] eqn:Hst.
  { unfold _update_result_display. cbn [heap log]. by rewrite Hl, Hok, Hst. }
  destruct (py_eq_int status 200) eqn:H200.
  2: { unfold _update_result_display. cbn [heap log].
       by rewrite Hl, Hok, Hst, H200. }
  destruct (service_counts (data r)) as [[v e]|] eqn:Hcounts.
  2: { unfold _update_result_display. cbn [heap log].
       by rewrite Hl, Hok, Hst, H200, Hcounts. }
  unfold _update_result_display. cbn [heap log set_heap].
  rewrite list_lookup_insert_eq by (by eapply lookup_lt_Some).
  cbn [assign_counts success data index total serial].
  rewrite Hok, Hst, H200, Hcounts. cbn [heap set_heap].
  by rewrite list_insert_insert_eq.
Qed.

Lemma count_items_fails (items : list json) : ∀ v e,
  mapM days_remaining items = None → count_items items v e = None.
Proof.
  induction items as [|item items IH]; intros v e; [done|].
  cbn [count_items]. intros Hnone.
  destruct (days_remaining item) as [d|] eqn:Hd.
  - destruct item as [| | | | | |fields]; try done. simpl in Hd.
    cbn [py_get]. simpl. rewrite Hd. simpl.
    assert (Hrest : mapM days_remaining items = None).
    { destruct (mapM days_remaining items) as [ds|] eqn:Hds; [|done].
      exfalso. assert (Hsome : mapM days_remaining (JObj fields :: items)
                               = Some (d :: ds)).
      { apply mapM_Some. constructor; [done|by apply mapM_Some]. }
      congruence. }
    destruct (d >? 0)%Z; by apply IH.
  - destruct item as [| | | | | |fields]; try done. simpl in Hd.
    cbn [py_get]. simpl. by rewrite Hd.
Qed.

Lemma count_services_fails (groups : list (string * json))
    (types : list string) : ∀ (itemss : list (list json)) (v e : Z),
  mapM (group_items groups) types = Some itemss →
  mapM days_remaining (concat itemss) = None →
  count_services (JObj groups) types v e = None.
Proof.
  induction types as [|tag types IH]; intros itemss v e Hgroups Hnone.
  - injection Hgroups as <-. done.
  - apply mapM_Some in Hgroups.
    apply Forall2_cons_inv_l in Hgroups as (items & itemss' & Hg & Hrest & ->).
    apply mapM_Some in Hrest. simpl in Hnone.
    cbn [count_services py_contains]. unfold dict_mem, group_items in *.
    simpl. destruct (dict_get tag groups) as [g|] eqn:Hget; simpl.
    + destruct g; try done. injection Hg as ->. simpl.
      destruct (mapM days_remaining items) as [d1|] eqn:H1.
      * rewrite (count_items_spec items d1) by done. simpl.
        apply (IH itemss'); [done|].
        destruct (mapM days_remaining (concat itemss')) as [d2|] eqn:H2; [|done].
        exfalso. assert (Hsome : mapM days_remaining (items ++ concat itemss')
                                 = Some (d1 ++ d2)).
        { apply mapM_Some, Forall2_app; by apply mapM_Some. }
        congruence.
      * by rewrite count_items_fails.
    + injection Hg as <-. by apply (IH itemss').
Qed.

(** X8. When the payload of a successful result has its groups filed as
    lists under the service types but one entry carries a days-remaining
    value that [int()] rejects (or is not a dict), the display leaves the
    heap as it is: no counter of that result is assigned. *)
Theorem display_bad_entry (st : app) (l : loc) (r : QueryResult)
    (top d groups : list (string * json)) (itemss : list (list json)) :
  heap st !! l = Some r →
  is_success r = Some true →
  data r = JObj top →
  dict_get "data" top = Some (JObj d) →
  dict_get "detailinfo" d = Some (JObj groups) →
  mapM (group_items groups) service_types = Some itemss →
  mapM days_remaining (concat itemss) = None →
  heap (_update_result_display l st) = heap st.
Proof.
  intros Hl Hok Hdata Htop Hd Hgroups Hnone.
  unfold _update_result_display, is_success in *. rewrite Hl.
  destruct (py_truthy (success r)); [|done].
  destruct (py_getitem (data r) "statusCode") as [|status]; [done|].
  injection Hok as ->.
  assert (service_counts (data r) = None) as ->; [|done].
  unfold service_counts. rewrite Hdata. cbn [py_getitem]. rewrite Htop.
  cbn [py_get]. rewrite Hd. simpl.
  by apply (count_services_fails groups service_types itemss).
Qed.

Lemma display_bad_entry_witness :
  let bad := payload [("warranty", JList [entry 30;
                         JObj [("DateDifference", JStr (String "031" "5"))]])] in
  let st := (query_with_retry (λ _, Decodes bad) "ABCDEFGH12" 1 1
               (initial NoFile)).2 in
  heap (_update_result_display 0 st) = heap st.
Proof.
  apply (display_bad_entry _ 0
           (new_result "ABCDEFGH12" 1 1 true
              (payload [("warranty", JList [entry 30;
                          JObj [("DateDifference", JStr (String "031" "5"))]])]) 0)
           [("statusCode", JInt 200);
            ("data", JObj [("detailinfo", JObj [("warranty", JList [entry 30;
                          JObj [("DateDifference", JStr (String "031" "5"))]])])])]
           [("detailinfo", JObj [("warranty", JList [entry 30;
                          JObj [("DateDifference", JStr (String "031" "5"))]])])]
           [("warranty", JList [entry 30;
                          JObj [("DateDifference", JStr (String "031" "5"))]])]
           [[entry 30; JObj [("DateDifference", JStr (String "031" "5"))]]; []; []]);
    reflexivity.
Defined.

Lemma count_services_tags (groups groups' : list (string * json))
    (types : list string) : ∀ v e,
  Forall (λ t, dict_get t groups' = dict_get t groups) types →
  count_services (JObj groups') types v e
  = count_services (JObj groups) types v e.
Proof.
  induction types as [|tag types IH]; intros v e Htags; [done|].
  apply Forall_cons in Htags as [Htag Htags].
  cbn [count_services py_contains py_getitem]. unfold dict_mem.
  rewrite Htag. simpl. destruct (dict_get tag groups) as [g|]; simpl.
  - destruct (py_iter g) as [items|]; simpl; [|done].
    destruct (count_items items v e) as [[v' e']|]; simpl; [|done].
    by apply IH.
  - by apply IH.
Qed.

(** X9. The counters depend only on what is filed under 'warranty',
    'onsite' and 'other': two payloads whose detail groups agree on these
    three tags get the same counters, whatever else they file. *)
Theorem service_counts_other_tags (groups groups' : list (string * json)) :
  Forall (λ t, dict_get t groups' = dict_get t groups) service_types →
  service_counts (payload groups') = service_counts (payload groups).
Proof.
  intros Htags.
  change (count_services (JObj groups') service_types 0 0
          = count_services (JObj groups) service_types 0 0).
  by apply count_services_tags.
Qed.

Lemma service_counts_other_tags_witness :
  service_counts (payload [("extended", JList [entry 99]);
                           ("warranty", JList [entry (-5)])]) =
  service_counts (payload [("warranty", JList [entry (-5)])]).
Proof.
  apply (service_counts_other_tags [("warranty", JList [entry (-5)])]
           [("extended", JList [entry 99]); ("warranty", JList [entry (-5)])]).
  repeat constructor.
Defined.

(** ** clear_all and load_previous_results, further *)

(** X10. [clear_all] empties the store and removes the file, so that a
    load finds nothing; it leaves the cache alone: a serial that was cached
    is still answered from the cache afterwards, with its old result and
    without a request. *)
Theorem clear_all_keeps_cache `{Formatter} (st : app) (serial : string)
    (l : loc) (resp : nat → response) (index total : Z) :
  dict_get serial (query_cache st) = Some l →
  query_results (clear_all st) = [] ∧
  results_file (clear_all st) = NoFile ∧
  query_results (load_previous_results (clear_all st)) = [] ∧
  heap (load_previous_results (clear_all st)) = heap st ∧
  query_with_retry resp serial index total (clear_all st)
    = (Some l, clear_all st).
Proof.
  intros Hget. split_and!; try done.
  unfold query_with_retry. cbn [clear_all query_cache set_file set_results].
  by rewrite Hget.
Qed.

Lemma clear_all_keeps_cache_witness :
  query_results (clear_all after_first_batch) = [] ∧
  results_file (clear_all after_first_batch) = NoFile ∧
  query_results (load_previous_results (clear_all after_first_batch)) = [] ∧
  heap (load_previous_results (clear_all after_first_batch))
    = heap after_first_batch ∧
  query_with_retry (λ _, timeout) "ABCDEFGH12" 1 1 (clear_all after_first_batch)
    = (Some 1, clear_all after_first_batch).
Proof.
  apply (clear_all_keeps_cache after_first_batch "ABCDEFGH12" 1
           (λ _, timeout) 1 1).
  vm_compute. reflexivity.
Defined.

(** X11. Loading a document whose entries all turn into results and
    whose keys are distinct replaces the store by exactly these entries, in
    document order, each bound to a new object built from its entry; the
    objects that existed and the cache are left as they were. *)
Theorem load_readable_document (st : app) (entries : list (string * json))
    (rs : list QueryResult) :
  Forall2 (λ e r, from_dict e.2 = Some r) entries rs →
  NoDup entries.*1 →
  let st' := load_previous_results (set_file (Doc (JObj entries)) st) in
  heap st' = heap st ++ rs ∧
  query_results st' =
    zip entries.*1 (seq (length (heap st)) (length entries)) ∧
  query_cache st' = query_cache st ∧
  ∀ i k e, entries !! i = Some (k, e) →
    ∃ r, dict_get k (query_results st') = Some (length (heap st) + i) ∧
         heap st' !! (length (heap st) + i) = Some r ∧
         from_dict e = Some r.
Proof.
  intros Hrs Hnd. unfold load_previous_results.
  cbn [results_file set_results set_file].
  match goal with |- context [load_entries entries ?s] => set (st0 := s) end.
  destruct (load_entries_spec entries rs st0 Hrs) as [Hh Hs]; [done|].
  destruct (load_entries_frame entries st0) as (Hc & _).
  subst st0.
  cbn [heap query_results query_cache set_results set_file] in Hh, Hs, Hc.
  csimpl in Hs. cbv zeta. rewrite Hh, Hs, Hc. split_and!; try done.
  intros i k e Hi.
  destruct (Forall2_lookup_l _ _ _ _ _ Hrs Hi) as (r & Hri & Hr).
  exists r. split_and!; [|rewrite lookup_app_r by lia|done].
  - apply dict_elem_get.
    + unfold dict_keys. rewrite fst_zip; [done|].
      by rewrite length_seq, length_fmap.
    + apply list_elem_of_lookup. exists i.
      apply lookup_zip_with_Some. exists k, (length (heap st) + i).
      split_and!; [done| |].
      * by rewrite list_lookup_fmap, Hi.
      * apply lookup_seq. split; [done|]. by eapply lookup_lt_Some.
  - by replace (length (heap st) + i - length (heap st)) with i by lia.
Qed.

Lemma load_readable_document_witness :
  let entries := [("AAAAAAAA", stored "AAAAAAAA");
                  ("CCCCCCCC", stored "CCCCCCCC")] in
  let rs := [new_result "AAAAAAAA" 1 1 true (payload []) 0;
             new_result "CCCCCCCC" 1 1 true (payload []) 0] in
  let st := after_second_try in
  let st' := load_previous_results (set_file (Doc (JObj entries)) st) in
  heap st' = heap st ++ rs ∧
  query_results st' = zip entries.*1 (seq (length (heap st)) (length entries)) ∧
  query_cache st' = query_cache st ∧
  ∀ i k e, entries !! i = Some (k, e) →
    ∃ r, dict_get k (query_results st') = Some (length (heap st) + i) ∧
         heap st' !! (length (heap st) + i) = Some r ∧
         from_dict e = Some r.
Proof.
  apply (load_readable_document after_second_try
           [("AAAAAAAA", stored "AAAAAAAA"); ("CCCCCCCC", stored "CCCCCCCC")]
           [new_result "AAAAAAAA" 1 1 true (payload []) 0;
            new_result "CCCCCCCC" 1 1 true (payload []) 0]).
  - repeat constructor.
  - apply NoDup_cons_2; [|apply NoDup_singleton].
    intros Hin%list_elem_of_singleton. discriminate Hin.
Defined.

(** ** Whole batches *)

Lemma gets_cons (e : event) (t : list event) :
  gets (e :: t) = (match e with EvGet _ => 1 | _ => 0 end) + gets t.
Proof. unfold gets. rewrite filter_cons. destruct e; by case_decide. Qed.

Lemma sleeps_cons (e : event) (t : list event) :
  sleeps (e :: t) = (match e with EvSleep => 1 | _ => 0 end) + sleeps t.
Proof. unfold sleeps. rewrite filter_cons. destruct e; by case_decide. Qed.

Lemma shows_cons (e : event) (t : list event) :
  shows (e :: t) = (match e with EvShow _ _ _ => 1 | _ => 0 end) + shows t.
Proof. unfold shows. rewrite filter_cons. destruct e; by case_decide. Qed.

Lemma quiet_app (evs t : list event) :
  Forall is_quiet evs →
  gets (evs ++ t) = gets t ∧ sleeps (evs ++ t) = sleeps t.
Proof.
  induction 1 as [|e evs He _ [IH1 IH2]]; [done|]. simpl.
  rewrite gets_cons, sleeps_cons, IH1, IH2. by destruct e.
Qed.

Lemma shows_app (evs t : list event) :
  Forall (λ e, ¬ is_show e) evs → shows (evs ++ t) = shows t.
Proof.
  induction 1 as [|e evs He _ IH]; [done|]. simpl.
  rewrite shows_cons, IH. destruct e; simpl in *; tauto.
Qed.

(** What the completion side logs is quiet. *)
Lemma display_quiet (l : loc) (st : app) :
  ∃ evs, trace (_update_result_display l st) = evs ++ trace st ∧
         Forall is_quiet evs.
Proof.
  unfold _update_result_display.
  destruct (heap st !! l) as [r|]; [|by exists []].
  exists [EvShow (index r) (total r) (serial r)].
  split; [by repeat case_match|by repeat constructor].
Qed.

Lemma checkpoint_quiet (io : nat → write_outcome) (n : nat) (st : app) :
  ∃ evs, trace (checkpoint io n st) = evs ++ trace st ∧ Forall is_quiet evs.
Proof.
  destruct (checkpoint_trace io n st) as [->|[o ->]];
    [by exists []|exists [EvSave o]]. by repeat constructor.
Qed.

Lemma finish_quiet (failed : gset string) (o : write_outcome) (st : app) :
  ∃ evs, trace (handle_failed_queries failed (save_results o st))
         = evs ++ trace st ∧ Forall is_quiet evs.
Proof.
  unfold handle_failed_queries, save_results.
  case_decide; repeat case_match; simpl.
  all: first [ by exists []
             | by (eexists [_]; split; [done|]; repeat constructor)
             | by (eexists [_; _]; split; [done|]; repeat constructor) ].
Qed.

(** With every serial cached and no call running, a step keeps the cache
    and logs neither a request nor a pause. *)
Lemma cached_step `{Formatter} serials io (cache : list (string * loc))
    (b b' : batch) :
  Forall (λ s, dict_mem s cache = true) serials →
  step_spec serials io b b' →
  query_cache (bapp b) = cache → (∀ j, futures b !! j ≠ Some Running) →
  query_cache (bapp b') = cache ∧ (∀ j, futures b' !! j ≠ Some Running) ∧
  gets (trace (bapp b')) = gets (trace (bapp b)) ∧
  sleeps (trace (bapp b')) = sleeps (trace (bapp b)).
Proof.
  intros Hall Hstep Hc Hrun.
  assert (Hins : ∀ i f, f ≠ Running → ∀ j,
            <[i := f]> (futures b) !! j ≠ Some Running).
  { intros i f Hf j. destruct (decide (j = i)) as [->|Hne].
    - destruct (decide (i < length (futures b))).
      + rewrite list_lookup_insert_eq by done. congruence.
      + rewrite list_insert_ge by lia. apply Hrun.
    - rewrite list_lookup_insert_ne by done. apply Hrun. }
  destruct Hstep as [|i s l Hi Hs Hget|i s Hi Hs Hget|i s l st' Hi Hs Hfetch
                     |i Hi|i l Hi|i l r k0 Hi Hr Hok Hk0|i l r k0 Hi Hr Hok Hk0];
    cbn [futures set_future set_app bapp].
  - done.
  - split_and!; [done|by apply Hins|done..].
  - exfalso. rewrite Forall_forall in Hall.
    assert (Hin : s ∈ serials) by (by eapply list_elem_of_lookup_2).
    specialize (Hall s Hin). unfold dict_mem in Hall. rewrite <-Hc in Hall.
    by rewrite Hget in Hall.
  - by destruct (Hrun i).
  - split_and!; [done|by apply Hins|done..].
  - destruct (display_frame l (bapp b)) as (Hcache & _).
    destruct (display_quiet l (bapp b)) as (evs & -> & Hq).
    destruct (quiet_app evs (trace (bapp b)) Hq) as [-> ->].
    split_and!; [congruence|by apply Hins|done..].
  - destruct (display_frame l (bapp b)) as (Hcache & _).
    set (st1 := set_results _ _).
    destruct (checkpoint_frame io (S (completed b)) st1) as (_ & Hcache' & _).
    destruct (checkpoint_quiet io (S (completed b)) st1) as (evs' & -> & Hq').
    destruct (quiet_app evs' (trace st1) Hq') as [-> ->]. subst st1.
    cbn [trace set_results query_cache] in *.
    destruct (display_quiet l (bapp b)) as (evs & -> & Hq).
    destruct (quiet_app evs (trace (bapp b)) Hq) as [-> ->].
    split_and!; [congruence|by apply Hins|done..].
  - destruct (display_frame l (bapp b)) as (Hcache & _).
    destruct (display_quiet l (bapp b)) as (evs & -> & Hq).
    destruct (quiet_app evs (trace (bapp b)) Hq) as [-> ->].
    split_and!; [congruence|by apply Hins|done..].
Qed.

(** X12. A batch whose serials are all cached when it starts makes no
    request and no pause, whatever the schedule, and leaves the cache as it
    was. *)
Theorem cached_batch_is_silent `{Formatter} (serials : list string)
    (net : nat → nat → response) (io : nat → write_outcome)
    (io_final : write_outcome) (schedule : list action) (st st' : app) :
  Forall (λ s, dict_mem s (query_cache st) = true) serials →
  execute_query serials net io io_final schedule st = Some st' →
  gets (trace st') = gets (trace st) ∧
  sleeps (trace st') = sleeps (trace st) ∧
  query_cache st' = query_cache st.
Proof.
  intros Hall Hrun. unfold execute_query in Hrun.
  destruct (forallb _ _); [|done]. injection Hrun as <-.
  assert (Hinv : (λ b, query_cache (bapp b) = query_cache st ∧
                       (∀ j, futures b !! j ≠ Some Running) ∧
                       gets (trace (bapp b)) = gets (trace st) ∧
                       sleeps (trace (bapp b)) = sleeps (trace st))
                   (run serials net io schedule st)).
  { apply run_invariant.
    - split_and!; try done. intros j Hj. simpl in Hj.
      apply lookup_replicate in Hj as [? _]. done.
    - intros b b' (Hc & Hrun & Hg & Hs) Hstep.
      destruct (cached_step serials io (query_cache st) b b' Hall Hstep Hc Hrun)
        as (? & ? & ? & ?).
      split_and!; [done..|congruence|congruence]. }
  destruct Hinv as (Hc & _ & Hg & Hs).
  set (b := run serials net io schedule st) in *.
  destruct (finish_quiet (failed_serials b) io_final (bapp b))
    as (evs & -> & Hq).
  destruct (quiet_app evs (trace (bapp b)) Hq) as [-> ->].
  destruct (finish_frame (failed_serials b) io_final (bapp b)) as (_ & -> & _).
  done.
Qed.

Lemma cached_batch_is_silent_witness :
  let st' := default after_first_batch
               (execute_query first_batch (λ _ _, timeout) (λ _, Written)
                  Written (one_by_one 2) after_first_batch) in
  gets (trace st') = gets (trace after_first_batch) ∧
  sleeps (trace st') = sleeps (trace after_first_batch) ∧
  query_cache st' = query_cache after_first_batch.
Proof.
  apply (cached_batch_is_silent first_batch (λ _ _, timeout) (λ _, Written)
           Written (one_by_one 2) after_first_batch).
  - repeat constructor.
  - vm_compute. reflexivity.
Defined.

Lemma done_is_live `{Formatter} serials (b : batch) (i : nat) (res : option loc) :
  futures_ok serials b → futures b !! i = Some (Done res) →
  ∃ l k r, res = Some l ∧ serials !! i = Some k ∧
           heap (bapp b) !! l = Some r ∧ serial r = JStr k.
Proof.
  intros (Hlen & _ & Hf) Hi.
  destruct (lookup_lt_is_Some_2 serials i) as [k Hk].
  { rewrite <-Hlen. by eapply lookup_lt_Some. }
  destruct (Hf i k res Hk Hi) as (l & r & -> & Hr & Hs). by exists l, k, r.
Qed.

(** A step logs a result event exactly when it collects a future. *)
Lemma shows_step `{Formatter} serials io (b b' : batch) :
  futures_ok serials b → step_spec serials io b b' →
  shows (trace (bapp b')) + collected_count (futures b) =
  shows (trace (bapp b)) + collected_count (futures b').
Proof.
  intros Hok Hstep.
  destruct Hstep as [|i s l Hi Hs Hget|i s Hi Hs Hget|i s l st' Hi Hs Hfetch
                     |i Hi|i l Hi|i l r k0 Hi Hr Hok' Hk0|i l r k0 Hi Hr Hok' Hk0];
    cbn [futures set_future set_app bapp];
    try rewrite (collected_count_insert _ _ _ _ Hi) by done;
    cbn [is_collected].
  - done.
  - done.
  - done.
  - inversion Hfetch as [|evs doc n Hevs|evs msg n Hevs]; subst; cbn [trace];
      rewrite shows_app; [lia| |lia|];
      (eapply Forall_impl; [done|]); apply fetch_event_not_show.
  - by destruct (done_is_live serials b i None Hok Hi) as (? & ? & ? & ? & _).
  - destruct (done_is_live serials b i _ Hok Hi) as (? & k & r & [= <-] & _ & Hr & _).
    rewrite (display_trace l r) by done. rewrite shows_cons. lia.
  - destruct (done_is_live serials b i _ Hok Hi) as (? & k & r' & [= <-] & _ & Hr' & _).
    set (st1 := set_results _ _).
    destruct (checkpoint_trace io (S (completed b)) st1) as [->|[o ->]];
      subst st1; cbn [trace set_results];
      rewrite ?shows_cons, (display_trace l r') by done; rewrite shows_cons; lia.
  - destruct (done_is_live serials b i _ Hok Hi) as (? & k & r' & [= <-] & _ & Hr' & _).
    rewrite (display_trace l r') by done. rewrite shows_cons. lia.
Qed.

Lemma cache_ok_entries (st : app) :
  Forall (λ kl : string * loc,
            ∃ r, heap st !! kl.2 = Some r ∧ serial r = JStr kl.1)
         (query_cache st) →
  cache_ok st.
Proof.
  intros Hall k l Hget%dict_get_elem. rewrite Forall_forall in Hall.
  apply (Hall (k, l) Hget).
Qed.

(** X13. A batch that starts from a state whose cache is in order shows
    exactly one result event per submitted serial, repeated serials
    included, whatever the outcomes and the schedule. *)
Theorem one_event_per_serial `{Formatter} (serials : list string)
    (net : nat → nat → response) (io : nat → write_outcome)
    (io_final : write_outcome) (schedule : list action) (st st' : app) :
  cache_ok st →
  execute_query serials net io io_final schedule st = Some st' →
  shows (trace st') = shows (trace st) + length serials.
Proof.
  intros Hc Hrun. unfold execute_query in Hrun.
  destruct (forallb _ _) eqn:Hall; [|done]. injection Hrun as <-.
  assert (Hinv : (λ b, futures_ok serials b ∧
                       shows (trace (bapp b)) =
                       shows (trace st) + collected_count (futures b))
                   (run serials net io schedule st)).
  { apply run_invariant.
    - split.
      + split; [apply length_replicate|]. split; [done|].
        intros j k res _ Hj. simpl in Hj.
        apply lookup_replicate in Hj as [? _]. done.
      + simpl. unfold collected_count.
        induction (length serials) as [|n IH]; [simpl; lia|]. simpl.
        rewrite filter_cons. by case_decide.
    - intros b b' [Hok Hshows] Hstep.
      split; [by eapply futures_ok_step|].
      pose proof (shows_step serials io b b' Hok Hstep). lia. }
  destruct Hinv as ((Hlen & _) & Hshows).
  set (b := run serials net io schedule st) in *.
  destruct (finish_frame (failed_serials b) io_final (bapp b))
    as (_ & _ & extra & -> & Hextra).
  rewrite shows_app, Hshows, collected_count_all, Hlen by done. done.
Qed.

Lemma one_event_per_serial_witness :
  shows (trace after_later_batch) = shows (trace after_first_batch) + 3.
Proof.
  apply (one_event_per_serial later_batch (λ _ _, found 30) (λ _, Written)
           Written (one_by_one 3) after_first_batch after_later_batch).
  - apply cache_ok_entries.
    repeat constructor; eexists; split; reflexivity.
  - vm_compute. reflexivity.
Defined.

(** The set of failed serials holds serials of the batch only. *)
Lemma failed_step `{Formatter} serials io (b b' : batch) :
  futures_ok serials b → step_spec serials io b b' →
  (∀ k, k ∈ failed_serials b → k ∈ serials) →
  ∀ k, k ∈ failed_serials b' → k ∈ serials.
Proof.
  intros Hok Hstep Hsub.
  destruct Hstep as [|i s l Hi Hs Hget|i s Hi Hs Hget|i s l st' Hi Hs Hfetch
                     |i Hi|i l Hi|i l r k0 Hi Hr Hok' Hk0|i l r k0 Hi Hr Hok' Hk0];
    cbn [failed_serials set_future set_app]; try done.
  intros k [->%elem_of_singleton|Hk]%elem_of_union; [|by apply Hsub].
  destruct (done_is_live serials b i _ Hok Hi)
    as (? & k & r0 & [= <-] & Hk & Hr0 & Hs0).
  destruct (display_heap l l r0 (bapp b) Hr0) as (r' & Hr' & (Hser & _) & _).
  assert (r' = r) as -> by congruence.
  assert (k0 = k) as -> by congruence.
  by eapply list_elem_of_lookup_2.
Qed.

(** X14. The serials that a batch reports as failed are serials of that
    batch.  When the batch was given canonical serials, the failed ones,
    joined by newlines in any order (the text that [handle_failed_queries]
    leaves in the input box), are parsed back as exactly that list, with no
    warning. *)
Theorem failed_serials_reparse `{Formatter} (serials : list string)
    (net : nat → nat → response) (io : nat → write_outcome)
    (schedule : list action) (st : app) (failed : list string) :
  cache_ok st →
  Forall (λ s, canonical s = true) serials →
  failed ≡ₚ elements (failed_serials (run serials net io schedule st)) →
  Forall (λ k, k ∈ serials) failed ∧
  parse_report (join_lines failed) = mkParsed failed [] [].
Proof.
  intros Hc Hcanon Hperm.
  assert (Hinv : (λ b, futures_ok serials b ∧
                       ∀ k, k ∈ failed_serials b → k ∈ serials)
                   (run serials net io schedule st)).
  { apply run_invariant.
    - split.
      + split; [apply length_replicate|]. split; [done|].
        intros j k res _ Hj. simpl in Hj.
        apply lookup_replicate in Hj as [? _]. done.
      + intros k Hk. simpl in Hk. set_solver.
    - intros b b' [Hok Hsub] Hstep.
      split; [by eapply futures_ok_step|by eapply failed_step]. }
  destruct Hinv as [_ Hsub].
  assert (Hin : Forall (λ k, k ∈ serials) failed).
  { apply Forall_forall. intros k Hk. apply Hsub.
    rewrite Hperm in Hk. by apply elem_of_elements. }
  split; [done|]. apply parse_report_joined.
  - apply Forall_forall. intros k Hk. rewrite Forall_forall in Hin, Hcanon.
    by apply Hcanon, Hin.
  - rewrite Hperm. apply NoDup_elements.
Qed.

Lemma failed_serials_reparse_witness :
  let failed := elements (failed_serials
                  (run ["PF100001"; "PF100002"]
                     (λ i _, match i with 0 => timeout | _ => found 30 end)
                     (λ _, Written) (one_by_one 2) (initial NoFile))) in
  Forall (λ k, k ∈ ["PF100001"; "PF100002"]) failed ∧
  parse_report (join_lines failed) = mkParsed failed [] [].
Proof.
  apply (failed_serials_reparse ["PF100001"; "PF100002"]
           (λ i _, match i with 0 => timeout | _ => found 30 end)
           (λ _, Written) (one_by_one 2) (initial NoFile)).
  - intros k l Hk. discriminate Hk.
  - repeat constructor.
  - reflexivity.
Defined.

(** ** No serial is lost *)

Lemma tagged_extends (st st' : app) (l : loc) :
  extends st st' → tagged st l → tagged st' l.
Proof.
  intros Hext (r & Hr & Htag). destruct (Hext l r Hr) as (r' & Hr' & Hcore).
  exists r'. split; [done|]. by rewrite (same_core_success r r' Hcore).
Qed.

Lemma step_cache_found `{Formatter} serials io (b b' : batch) :
  step_spec serials io b b' →
  query_cache (bapp b') = query_cache (bapp b) ∨
  ∃ k r,
    query_cache (bapp b') =
      dict_set k (length (heap (bapp b))) (query_cache (bapp b)) ∧
    heap (bapp b') = heap (bapp b) ++ [r] ∧ is_success r = Some true.
Proof.
  destruct 1 as [| | |i k l st' Hi Hk Hf| | |i l r k _ Hr Hok Hk|]; simpl;
    try (by left); try (left; apply display_frame).
  - inversion Hf; subst; simpl; [|by left]. right. by eexists _, _.
  - left.
    destruct (checkpoint_frame io (S (completed b))
      (set_results (dict_set k l
         (query_results (_update_result_display l (bapp b))))
         (_update_result_display l (bapp b)))) as (_ & -> & _).
    apply display_frame.
Qed.

Lemma all_tagged_step `{Formatter} serials io (b b' : batch) :
  step_spec serials io b b' → all_tagged b → all_tagged b'.
Proof.
  intros Hstep [Hcache Hfut].
  pose proof (step_extends _ _ _ _ Hstep) as Hext.
  split.
  - intros k l Hget.
    destruct (step_cache_found _ _ _ _ Hstep)
      as [Hsame|(k0 & r & Hset & Hheap & Hok)].
    + rewrite Hsame in Hget. eapply tagged_extends; [done|]. by eapply Hcache.
    + rewrite Hset in Hget. destruct (decide (k0 = k)) as [->|Hne].
      * rewrite dict_get_set_eq in Hget. injection Hget as <-.
        exists r. rewrite Hheap. split; [by apply list_lookup_middle|].
        rewrite Hok. by eexists.
      * rewrite dict_get_set_ne in Hget by done.
        eapply tagged_extends; [done|]. by eapply Hcache.
  - intros j l Hj.
    assert (Hold : futures b !! j = Some (Done (Some l)) → tagged (bapp b') l).
    { intros Hj'. eapply tagged_extends; [done|]. by eapply Hfut. }
    destruct Hstep as [|i s l0 Hi Hs Hget|i s Hi Hs Hget|i s l0 st' Hi Hs Hfetch
                     |i Hi|i l0 Hi|i l0 r k0 Hi Hr Hok' Hk0|i l0 r k0 Hi Hr Hok' Hk0];
      cbn [futures set_future set_app bapp] in *; try by apply Hold.
    all: destruct (decide (j = i)) as [->|Hne];
      [rewrite list_lookup_insert_eq in Hj by (by eapply lookup_lt_Some)
      |rewrite list_lookup_insert_ne in Hj by done; by apply Hold].
    all: try done.
    + injection Hj as <-. by eapply Hcache.
    + injection Hj as <-.
      inversion Hfetch as [|evs doc n Hevs Hok|evs msg n Hevs]; subst; simpl;
        eexists; (split; [by apply list_lookup_middle|]).
      * rewrite Hok. by eexists.
      * by eexists.
Qed.

Lemma step_ok_spec `{Formatter} serials io (b b' : batch) :
  step_ok serials io b b' → step_spec serials io b b'.
Proof.
  destruct 1; [apply StepIdle|done|by eapply StepCollectStore
              |by eapply StepCollectFail].
Qed.

(** A worker step leaves the count, the failed set and the collected
    futures as they are. *)
Lemma worker_step `{Formatter} serials net io (b : batch) (a : action) :
  match a with
  | Collect _ => True
  | _ =>
      failed_serials (step serials net io b a) = failed_serials b ∧
      ∀ j, futures (step serials net io b a) !! j = Some Collected →
           futures b !! j = Some Collected
  end.
Proof.
  assert (Hins : ∀ i f (b0 : batch), futures b0 = futures b →
            futures b !! i ≠ Some Collected → f ≠ Collected → ∀ j,
            <[i := f]> (futures b0) !! j = Some Collected →
            futures b !! j = Some Collected).
  { intros i f b0 -> Hi Hf j. destruct (decide (j = i)) as [->|Hne].
    - destruct (decide (i < length (futures b))).
      + rewrite list_lookup_insert_eq by done. congruence.
      + rewrite list_insert_ge by lia. done.
    - by rewrite list_lookup_insert_ne. }
  destruct a as [i|i|i]; [| |done]; simpl.
  - destruct (futures b !! i) as [[| |?|]|] eqn:Hi; try done.
    destruct (serials !! i); [|done]. destruct (can_begin _ _); [|done].
    destruct (dict_get _ _); (split; [done|]); cbn [futures set_future];
      apply (Hins i _ b); congruence.
  - destruct (futures b !! i) as [[| |?|]|] eqn:Hi; try done.
    destruct (serials !! i); [|done].
    destruct (fetch_loop _ _ _ _ _ _) as [res st'].
    split; [done|]. cbn [futures set_future set_app].
    apply (Hins i _ b); congruence.
Qed.

Lemma step_ok_cases `{Formatter} serials net io (b : batch) (a : action) :
  futures_ok serials b → all_tagged b →
  step_ok serials io b (step serials net io b a).
Proof.
  intros Hok [_ Hfut]. destruct a as [i|i|i].
  - destruct (worker_step serials net io b (Begin i)) as [Hf Hc].
    apply OkWorker; [apply step_cases| |done..].
    apply (step_frame serials net io b (Begin i)).
  - destruct (worker_step serials net io b (Finish i)) as [Hf Hc].
    apply OkWorker; [apply step_cases| |done..].
    apply (step_frame serials net io b (Finish i)).
  - simpl. destruct (futures b !! i) as [[| |res|]|] eqn:Hi; try apply OkIdle.
    destruct (done_is_live serials b i res Hok Hi)
      as (l & k & r0 & -> & Hk & Hr0 & Hs0).
    destruct (Hfut i l Hi) as (r1 & Hr1 & [ok Htag]).
    assert (r1 = r0) as -> by congruence.
    destruct (display_heap l l r0 (bapp b) Hr0) as (r & Hr & Hcore & _).
    assert (Hsucc : is_success r = Some ok)
      by (by rewrite (same_core_success r0 r Hcore)).
    assert (Hser : serial r = JStr k) by (destruct Hcore as (-> & _); done).
    unfold handle_completion, update_result_text.
    rewrite Hr. simpl. rewrite Hsucc. simpl. rewrite Hser. simpl.
    destruct ok.
    + by eapply OkStore.
    + by eapply OkFail.
Qed.

Lemma dict_mem_set {A : Type} (k k0 : string) (v : A) (d : list (string * A)) :
  dict_mem k d = true → dict_mem k (dict_set k0 v d) = true.
Proof.
  unfold dict_mem. destruct (decide (k0 = k)) as [->|Hne].
  - by rewrite dict_get_set_eq.
  - by rewrite dict_get_set_ne.
Qed.

Lemma accounted_step `{Formatter} serials io (b b' : batch) :
  step_ok serials io b b' → accounted serials b → accounted serials b'.
Proof.
  unfold accounted. intros Hstep Hacc j k' Hk' Hj.
  destruct Hstep as [|b' _ Hs Hf Hc|i l r k Hi Hk Hr Hok Hser
                     |i l r k Hi Hk Hr Hok Hser].
  - exact (Hacc j k' Hk' Hj).
  - rewrite Hs, Hf. exact (Hacc j k' Hk' (Hc j Hj)).
  - cbn [futures set_future bapp failed_serials] in *.
    destruct (checkpoint_frame io (S (completed b))
      (set_results (dict_set k l
         (query_results (_update_result_display l (bapp b))))
         (_update_result_display l (bapp b)))) as (_ & _ & -> & _).
    cbn [query_results set_results].
    destruct (display_frame l (bapp b)) as (_ & -> & _).
    destruct (decide (j = i)) as [->|Hne].
    + left. assert (k' = k) as -> by congruence.
      unfold dict_mem. by rewrite dict_get_set_eq.
    + rewrite list_lookup_insert_ne in Hj by done.
      destruct (Hacc j k' Hk' Hj) as [?|?]; [left|by right].
      by apply dict_mem_set.
  - cbn [futures set_future bapp failed_serials] in *.
    destruct (display_frame l (bapp b)) as (_ & -> & _).
    destruct (decide (j = i)) as [->|Hne].
    + right. assert (k' = k) as -> by congruence. set_solver.
    + rewrite list_lookup_insert_ne in Hj by done.
      destruct (Hacc j k' Hk' Hj) as [?|?]; [by left|right]. set_solver.
Qed.

(** X15. After a batch that started with a sound cache, every submitted
    serial is in the store or in the set of failed serials: the completion
    loop never drops a result through its [except] branch. *)
Theorem every_serial_accounted `{Formatter} (serials : list string)
    (net : nat → nat → response) (io : nat → write_outcome)
    (io_final : write_outcome) (schedule : list action) (st st' : app) :
  cache_sound st →
  execute_query serials net io io_final schedule st = Some st' →
  Forall (λ k, dict_mem k (query_results st') = true ∨
               k ∈ failed_serials (run serials net io schedule st)) serials.
Proof.
  intros [Hc Htag] Hrun. unfold execute_query in Hrun.
  destruct (forallb _ _) eqn:Hall; [|done]. injection Hrun as <-.
  assert (Hinv : futures_ok serials (run serials net io schedule st) ∧
                 all_tagged (run serials net io schedule st) ∧
                 accounted serials (run serials net io schedule st)).
  { unfold run.
    assert (Hinit : futures_ok serials (submitted serials st) ∧
                    all_tagged (submitted serials st) ∧
                    accounted serials (submitted serials st)).
    { split_and!.
      - split; [apply length_replicate|]. split; [done|].
        intros j k res _ Hj. simpl in Hj.
        apply lookup_replicate in Hj as [? _]. done.
      - split; [done|]. intros j l Hj. simpl in Hj.
        apply lookup_replicate in Hj as [? _]. done.
      - intros j k _ Hj. simpl in Hj.
        apply lookup_replicate in Hj as [? _]. done. }
    clear Hall. generalize dependent (submitted serials st).
    induction schedule as [|a schedule IH]; intros b Hb; [done|].
    simpl. apply IH. destruct Hb as (Hok & Ht & Hacc).
    pose proof (step_ok_cases serials net io b a Hok Ht) as Hstep.
    pose proof (step_ok_spec _ _ _ _ Hstep) as Hspec.
    split; [|split].
    - by apply (futures_ok_step serials io b).
    - by apply (all_tagged_step serials io b).
    - by apply (accounted_step serials io b). }
  destruct Hinv as ((Hlen & _) & _ & Hacc).
  set (b := run serials net io schedule st) in *.
  destruct (handle_failed_frame (failed_serials b)
              (save_results io_final (bapp b))) as (_ & _ & -> & _).
  destruct (save_results_frame io_final (bapp b)) as (_ & _ & -> & _).
  apply Forall_forall. intros k [j Hj]%list_elem_of_lookup.
  apply (Hacc j k Hj).
  destruct (lookup_lt_is_Some_2 (futures b) j) as [f Hf].
  { rewrite Hlen. by eapply lookup_lt_Some. }
  rewrite forallb_forall in Hall.
  assert (Hcol : is_collected f = true).
  { apply Hall. apply list_elem_of_In. by eapply list_elem_of_lookup_2. }
  by destruct f.
Qed.

Lemma every_serial_accounted_witness :
  let net := λ i (_ : nat), match i with 0 => timeout | _ => found 30 end in
  let st' := default (initial NoFile)
               (execute_query ["PF100001"; "PF100002"] net (λ _, Written)
                  Written (one_by_one 2) (initial NoFile)) in
  Forall (λ k, dict_mem k (query_results st') = true ∨
               k ∈ failed_serials
                     (run ["PF100001"; "PF100002"] net (λ _, Written)
                        (one_by_one 2) (initial NoFile)))
    ["PF100001"; "PF100002"].
Proof.
  apply (every_serial_accounted ["PF100001"; "PF100002"]
           (λ i _, match i with 0 => timeout | _ => found 30 end)
           (λ _, Written) Written (one_by_one 2) (initial NoFile)).
  - split; intros k l Hk; discriminate Hk.
  - vm_compute. reflexivity.
Defined.

(** ** Figures written as decimal text *)

Lemma digit_is_plain (c : ascii) : is_digit c = true → is_plain c = true.
Proof. each_char c. Qed.

Lemma digit_no_space (c : ascii) : is_digit c = true → is_c_space c = false.
Proof. each_char c. Qed.

Lemma plain_char (c : ascii) :
  is_plain c = true → transform_char (N_of_ascii c) = Some c.
Proof. each_char c. Qed.

Lemma plain_byte (c : ascii) : is_plain c = true → (N_of_ascii c <? 128)%N = true.
Proof. each_char c. Qed.

Lemma digit_value (x : N) :
  (x < 10)%N →
  is_digit (pretty_N_char x) = true ∧
  digit_of (pretty_N_char x) = Some (Z.of_N x).
Proof.
  intros Hx.
  assert (x = 0 ∨ x = 1 ∨ x = 2 ∨ x = 3 ∨ x = 4 ∨ x = 5 ∨ x = 6 ∨ x = 7
          ∨ x = 8 ∨ x = 9)%N as Hcases by lia.
  repeat destruct Hcases as [->|Hcases]; try subst x; by vm_compute.
Qed.

(** A string of plain characters is read as it is. *)
Lemma transform_plain (s : string) :
  all_chars is_plain s = true → transform s = Some s.
Proof.
  unfold transform.
  assert (Hdec : ∀ s, all_chars is_plain s = true →
            utf8_decode s = Some (N_of_ascii <$> list_ascii_of_string s)).
  { clear s. induction s as [|c s IH]; [done|]. simpl.
    intros [Hc Hs]%andb_true_iff.
    rewrite (plain_byte c Hc), (IH Hs). done. }
  intros Hs.
  assert (Hmap : mapM transform_char (N_of_ascii <$> list_ascii_of_string s)
                 = Some (list_ascii_of_string s)).
  { clear Hdec. apply mapM_Some.
    induction s as [|c s IH]; [constructor|]. simpl in Hs.
    apply andb_true_iff in Hs as [Hc Hs]. csimpl.
    constructor; [by apply plain_char|by apply IH]. }
  rewrite (Hdec s Hs).
  change (string_of_list_ascii <$>
            mapM transform_char (N_of_ascii <$> list_ascii_of_string s)
          = Some s).
  rewrite Hmap. csimpl.
  by rewrite string_of_list_ascii_of_string.
Qed.

Lemma spaces_fixed (s : string) :
  all_chars (λ c, negb (is_c_space c)) s = true →
  drop_final_spaces (skip_spaces s) = s.
Proof.
  intros Hs.
  assert (skip_spaces s = s) as ->.
  { destruct s as [|c s]; [done|]. simpl in *.
    apply andb_true_iff in Hs as [->%negb_true_iff _]. done. }
  induction s as [|c s IH]; [done|]. simpl in Hs.
  apply andb_true_iff in Hs as [Hc%negb_true_iff Hs]. specialize (IH Hs).
  cbn [drop_final_spaces]. rewrite IH, Hc. by destruct s.
Qed.

Lemma value_of_app (t s : string) : ∀ acc,
  value_of acc (t +:+ s) = value_of (value_of acc t) s.
Proof. induction t as [|c t IH]; intros acc; [done|]. simpl. apply IH. Qed.

Lemma all_chars_app (p : ascii → bool) (t s : string) :
  all_chars p (t +:+ s) = all_chars p t && all_chars p s.
Proof.
  induction t as [|c t IH]; [done|]. simpl. by rewrite IH, andb_assoc.
Qed.

Lemma parse_digits_plain (t : string) : ∀ acc b,
  all_chars is_digit t = true → t ≠ EmptyString →
  parse_digits acc b t = Some (value_of acc t).
Proof.
  induction t as [|c t IH]; intros acc b Ht Hne; [done|]. simpl in *.
  apply andb_true_iff in Ht as [Hc Ht]. unfold is_digit in Hc.
  destruct (digit_of c) as [d|]; [|done]. simpl.
  destruct t as [|c' t]; [done|]. by apply IH.
Qed.

Lemma count_digits_plain (t : string) :
  all_chars is_digit t = true → count_digits t = String.length t.
Proof.
  induction t as [|c t IH]; [done|]. simpl.
  intros [Hc Ht]%andb_true_iff. unfold is_digit in Hc.
  destruct (digit_of c); [|done]. by rewrite IH.
Qed.

Lemma append_assoc (a b c : string) : (a +:+ b) +:+ c = a +:+ (b +:+ c).
Proof.
  induction a as [|x a IH]; [done|].
  change (String x ((a +:+ b) +:+ c) = String x (a +:+ (b +:+ c))).
  by rewrite IH.
Qed.

Lemma length_append (a b : string) :
  String.length (a +:+ b) = String.length a + String.length b.
Proof.
  induction a as [|x a IH]; [done|].
  change (S (String.length (a +:+ b)) = S (String.length a + String.length b)).
  by rewrite IH.
Qed.

(** What [str()] writes for a natural number: its digits, most
    significant first, before what was already written. *)
Lemma pretty_digits (x : N) : ∀ s,
  ∃ t, pretty_N_go x s = t +:+ s ∧ all_chars is_digit t = true ∧
       value_of 0 t = Z.of_N x ∧ ((0 < x)%N → t ≠ EmptyString) ∧
       ∀ n : nat, (x < 10 ^ N.of_nat n)%N → String.length t ≤ n.
Proof.
  induction (N.lt_wf_0 x) as [x _ IH]; intros s.
  assert (x = 0 ∨ 0 < x)%N as [->|Hpos] by lia.
  - exists EmptyString. rewrite pretty_N_go_0.
    split_and!; [done..|]. intros n _. simpl. lia.
  - rewrite pretty_N_go_step by done.
    destruct (IH (x `div` 10)%N (N.div_lt x 10 Hpos eq_refl)
                (String (pretty_N_char (x `mod` 10)) s))
      as (t & Heq & Hd & Hv & _ & Hlen).
    destruct (digit_value (x `mod` 10)) as [Hc Hcv].
    { by apply N.mod_lt. }
    exists (t +:+ String (pretty_N_char (x `mod` 10)) EmptyString).
    split_and!.
    + by rewrite Heq, append_assoc.
    + rewrite all_chars_app, Hd. simpl. by rewrite Hc.
    + rewrite value_of_app, Hv. simpl. rewrite Hcv. simpl.
      rewrite (N.div_mod x 10) at 3 by done.
      rewrite N2Z.inj_add, N2Z.inj_mul. lia.
    + intros _. by destruct t.
    + intros n Hn. rewrite length_append. simpl.
      destruct n as [|n].
      { simpl in Hn. lia. }
      rewrite Nat2N.inj_succ, N.pow_succ_r' in Hn.
      specialize (Hlen n (N.Div0.div_lt_upper_bound _ _ _ Hn)). lia.
Qed.

Lemma append_empty (a : string) : a +:+ EmptyString = a.
Proof.
  induction a as [|x a IH]; [done|].
  change (String x (a +:+ EmptyString) = String x a). by rewrite IH.
Qed.

Lemma sign_of_digit (c : ascii) (t : string) :
  is_digit c = true →
  match String c t with
  | String "-"%char s' => (true, s')
  | String "+"%char s' => (false, s')
  | s' => (false, s')
  end = (false, String c t).
Proof. each_char c. Qed.

(** A run of digits within the length limit is read as the number it
    denotes, and as its opposite after a minus sign. *)
Lemma read_digits (t : string) :
  all_chars is_digit t = true → t ≠ EmptyString →
  String.length t ≤ max_str_digits →
  int_of_string t = Some (value_of 0 t) ∧
  int_of_string (String "-"%char t) = Some (- value_of 0 t)%Z.
Proof.
  intros Hd Hne Hlen.
  assert (Hplain : all_chars is_plain t = true)
    by (by apply (all_chars_impl is_digit), Hd; apply digit_is_plain).
  assert (Hsp : all_chars (λ c, negb (is_c_space c)) t = true).
  { apply (all_chars_impl is_digit); [|done].
    intros c Hc. by rewrite (digit_no_space c Hc). }
  assert (Hcount : (max_str_digits <? count_digits t) = false).
  { apply Nat.ltb_ge. by rewrite count_digits_plain. }
  unfold int_of_string. split.
  - rewrite (transform_plain t Hplain).
    change (read_literal t = Some (value_of 0 t)). unfold read_literal.
    rewrite (spaces_fixed t Hsp).
    destruct t as [|c t]; [done|].
    assert (Hc : is_digit c = true).
    { simpl in Hd. by apply andb_true_iff in Hd as [? _]. }
    rewrite (sign_of_digit c t Hc). rewrite Hcount.
    by rewrite (parse_digits_plain (String c t) 0 false Hd Hne).
  - rewrite (transform_plain (String "-" t)); [|simpl; by rewrite Hplain].
    change (read_literal (String "-" t) = Some (- value_of 0 t)%Z).
    unfold read_literal.
    rewrite (spaces_fixed (String "-" t)); [|simpl; by rewrite Hsp].
    rewrite Hcount.
    by rewrite (parse_digits_plain t 0 false Hd Hne).
Qed.

(** [int()] reads back what [str()] writes for an integer within the
    length limit. *)
Lemma int_of_pretty (d : Z) :
  (Z.abs d < 10 ^ Z.of_nat max_str_digits)%Z →
  int_of_string (pretty d) = Some d.
Proof.
  intros Hd.
  assert (Hpos : ∀ p, (Z.pos p < 10 ^ Z.of_nat max_str_digits)%Z →
            ∃ t, pretty (N.pos p) = t ∧ all_chars is_digit t = true ∧
                 t ≠ EmptyString ∧ String.length t ≤ max_str_digits ∧
                 value_of 0 t = Z.pos p).
  { intros p Hp. unfold pretty, pretty_N. case_decide; [done|].
    destruct (pretty_digits (N.pos p) EmptyString)
      as (t & Heq & Hdig & Hv & Hne & Hlen).
    exists t. rewrite Heq, append_empty. split_and!; [done|done| | |done].
    - apply Hne. lia.
    - apply Hlen. apply N2Z.inj_lt. rewrite N2Z.inj_pow, nat_N_Z. exact Hp. }
  destruct d as [|p|p].
  - by vm_compute.
  - destruct (Hpos p Hd) as (t & Heq & Hdig & Hne & Hlen & Hv).
    change (pretty (Z.pos p)) with (pretty (N.pos p)). rewrite Heq.
    destruct (read_digits t Hdig Hne Hlen) as [-> _]. by rewrite Hv.
  - destruct (Hpos p Hd) as (t & Heq & Hdig & Hne & Hlen & Hv).
    change (pretty (Z.neg p)) with ("-" +:+ pretty (N.pos p)). rewrite Heq.
    change ("-" +:+ t) with (String "-" t).
    destruct (read_digits t Hdig Hne Hlen) as [_ ->]. by rewrite Hv.
Qed.

Lemma days_written (figures : list json) (days : list Z) :
  Forall2 written figures days →
  Forall (λ d, (Z.abs d < 10 ^ Z.of_nat max_str_digits)%Z) days →
  mapM days_remaining (entry_with <$> figures) = Some days.
Proof.
  intros Hw Hb. apply mapM_Some.
  induction Hw as [|v d figures days Hv Hw IH]; csimpl; [constructor|].
  apply Forall_cons in Hb as [Hd Hb]. constructor; [|by apply IH].
  change (py_int v = Some d).
  destruct Hv as [->| ->]; [done|]. by apply int_of_pretty.
Qed.

(** X16. When the figures of a success payload are written as integers
    or as the decimal text of integers (of at most 4300 digits), the
    display counts as valid the entries whose figure is positive and as
    expired the others, over the three service types together. *)
Theorem written_figures_counted (st : app) (l : loc) (r : QueryResult)
    (warranty onsite other : list json) (d1 d2 d3 : list Z) :
  heap st !! l = Some r →
  is_success r = Some true →
  data r = payload [("warranty", JList (entry_with <$> warranty));
                    ("onsite", JList (entry_with <$> onsite));
                    ("other", JList (entry_with <$> other))] →
  Forall2 written warranty d1 →
  Forall2 written onsite d2 →
  Forall2 written other d3 →
  Forall (λ d, (Z.abs d < 10 ^ Z.of_nat max_str_digits)%Z) (d1 ++ d2 ++ d3) →
  heap (_update_result_display l st) !! l =
  Some (assign_counts (count_valid (d1 ++ d2 ++ d3))
          (count_expired (d1 ++ d2 ++ d3)) r).
Proof.
  intros Hl Hok Hdata H1 H2 H3 Hb.
  apply Forall_app in Hb as [Hb1 Hb23]. apply Forall_app in Hb23 as [Hb2 Hb3].
  assert (Hdays : payload_days (data r) = Some (d1 ++ d2 ++ d3)).
  { rewrite Hdata.
    change (mapM days_remaining
              ((entry_with <$> warranty) ++ (entry_with <$> onsite) ++
               (entry_with <$> other) ++ []) = Some (d1 ++ d2 ++ d3)).
    rewrite app_nil_r. apply mapM_Some.
    repeat apply Forall2_app; by apply mapM_Some, days_written. }
  unfold _update_result_display, is_success in *. rewrite Hl.
  destruct (py_truthy (success r)); [|done].
  destruct (py_getitem (data r) "statusCode") as [|status]; [done|].
  injection Hok as ->.
  rewrite (service_counts_spec _ _ Hdays). simpl.
  apply list_lookup_insert_eq. by eapply lookup_lt_Some.
Qed.

Lemma written_figures_counted_witness :
  let doc := payload [("warranty", JList [entry_with (JStr "30");
                                         entry_with (JInt (-5))]);
                      ("onsite", JList [entry_with (JStr "-12")]);
                      ("other", JList [])] in
  let r := new_result "ABCDEFGH12" 1 1 true doc 0 in
  heap (_update_result_display 0 (mkApp [r] [] [] 2 NoFile [])) !! 0 =
  Some (assign_counts 1 2 r).
Proof.
  apply (written_figures_counted
           (mkApp [new_result "ABCDEFGH12" 1 1 true
                     (payload [("warranty", JList [entry_with (JStr "30");
                                                   entry_with (JInt (-5))]);
                               ("onsite", JList [entry_with (JStr "-12")]);
                               ("other", JList [])]) 0] [] [] 2 NoFile [])
           0 _ [JStr "30"; JInt (-5)] [JStr "-12"] []
           [30; -5]%Z [(-12)%Z] []).
  - reflexivity.
  - reflexivity.
  - reflexivity.
  - constructor; [by right|]. constructor; [by left|]. constructor.
  - constructor; [by right|]. constructor.
  - constructor.
  - repeat (apply Forall_cons; split; [by apply Z.ltb_lt; vm_compute|]).
    constructor.
Defined.

(** ** Figures with a fraction *)

Lemma int_of_float_positive (f : pyfloat) (z : Z) :
  int_of_float f = Some z → ((0 <? z)%Z = at_least_one f).
Proof.
  destruct f as [| |negative m e]; [done..|]. simpl.
  intros [= <-].
  destruct (Z.leb_spec 0 e) as [He|He].
  - assert (0 < 2 ^ e)%Z by (by apply Z.pow_pos_nonneg).
    destruct negative.
    + apply Z.ltb_ge. nia.
    + destruct (N.ltb_spec 0 m); [apply Z.ltb_lt|apply Z.ltb_ge]; nia.
  - assert (0 < 2 ^ (- e))%Z by (apply Z.pow_pos_nonneg; lia).
    assert (0 ≤ Z.of_N m / 2 ^ (- e))%Z by (apply Z.div_pos; lia).
    destruct negative.
    + apply Z.ltb_ge. lia.
    + destruct (Z.leb_spec (2 ^ (- e)) (Z.of_N m)) as [Hm|Hm].
      * apply Z.ltb_lt. apply Z.div_str_pos. lia.
      * apply Z.ltb_ge. rewrite Z.div_small; lia.
Qed.

Lemma days_of_fractions (fs : list pyfloat) :
  Forall is_finite fs →
  ∃ days, mapM days_remaining (entry_with ∘ JFloat <$> fs) = Some days ∧
    count_valid days =
      Z.of_nat (length (filter (λ f, at_least_one f = true) fs)) ∧
    count_expired days =
      Z.of_nat (length (filter (λ f, at_least_one f = false) fs)).
Proof.
  induction 1 as [|f fs Hf Hfs (days & Hdays & Hv & He)].
  - by exists [].
  - destruct (int_of_float f) as [z|] eqn:Hz; [|by destruct f].
    pose proof (int_of_float_positive f z Hz) as Hpos.
    exists (z :: days). split_and!.
    + apply mapM_Some. csimpl. constructor; [exact Hz|by apply mapM_Some].
    + change (z :: days) with ([z] ++ days). rewrite count_valid_app, Hv.
      rewrite filter_cons. unfold count_valid. rewrite filter_cons, filter_nil.
      destruct (Z.ltb_spec 0 z); rewrite <-Hpos;
        repeat case_decide; simpl; try done; lia.
    + change (z :: days) with ([z] ++ days). rewrite count_expired_app, He.
      rewrite filter_cons. unfold count_expired. rewrite filter_cons, filter_nil.
      destruct (Z.ltb_spec 0 z); rewrite <-Hpos;
        repeat case_decide; simpl; try done; lia.
Qed.

(** X17. When the figures of a success payload are finite numbers with a
    fraction, the display counts as valid the entries whose figure is 1 or
    more and as expired all the others, those between 0 and 1 included. *)
Theorem fraction_figures_counted (st : app) (l : loc) (r : QueryResult)
    (fs : list pyfloat) :
  heap st !! l = Some r →
  is_success r = Some true →
  data r = payload [("warranty", JList (entry_with ∘ JFloat <$> fs))] →
  Forall is_finite fs →
  heap (_update_result_display l st) !! l =
  Some (assign_counts
          (Z.of_nat (length (filter (λ f, at_least_one f = true) fs)))
          (Z.of_nat (length (filter (λ f, at_least_one f = false) fs))) r).
Proof.
  intros Hl Hok Hdata Hfin.
  destruct (days_of_fractions fs Hfin) as (days & Hdays & <- & <-).
  assert (Hpd : payload_days (data r) = Some days).
  { rewrite Hdata.
    change (mapM days_remaining ((entry_with ∘ JFloat <$> fs) ++ [] ++ [])
            = Some days).
    by rewrite app_nil_r. }
  unfold _update_result_display, is_success in *. rewrite Hl.
  destruct (py_truthy (success r)); [|done].
  destruct (py_getitem (data r) "statusCode") as [|status]; [done|].
  injection Hok as ->.
  rewrite (service_counts_spec _ _ Hpd). simpl.
  apply list_lookup_insert_eq. by eapply lookup_lt_Some.
Qed.

Lemma fraction_figures_counted_witness :
  let doc := payload [("warranty",
                       JList [entry_with (JFloat half);
                              entry_with (JFloat (FNum false 3 (-1)));
                              entry_with (JFloat (FNum true 5 0))])] in
  let r := new_result "ABCDEFGH12" 1 1 true doc 0 in
  heap (_update_result_display 0 (mkApp [r] [] [] 2 NoFile [])) !! 0 =
  Some (assign_counts 1 2 r).
Proof.
  apply (fraction_figures_counted
           (mkApp [new_result "ABCDEFGH12" 1 1 true
                     (payload [("warranty",
                        JList [entry_with (JFloat half);
                               entry_with (JFloat (FNum false 3 (-1)));
                               entry_with (JFloat (FNum true 5 0))])]) 0]
                  [] [] 2 NoFile [])
           0 _ [half; FNum false 3 (-1); FNum true 5 0]).
  - reflexivity.
  - reflexivity.
  - reflexivity.
  - repeat constructor.
Defined.
